(** * RSE server start-up: database bootstrap and schema convergence

    A shallow embedding of [RseApplication.__init__] and
    [RseApplication.init_database] (rse.py).  The Python code talks to a
    MongoDB cluster through pymongo; here the cluster is an explicit store
    (the index table of the [events] collection and the documents of the
    [counters] collection), every driver call consumes one entry of a
    schedule that says whether the call goes through, fails with an
    exception, or is preceded by a concurrent bootstrap seeding the
    counter, and everything the process does (driver calls, server side
    mutations, log records, sleeps) is appended to a trace. *)

From Stdlib Require Import ZArith QArith List.
From stdpp Require Import base gmap strings list.

Open Scope Z_scope.
Open Scope string_scope.
Open Scope list_scope.

(** ** Exceptions

    The part of the [pymongo.errors] hierarchy the code distinguishes, plus
    one constructor for every other subclass of [Exception].
    [AutoReconnect] derives from [ConnectionFailure], [DuplicateKeyError]
    from [OperationFailure]. *)

Inductive exn : Type :=
  | AutoReconnect (msg : string)
  | ConnectionFailure (msg : string)
  | OperationFailure (msg : string)
  | DuplicateKeyError (msg : string)
  | ConfigurationError (msg : string)
  | UnboundLocalError (name : string)
  | OtherException (msg : string).

(** [except pymongo.errors.AutoReconnect] *)
Definition isinstance_AutoReconnect (ex : exn) : bool :=
  match ex with
  | AutoReconnect _ => true
  | _ => false
  end.

(** [except pymongo.errors.OperationFailure] *)
Definition isinstance_OperationFailure (ex : exn) : bool :=
  match ex with
  | OperationFailure _ | DuplicateKeyError _ => true
  | _ => false
  end.

(** ** Configuration (the keys [__init__] and [init_database] read) *)

Record Config : Type := mkConfig {
  authtoken_prefix : string;      (* authcache / authtoken-prefix *)
  provider : string;              (* authcache / provider *)
  event_ttl : Z;                  (* rse / event-ttl *)
  test_mode : bool;               (* rse / test *)
  mongo_uri : string;             (* mongodb / uri *)
  db_name : string;               (* mongodb / database *)
  use_ssl : bool;                 (* mongodb / use_ssl *)
  replica_set : string            (* mongodb / replica-set *)
}.

(** ** Connection handles *)

Inductive ReadPreference : Type := PRIMARY | SECONDARY.

Inductive Client : Type :=
  | MongoClient (uri : string) (read_preference : ReadPreference) (ssl : bool)
  | MongoReplicaSetClient (uri : string) (replicaSet : string)
      (read_preference : ReadPreference) (ssl : bool).

(** [connection[db_name]] *)
Record Database : Type := getitem {
  db_client : Client;
  db_label : string
}.

(** ** The store *)

Definition ASCENDING : Z := 1.

(** One entry of [index_information()]: the key pattern and, for a TTL
    index, the [expireAfterSeconds] option. *)
Record Index : Type := mkIndex {
  key : list (string * Z);
  expireAfterSeconds : option Z
}.

Record CounterDoc : Type := mkCounter {
  _id : string;
  c : Z
}.

Record Store : Type := mkStore {
  indexes : gmap string Index;     (* events collection, by index name *)
  counters : list CounterDoc       (* counters collection *)
}.

(** ** Schedule, trace and process state *)

Inductive event : Type :=
  | Pass                 (* the call reaches the server *)
  | Fault (ex : exn)     (* the driver raises [ex]; the server is not reached *)
  | Race.                (* another bootstrap seeds the counter first, then
                            the call reaches the server *)

Inductive op : Type :=
  | NewMongoClient (uri : string) (rp : ReadPreference) (ssl : bool)
  | NewMongoReplicaSetClient (uri rs : string) (rp : ReadPreference) (ssl : bool)
  | DropIndex (db : Database) (name : string)
  | EnsureIndex (db : Database) (name : string) (idx : Index)
  | IndexInformation (db : Database)
  | FindOne (db : Database) (id : string)
  | Insert (db : Database) (doc : CounterDoc).

Inductive level : Type := DEBUG | WARNING | ERROR.

Inductive log_arg : Type :=
  | NoArg
  | ExnArg (ex : exn)
  | StrArg (s : string)
  | DictArg (items : list (string * string)).

Inductive obs : Type :=
  | Call (o : op)                          (* a driver call is issued *)
  | Dropped (name : string)                (* the server removed an index *)
  | Created (name : string) (idx : Index)  (* the server built an index *)
  | Inserted (doc : CounterDoc)            (* the server stored a document *)
  | Log (lvl : level) (text : string) (arg : log_arg)
  | Sleep (secs : Q).

(** The local variables of [init_database] that outlive a [try] block. *)
Record Locals : Type := mkLocals {
  db_connections_ok : bool;
  connection_master : option Client;
  mongo_db_master : option Database;
  connection : option Client;
  mongo_db : option Database;
  db_events_collection_ok : bool
}.

Definition no_locals : Locals :=
  mkLocals false None None None None false.

Record state : Type := mkState {
  store : Store;
  sched : list event;
  trace : list obs;
  frame : Locals
}.

Definition with_store (s : Store) (st : state) : state :=
  mkState s (sched st) (trace st) (frame st).
Definition with_sched (l : list event) (st : state) : state :=
  mkState (store st) l (trace st) (frame st).
Definition with_frame (f : Locals) (st : state) : state :=
  mkState (store st) (sched st) (trace st) f.
Definition record (o : obs) (st : state) : state :=
  mkState (store st) (sched st) (trace st ++ [o]) (frame st).

(** ** The monad: state, Python exceptions, and [sys.exit] *)

Inductive outcome (A : Type) : Type :=
  | Ret (a : A)
  | Raise (ex : exn)
  | Exit (code : Z).
Arguments Ret {A} a.
Arguments Raise {A} ex.
Arguments Exit {A} code.

Definition M (A : Type) : Type := state -> outcome A * state.

Definition ret {A} (a : A) : M A := fun st => (Ret a, st).

Definition bind {A B} (m : M A) (k : A -> M B) : M B :=
  fun st =>
    match m st with
    | (Ret a, st') => k a st'
    | (Raise ex, st') => (Raise ex, st')
    | (Exit code, st') => (Exit code, st')
    end.

Notation "x <- m ;; k" := (bind m (fun x => k))
  (at level 20, m at level 99, k at level 200, right associativity).
Notation "m ;; k" := (bind m (fun _ => k))
  (at level 100, k at level 200, right associativity).

Definition raise {A} (ex : exn) : M A := fun st => (Raise ex, st).

(** [sys.exit(code)]: raises [SystemExit], which no [except Exception]
    clause catches. *)
Definition sys_exit {A} (code : Z) : M A := fun st => (Exit code, st).

(** [try: body  except Exception as ex: handler ex] *)
Definition try_except {A} (body : M A) (handler : exn -> M A) : M A :=
  fun st =>
    match body st with
    | (Raise ex, st') => handler ex st'
    | r => r
    end.

Definition emit (o : obs) : M unit := fun st => (Ret tt, record o st).

Definition logger_debug (arg : log_arg) : M unit := emit (Log DEBUG "" arg).
Definition logger_warning (text : string) : M unit := emit (Log WARNING text NoArg).
Definition logger_error (text : string) (arg : log_arg) : M unit :=
  emit (Log ERROR text arg).
Definition time_sleep (secs : Q) : M unit := emit (Sleep secs).

Definition assign (f : Locals -> Locals) : M unit :=
  fun st => (Ret tt, with_frame (f (frame st)) st).

(** Reading a local that was never bound raises [UnboundLocalError]. *)
Definition load {A} (name : string) (f : Locals -> option A) : M A :=
  fun st =>
    match f (frame st) with
    | Some a => (Ret a, st)
    | None => (Raise (UnboundLocalError name), st)
    end.

Definition read {A} (f : Locals -> A) : M A := fun st => (Ret (f (frame st)), st).

(** [for i in range(n): body], where the body says whether it ended in
    [break]. *)
Inductive ctl : Type := Next | Break.

Fixpoint for_range (n : nat) (body : M ctl) : M unit :=
  match n with
  | O => ret tt
  | S n' =>
      k <- body ;;
      match k with
      | Break => ret tt
      | Next => for_range n' body
      end
  end.

(** ** The driver *)

Definition last_known_id : string := "last_known_id".

Definition find_doc (id : string) (docs : list CounterDoc) : option CounterDoc :=
  List.find (fun d => String.eqb (_id d) id) docs.

(** What a concurrently starting server does to the counters collection:
    lines 229-231 run by the other process. *)
Definition concurrent_seed (s : Store) : Store :=
  match find_doc last_known_id (counters s) with
  | Some _ => s
  | None => mkStore (indexes s) (counters s ++ [mkCounter last_known_id 0])
  end.

(** Every driver call is recorded and consumes one schedule entry; an
    exhausted schedule lets every further call through. *)
Definition driver (o : op) : M unit :=
  fun st =>
    let st := record (Call o) st in
    match sched st with
    | [] => (Ret tt, st)
    | Pass :: rest => (Ret tt, with_sched rest st)
    | Fault ex :: rest => (Raise ex, with_sched rest st)
    | Race :: rest =>
        (Ret tt, with_sched rest (with_store (concurrent_seed (store st)) st))
    end.

Definition new_MongoClient (uri : string) (rp : ReadPreference) (ssl : bool)
  : M Client :=
  driver (NewMongoClient uri rp ssl) ;;
  ret (MongoClient uri rp ssl).

Definition new_MongoReplicaSetClient (uri rs : string) (rp : ReadPreference)
    (ssl : bool) : M Client :=
  driver (NewMongoReplicaSetClient uri rs rp ssl) ;;
  ret (MongoReplicaSetClient uri rs rp ssl).

(** [db.events.drop_index(name)]: the server answers "index not found"
    with an [OperationFailure] when there is no index of that name. *)
Definition drop_index (db : Database) (name : string) : M unit :=
  driver (DropIndex db name) ;;
  fun st =>
    match indexes (store st) !! name with
    | Some _ =>
        (Ret tt,
         record (Dropped name)
           (with_store (mkStore (delete name (indexes (store st)))
                                (counters (store st))) st))
    | None => (Raise (OperationFailure "index not found"), st)
    end.

(** [db.events.ensure_index(keys, name=name, **options)]: builds the index
    when the collection has none of that name; a request for a name that is
    taken leaves the existing index as it is, whatever its options (which is
    why the code drops a [ttl] index before asking for another expiry).
    pymongo remembers for a while which indexes it has ensured and may
    skip the request; here every request is sent, which changes nothing
    when the index is there. *)
Definition ensure_index (db : Database) (name : string) (idx : Index) : M unit :=
  driver (EnsureIndex db name idx) ;;
  fun st =>
    match indexes (store st) !! name with
    | Some _ => (Ret tt, st)
    | None =>
        (Ret tt,
         record (Created name idx)
           (with_store (mkStore (<[name := idx]> (indexes (store st)))
                                (counters (store st))) st))
    end.

Definition index_information (db : Database) : M (gmap string Index) :=
  driver (IndexInformation db) ;;
  fun st => (Ret (indexes (store st)), st).

(** [db.counters.find_one({'_id': id})] *)
Definition find_one (db : Database) (id : string) : M (option CounterDoc) :=
  driver (FindOne db id) ;;
  fun st => (Ret (find_doc id (counters (store st))), st).

(** [db.counters.insert(doc)]: [_id] is unique, a second document with the
    same [_id] is refused with [DuplicateKeyError]. *)
Definition insert (db : Database) (doc : CounterDoc) : M unit :=
  driver (Insert db doc) ;;
  fun st =>
    match find_doc (_id doc) (counters (store st)) with
    | Some _ => (Raise (DuplicateKeyError "duplicate key error"), st)
    | None =>
        (Ret tt,
         record (Inserted doc)
           (with_store (mkStore (indexes (store st))
                                (counters (store st) ++ [doc])) st))
    end.

(** ** [init_database] *)

Definition message (ex : exn) : string :=
  match ex with
  | AutoReconnect m | ConnectionFailure m | OperationFailure m
  | DuplicateKeyError m | ConfigurationError m | UnboundLocalError m
  | OtherException m => m
  end.

Definition set_db_connections_ok (b : bool) (f : Locals) : Locals :=
  mkLocals b (connection_master f) (mongo_db_master f) (connection f)
    (mongo_db f) (db_events_collection_ok f).
Definition set_connection_master (x : Client) (f : Locals) : Locals :=
  mkLocals (db_connections_ok f) (Some x) (mongo_db_master f) (connection f)
    (mongo_db f) (db_events_collection_ok f).
Definition set_mongo_db_master (x : Database) (f : Locals) : Locals :=
  mkLocals (db_connections_ok f) (connection_master f) (Some x) (connection f)
    (mongo_db f) (db_events_collection_ok f).
Definition set_connection (x : Client) (f : Locals) : Locals :=
  mkLocals (db_connections_ok f) (connection_master f) (mongo_db_master f)
    (Some x) (mongo_db f) (db_events_collection_ok f).
Definition set_mongo_db (x : Database) (f : Locals) : Locals :=
  mkLocals (db_connections_ok f) (connection_master f) (mongo_db_master f)
    (connection f) (Some x) (db_events_collection_ok f).
Definition set_db_events_collection_ok (b : bool) (f : Locals) : Locals :=
  mkLocals (db_connections_ok f) (connection_master f) (mongo_db_master f)
    (connection f) (mongo_db f) b.

(** Lines 161-171: the replica-set client, under its own [try]. *)
Definition connect_replica_set (config : Config) : M Client :=
  try_except
    (new_MongoReplicaSetClient (mongo_uri config) (replica_set config)
       SECONDARY (use_ssl config))
    (fun ex =>
       logger_error "Mongo connection exception: %s" (StrArg (message ex)) ;;
       sys_exit 1).

(** Lines 142-175: the body of the first [try]. *)
Definition connect_sequence (config : Config) : M unit :=
  cm <- new_MongoClient (mongo_uri config) PRIMARY (use_ssl config) ;;
  assign (set_connection_master cm) ;;
  assign (set_mongo_db_master (getitem cm (db_name config))) ;;
  cn <- (if String.eqb (replica_set config) "[none]"
         then new_MongoClient (mongo_uri config) SECONDARY (use_ssl config)
         else connect_replica_set config) ;;
  assign (set_connection cn) ;;
  assign (set_mongo_db (getitem cn (db_name config))) ;;
  assign (set_mongo_db_master (getitem cm (db_name config))) ;;
  assign (set_db_connections_ok true).

(** Lines 141-185: one iteration of the first loop.  There is no [break]. *)
Definition connect_attempt (config : Config) : M ctl :=
  try_except
    (connect_sequence config ;; ret Next)
    (fun ex =>
       if isinstance_AutoReconnect ex then
         logger_warning
           "Got AutoReconnect on startup while attempting to connect to DB. Retrying..." ;;
         time_sleep (1 # 2) ;;
         ret Next
       else
         logger_error "Error on startup while attempting to connect to DB: "
           (ExnArg ex) ;;
         sys_exit 1).

(** Lines 197-201 and 203-207: [try: drop_index(name)  except
    OperationFailure: pass]. *)
Definition drop_deprecated_index (db : Database) (name : string) : M unit :=
  try_except (drop_index db name)
    (fun ex => if isinstance_OperationFailure ex then ret tt else raise ex).

Definition get_events_index : Index :=
  mkIndex [("channel", ASCENDING); ("_id", ASCENDING); ("uuid", ASCENDING)] None.

Definition ttl_index (ttl : Z) : Index :=
  mkIndex [("created_at", ASCENDING)] (Some ttl).

(** Line 220: [('expireAfterSeconds' not in index) or
    index['expireAfterSeconds'] != event_ttl] *)
Definition ttl_mismatch (index : Index) (ttl : Z) : bool :=
  match expireAfterSeconds index with
  | None => true
  | Some secs => negb (Z.eqb secs ttl)
  end.

(** Lines 215-224 *)
Definition reconcile_ttl (db : Database) (ttl : Z) : M unit :=
  index_info <- index_information db ;;
  match index_info !! "ttl" with
  | Some index =>
      if ttl_mismatch index ttl then drop_index db "ttl" else ret tt
  | None => ret tt
  end ;;
  ensure_index db "ttl" (ttl_index ttl).

(** Lines 229-231 *)
Definition seed_counter (db : Database) : M unit :=
  found <- find_one db last_known_id ;;
  match found with
  | None => insert db (mkCounter last_known_id 0)
  | Some _ => ret tt
  end.

(** Lines 195-224: the index part of the second [try]. *)
Definition converge_indexes (db : Database) (ttl : Z) : M unit :=
  drop_deprecated_index db "uuid_1_channel_1" ;;
  drop_deprecated_index db "created_at_1" ;;
  ensure_index db "get_events" get_events_index ;;
  reconcile_ttl db ttl.

(** Lines 195-234: the body of the second [try], which ends in [break]. *)
Definition converge_sequence (db : Database) (ttl : Z) : M ctl :=
  converge_indexes db ttl ;;
  seed_counter db ;;
  assign (set_db_events_collection_ok true) ;;
  ret Break.

(** Lines 194-244: one iteration of the second loop. *)
Definition converge_attempt (db : Database) (ttl : Z) : M ctl :=
  try_except
    (converge_sequence db ttl)
    (fun ex =>
       if isinstance_AutoReconnect ex then
         logger_warning
           "Got AutoReconnect on startup while attempting to set up events collection. Retrying..." ;;
         time_sleep (1 # 2) ;;
         ret Next
       else
         logger_error
           "Error on startup while attempting to initialize events collection: "
           (ExnArg ex) ;;
         sys_exit 1).

(** Lines 139-189 *)
Definition connect_phase (config : Config) : M unit :=
  assign (set_db_connections_ok false) ;;
  for_range 10 (connect_attempt config) ;;
  ok <- read db_connections_ok ;;
  if negb ok then
    logger_error "Could not set up db connections" NoArg ;;
    sys_exit 1
  else ret tt.

(** Lines 192-248.  [mongo_db_master] is not assigned in this phase, so
    it is read once. *)
Definition converge_phase (db : Database) (ttl : Z) : M unit :=
  assign (set_db_events_collection_ok false) ;;
  for_range 10 (converge_attempt db ttl) ;;
  ok <- read db_events_collection_ok ;;
  if negb ok then
    logger_error "Could not setup events connections" NoArg ;;
    sys_exit 1
  else ret tt.

Definition init_database (config : Config) : M (Database * Database) :=
  let ttl := event_ttl config in
  connect_phase config ;;
  master <- load "mongo_db_master" mongo_db_master ;;
  converge_phase master ttl ;;
  db <- load "mongo_db" mongo_db ;;
  master <- load "mongo_db_master" mongo_db_master ;;
  ret (db, master).

(** ** [RseApplication.__init__], from the auth cache on *)

(** Modelled from the spec: the [auth_cache] module is not part of the
    sources.  A provider is one of two variants, and building it has no
    effect this start-up code observes (section 4.1: no side effect beyond
    constructing the handle; health is verified at first use). *)
Inductive AuthCache : Type :=
  | MemcachedAuthCache (config : Config)
  | CassandraAuthCache (config : Config).

Inductive Controller : Type := HealthController | MainController.

Record Options : Type := mkOptions {
  shared : AuthCache;             (* Shared(logger, authtoken_cache) *)
  opt_mongo_db : Database;
  opt_test_mode : bool
}.

Record Route : Type := add_route {
  pattern : string;
  controller : Controller;
  options : Options
}.

(** Lines 97-131 *)
Definition RseApplication_init (config : Config) : M (list Route) :=
  logger_debug (DictArg [("token prefix", authtoken_prefix config);
                         ("cache provider", provider config)]) ;;
  authtoken_cache <-
    (if String.eqb (provider config) "memcached" then
       ret (MemcachedAuthCache config)
     else if String.eqb (provider config) "cassandra" then
       ret (CassandraAuthCache config)
     else
       logger_error "No auth_cache provider for: %s" (StrArg (provider config)) ;;
       sys_exit 1) ;;
  dbs <- init_database config ;;
  let mongo_db := fst dbs in
  let mongo_db_master := snd dbs in
  let test_mode := test_mode config in
  ret [add_route "/health$" HealthController
         (mkOptions authtoken_cache mongo_db_master test_mode);
       add_route "/.+" MainController
         (mkOptions authtoken_cache mongo_db test_mode)].

(** A process about to start against store [s] under schedule [sch]. *)
Definition boot (s : Store) (sch : list event) : state :=
  mkState s sch [] no_locals.

Definition empty_store : Store := mkStore ∅ [].

Definition sample_config : Config :=
  mkConfig "" "memcached" 120 false "mongodb://localhost" "rse" false "[none]".

Definition sample_master : Database :=
  getitem (MongoClient "mongodb://localhost" PRIMARY false) "rse".

(** A store left behind by an older deployment: both deprecated indexes,
    and a [ttl] index that expires events after 120 seconds. *)
Definition legacy_store : Store :=
  mkStore
    (<["ttl" := ttl_index 120]>
       (<["created_at_1" := mkIndex [("created_at", ASCENDING)] None]>
          (<["uuid_1_channel_1" :=
               mkIndex [("uuid", ASCENDING); ("channel", ASCENDING)] None]> ∅)))
    [].

(** A store whose [ttl] index was built without an expiry. *)
Definition plain_ttl_store : Store :=
  mkStore (<["ttl" := mkIndex [("created_at", ASCENDING)] None]> ∅) [].

(** A first start against an empty store in which another server seeds
    the counter between this server's lookup and its insert. *)
Definition race_start : state :=
  boot empty_store (repeat Pass 6 ++ [Race]).

(** A convergence attempt on the legacy store whose second removal meets
    a failure that is neither an operation failure nor an auto-reconnect. *)
Definition removal_start : state :=
  boot legacy_store [Pass; Fault (OtherException "socket closed")].

Definition rs_config : Config :=
  mkConfig "" "cassandra" 60 false "mongodb://db1,db2" "rse" true "rs0".

(** ** Reading a trace *)

Definition is_call (o : obs) : bool :=
  match o with Call _ => true | _ => false end.

Definition is_sleep (o : obs) : bool :=
  match o with Sleep _ => true | _ => false end.

(** Requests for the primary-consistent client, one per connect attempt. *)
Definition is_primary_connect (o : obs) : bool :=
  match o with
  | Call (NewMongoClient _ PRIMARY _) => true
  | _ => false
  end.

(** Requests that open [converge_sequence], one per convergence attempt. *)
Definition is_converge_start (o : obs) : bool :=
  match o with
  | Call (DropIndex _ name) => String.eqb name "uuid_1_channel_1"
  | _ => false
  end.

Definition is_index_mutation (o : obs) : bool :=
  match o with
  | Dropped _ | Created _ _ => true
  | _ => false
  end.

Definition about_ttl (o : obs) : bool :=
  match o with
  | Dropped name | Created name _ => String.eqb name "ttl"
  | _ => false
  end.

Definition count (p : obs -> bool) (tr : list obs) : nat :=
  length (List.filter p tr).

Definition index_mutations (tr : list obs) : list obs :=
  List.filter is_index_mutation tr.

Definition ttl_mutations (tr : list obs) : list obs :=
  List.filter about_ttl tr.

(** ** Specification vocabulary *)

(** What the convergence claims observe of a state: the index table, the
    index mutations performed so far, and the success flag of the loop. *)
Definition view_pred : Type := gmap string Index -> list obs -> bool -> Prop.

Definition on_view (R : view_pred) (st : state) : Prop :=
  R (indexes (store st)) (index_mutations (trace st))
    (db_events_collection_ok (frame st)).

(** [vhoare R m Q E]: from a state whose view satisfies [R], [m] either
    returns [a] in a state whose view satisfies [Q a], or ends in an
    exception or an exit in a state whose view satisfies [E]. *)
Definition vhoare {A} (R : view_pred) (m : M A)
    (Q : A -> view_pred) (E : view_pred) : Prop :=
  forall st, on_view R st ->
    match m st with
    | (Ret a, st') => on_view (Q a) st'
    | (_, st') => on_view E st'
    end.

Definition deprecated_indexes : list string :=
  ["uuid_1_channel_1"; "created_at_1"].

(** The index mutations the convergence sequence can ask the server for,
    each with the condition under which the code asks and the server
    complies. *)
Inductive mutation (ttl : Z)
  : gmap string Index -> obs -> gmap string Index -> Prop :=
  | mut_drop_deprecated ix name index :
      In name deprecated_indexes ->
      ix !! name = Some index ->
      mutation ttl ix (Dropped name) (delete name ix)
  | mut_create_get_events ix :
      ix !! "get_events" = None ->
      mutation ttl ix (Created "get_events" get_events_index)
        (<["get_events" := get_events_index]> ix)
  | mut_drop_ttl ix index :
      ix !! "ttl" = Some index ->
      ttl_mismatch index ttl = true ->
      mutation ttl ix (Dropped "ttl") (delete "ttl" ix)
  | mut_create_ttl ix :
      ix !! "ttl" = None ->
      mutation ttl ix (Created "ttl" (ttl_index ttl))
        (<["ttl" := ttl_index ttl]> ix).

Inductive mutations (ttl : Z)
  : gmap string Index -> list obs -> gmap string Index -> Prop :=
  | mutations_nil ix : mutations ttl ix [] ix
  | mutations_snoc ix ms ix1 m ix2 :
      mutations ttl ix ms ix1 ->
      mutation ttl ix1 m ix2 ->
      mutations ttl ix (ms ++ [m]) ix2.

(** The views reachable from index table [ix0] with mutation log [ms0]. *)
Definition reach (ttl : Z) (ix0 : gmap string Index) (ms0 : list obs)
  : gmap string Index -> list obs -> Prop :=
  fun ix ms => exists done, mutations ttl ix0 done ix /\ ms = ms0 ++ done.

(** The three stages of replacing a mismatched [ttl] index. *)
Definition ttl_stage (ttl : Z) (index : Index) (ix : gmap string Index)
    (log : list obs) : Prop :=
  (ix !! "ttl" = Some index /\ log = []) \/
  (ix !! "ttl" = None /\ log = [Dropped "ttl"]) \/
  (ix !! "ttl" = Some (ttl_index ttl) /\
   log = [Dropped "ttl"; Created "ttl" (ttl_index ttl)]).

(** What a completed convergence sequence has made sure of. *)
Definition settled (ttl : Z) (ix : gmap string Index) : Prop :=
  is_Some (ix !! "get_events") /\
  exists index, ix !! "ttl" = Some index /\ ttl_mismatch index ttl = false.

(** The index table the convergence sequence aims at. *)
Definition converged (ttl : Z) (ix : gmap string Index) : Prop :=
  ix !! "uuid_1_channel_1" = None /\
  ix !! "created_at_1" = None /\
  is_Some (ix !! "get_events") /\
  exists index, ix !! "ttl" = Some index /\ expireAfterSeconds index = Some ttl.


(** Where a connect attempt can fail: at the primary client (the first
    driver call of the attempt) or at the general client (the second). *)
Inductive connect_step : Type := PrimaryClient | GeneralClient.

(** [connect_failure ex rest step sch]: under schedule [sch] the attempt
    fails at [step] with [ex], leaving [rest]. *)
Inductive connect_failure (ex : exn) (rest : list event)
  : connect_step -> list event -> Prop :=
  | fails_at_primary :
      connect_failure ex rest PrimaryClient (Fault ex :: rest)
  | fails_at_general ev :
      (forall ex', ev <> Fault ex') ->
      connect_failure ex rest GeneralClient (ev :: Fault ex :: rest).

(** The failures the first loop answers with a sleep and another attempt. *)
Definition retried (config : Config) (step : connect_step) (ex : exn) : bool :=
  isinstance_AutoReconnect ex &&
  match step with
  | PrimaryClient => true
  | GeneralClient => String.eqb (replica_set config) "[none]"
  end.

Definition connect_warning : obs :=
  Log WARNING
    "Got AutoReconnect on startup while attempting to connect to DB. Retrying..."
    NoArg.

(** [n] connect attempts in a row meet a failure that is retried. *)
Inductive never_reachable (config : Config) : nat -> list event -> Prop :=
  | never_reachable_O sch : never_reachable config 0 sch
  | never_reachable_S n sch step ex rest :
      connect_failure ex rest step sch ->
      retried config step ex = true ->
      never_reachable config n rest ->
      never_reachable config (S n) sch.

(** What seeding does to the counters collection when nothing interferes. *)
Definition seed_docs (docs : list CounterDoc) : list CounterDoc :=
  match find_doc last_known_id docs with
  | Some _ => docs
  | None => docs ++ [mkCounter last_known_id 0]
  end.

(** The convergence sequence as a function on stores: what an attempt
    that nothing disturbs leaves behind. *)
Definition store_drop (name : string) (s : Store) : Store :=
  mkStore (delete name (indexes s)) (counters s).

Definition store_ensure (name : string) (idx : Index) (s : Store) : Store :=
  match indexes s !! name with
  | Some _ => s
  | None => mkStore (<[name := idx]> (indexes s)) (counters s)
  end.

Definition store_reconcile (ttl : Z) (s : Store) : Store :=
  store_ensure "ttl" (ttl_index ttl)
    match indexes s !! "ttl" with
    | Some index => if ttl_mismatch index ttl then store_drop "ttl" s else s
    | None => s
    end.

Definition store_seed (s : Store) : Store :=
  mkStore (indexes s) (seed_docs (counters s)).

Definition converge_store (ttl : Z) (s : Store) : Store :=
  store_seed
    (store_reconcile ttl
       (store_ensure "get_events" get_events_index
          (store_drop "created_at_1" (store_drop "uuid_1_channel_1" s)))).

(** [m] returns normally whenever no failure and no concurrent bootstrap is
    scheduled, and takes the store from [s] to [step s]. *)
Definition quiet_total {A} (m : M A) (step : Store -> Store) : Prop :=
  forall st, sched st = [] ->
    exists a st',
      m st = (Ret a, st') /\ sched st' = [] /\ store st' = step (store st).

(** [m] keeps [I] whatever the schedule and however it ends. *)
Definition preserves {A} (I : state -> Prop) (m : M A) : Prop :=
  forall st, I st -> I (snd (m st)).

(** The counter document is there, and the collection is [docs]. *)
Definition seeded (docs : list CounterDoc) (st : state) : Prop :=
  counters (store st) = docs /\ find_doc last_known_id docs <> None.

(** Inside an attempt: reachable, and the success flag not yet set. *)
Definition trying (ttl : Z) (ix0 : gmap string Index) (ms0 : list obs)
  : view_pred :=
  fun ix ms ok => reach ttl ix0 ms0 ix ms /\ ok = false.

(** After a completed sequence: reachable, settled, and the flag set. *)
Definition finished (ttl : Z) (ix0 : gmap string Index) (ms0 : list obs)
  : view_pred :=
  fun ix ms ok => reach ttl ix0 ms0 ix ms /\ settled ttl ix /\ ok = true.

Definition converge_warning : obs :=
  Log WARNING
    "Got AutoReconnect on startup while attempting to set up events collection. Retrying..."
    NoArg.

Definition converge_error (ex : exn) : obs :=
  Log ERROR "Error on startup while attempting to initialize events collection: "
    (ExnArg ex).

(** [removal_reached db name st0 st]: in an attempt started in [st0], the
    removal of the deprecated index [name] starts in [st]. *)
Definition removal_reached (db : Database) (name : string) (st0 st : state) : Prop :=
  (name = "uuid_1_channel_1" /\ st = st0) \/
  (name = "created_at_1" /\
   drop_deprecated_index db "uuid_1_channel_1" st0 = (Ret tt, st)).

Definition count_counter (docs : list CounterDoc) : nat :=
  length (List.filter (fun d => String.eqb (_id d) last_known_id) docs).

(** ** Vocabulary for the whole start-up *)

(** [triple P m Q X F]: from a state satisfying [P], [m] returns [a] in a
    state satisfying [Q a], or raises [ex] in a state satisfying [X ex],
    or exits with [code] in a state satisfying [F code]. *)
Definition triple {A} (P : state -> Prop) (m : M A)
    (Q : A -> state -> Prop) (X : exn -> state -> Prop)
    (F : Z -> state -> Prop) : Prop :=
  forall st, P st ->
    match m st with
    | (Ret a, st') => Q a st'
    | (Raise ex, st') => X ex st'
    | (Exit code, st') => F code st'
    end.

(** A predicate that survives what the environment of a driver call does:
    the call is recorded, the schedule moves on, and a concurrent
    bootstrap may seed the counter. *)
Definition stable (P : state -> Prop) : Prop :=
  forall st o l,
    P st ->
    P (with_sched l (record (Call o) st)) /\
    P (with_sched l
         (with_store (concurrent_seed (store st)) (record (Call o) st))).

(** The handle [init_database] builds for the health checker. *)
Definition primary_handle (config : Config) : Database :=
  getitem (MongoClient (mongo_uri config) PRIMARY (use_ssl config))
    (db_name config).

(** The handle [init_database] builds for regular requests. *)
Definition general_handle (config : Config) : Database :=
  getitem
    (if String.eqb (replica_set config) "[none]"
     then MongoClient (mongo_uri config) SECONDARY (use_ssl config)
     else MongoReplicaSetClient (mongo_uri config) (replica_set config)
            SECONDARY (use_ssl config))
    (db_name config).

Definition handles_bound (config : Config) (fr : Locals) : Prop :=
  mongo_db fr = Some (general_handle config) /\
  mongo_db_master fr = Some (primary_handle config).

(** Once the first loop has set its flag, both handles are bound. *)
Definition connected (config : Config) (st : state) : Prop :=
  db_connections_ok (frame st) = true -> handles_bound config (frame st).

(** The last thing the process did was to log an error. *)
Definition last_error (st : state) : Prop :=
  exists tr text arg, trace st = tr ++ [Log ERROR text arg].

(** How the process ends when it gives up: status 1, right after an error
    record. *)
Definition exit_1_after_error (code : Z) (st : state) : Prop :=
  code = 1 /\ last_error st.

Definition has_counter (docs : list CounterDoc) : Prop :=
  find_doc last_known_id docs <> None.

(** [grown docs0 docs]: the collection [docs] is [docs0] as it was, or
    [docs0] plus the seed document, added because [docs0] had no counter. *)
Definition grown (docs0 docs : list CounterDoc) : Prop :=
  docs = docs0 \/
  (find_doc last_known_id docs0 = None /\
   docs = docs0 ++ [mkCounter last_known_id 0]).

(** Assertions on the counters collection and the local variables. *)
Definition on_docs (R : list CounterDoc -> Locals -> Prop) (st : state) : Prop :=
  R (counters (store st)) (frame st).

(** Such an assertion survives the seeding of a collection that has no
    counter, by this process or by another. *)
Definition seed_closed (R : list CounterDoc -> Locals -> Prop) : Prop :=
  forall docs fr,
    R docs fr ->
    find_doc last_known_id docs = None ->
    R (docs ++ [mkCounter last_known_id 0]) fr.

(** The collection has only grown by the seed. *)
Definition docs_grown (docs0 : list CounterDoc) : state -> Prop :=
  on_docs (fun docs _ => grown docs0 docs /\ True).

(** Inside a convergence attempt: grown, and the flag not set yet. *)
Definition docs_trying (docs0 : list CounterDoc) : state -> Prop :=
  on_docs (fun docs fr => grown docs0 docs /\ db_events_collection_ok fr = false).

(** After seeding: grown, and the counter document is there. *)
Definition docs_seeded (docs0 : list CounterDoc) (flag : bool) : state -> Prop :=
  on_docs (fun docs fr =>
             (grown docs0 docs /\ has_counter docs) /\
             db_events_collection_ok fr = flag).

(** The index table and mutation log are reachable from [ix0] and [ms0]. *)
Definition index_reach (ttl : Z) (ix0 : gmap string Index) (ms0 : list obs)
  : state -> Prop :=
  fun st => reach ttl ix0 ms0 (indexes (store st)) (index_mutations (trace st)).

(** What the index table looks like once a mutation is in the log [ms]:
    the mutation is not enabled again. *)
Definition once_inv (ttl : Z) (ms : list obs) (ix : gmap string Index) : Prop :=
  (forall name,
     In name deprecated_indexes -> In (Dropped name) ms -> ix !! name = None) /\
  (In (Created "get_events" get_events_index) ms ->
   is_Some (ix !! "get_events")) /\
  (In (Dropped "ttl") ms ->
   ix !! "ttl" = None \/ ix !! "ttl" = Some (ttl_index ttl)) /\
  (In (Created "ttl" (ttl_index ttl)) ms ->
   ix !! "ttl" = Some (ttl_index ttl)).

(** The five index mutations there are. *)
Definition all_mutations (ttl : Z) : list obs :=
  [Dropped "uuid_1_channel_1"; Dropped "created_at_1"; Dropped "ttl";
   Created "get_events" get_events_index; Created "ttl" (ttl_index ttl)].

Definition is_warning (o : obs) : bool :=
  match o with Log WARNING _ _ => true | _ => false end.

(** [warned prev l]: every sleep in [l] comes right after a warning;
    [prev] says whether a warning comes right before [l]. *)
Fixpoint warned (prev : bool) (l : list obs) : bool :=
  match l with
  | [] => true
  | o :: l' => (if is_sleep o then prev else true) && warned (is_warning o) l'
  end.

(** [announces m]: [m] only appends to the trace, and never sleeps without
    having just logged a warning. *)
Definition announces {A} (m : M A) : Prop :=
  forall st,
    exists more,
      trace (snd (m st)) = trace st ++ more /\ warned false more = true.

(** The index mutations start-up may perform. *)
Definition managed_mutation (ttl : Z) (o : obs) : Prop :=
  o = Dropped "uuid_1_channel_1" \/ o = Dropped "created_at_1" \/
  o = Dropped "ttl" \/
  o = Created "get_events" get_events_index \/
  o = Created "ttl" (ttl_index ttl).

(** [emits calls sleeps m]: whatever the state and however it ends, [m]
    only appends to the trace, at most [calls] driver calls and [sleeps]
    sleeps, and every sleep lasts 0.5. *)
Definition emits {A} (calls sleeps : nat) (m : M A) : Prop :=
  forall st,
    exists more,
      trace (snd (m st)) = trace st ++ more /\
      (count is_call more <= calls)%nat /\
      (count is_sleep more <= sleeps)%nat /\
      Forall (fun o => is_sleep o = true -> o = Sleep (1 # 2)) more.

(** The index names the convergence sequence is concerned with. *)
Definition managed_indexes : list string :=
  ["uuid_1_channel_1"; "created_at_1"; "get_events"; "ttl"].

(** One transient failure per schedule entry. *)
Definition transient_faults (msgs : list string) : list event :=
  map (fun msg => Fault (AutoReconnect msg)) msgs.

Definition converge_exhausted : obs :=
  Log ERROR "Could not setup events connections" NoArg.

(** What one convergence attempt leaves in the trace when its first
    request meets a transient failure. *)
Definition failed_attempt (db : Database) : list obs :=
  [Call (DropIndex db "uuid_1_channel_1"); converge_warning; Sleep (1 # 2)].

(** The legacy store, unreachable for ten requests in a row. *)
Definition unreachable_start : state :=
  boot legacy_store (transient_faults (repeat "no primary" 10) ++ [Pass]).





(** * The two functions with their configuration reads *)

(** ** The configuration object *)

(** [ConfigParser] is a library class and the configuration files lie
    outside the program: the three accessors the start-up code calls are
    taken as given.  A call returns a value or raises ([NoSectionError],
    [NoOptionError], [ValueError], an interpolation error). *)
Record ConfigParser : Type := mkConfigParser {
  get : string -> string -> exn + string;
  getint : string -> string -> exn + Z;
  getboolean : string -> string -> exn + bool
}.

(** The call of an accessor. *)
Definition config_call {A} (result : exn + A) : M A :=
  match result with
  | inl ex => raise ex
  | inr a => ret a
  end.

Module Full.

(** Lines 142-175: the body of the first [try], with the read of line 153
    where the source has it. *)
Definition connect_sequence (config : ConfigParser) (mongo_uri db_name : string)
    (use_ssl : bool) : M unit :=
  cm <- new_MongoClient mongo_uri PRIMARY use_ssl ;;
  assign (set_connection_master cm) ;;
  assign (set_mongo_db_master (getitem cm db_name)) ;;
  replica_set <- config_call (get config "mongodb" "replica-set") ;;
  cn <- (if String.eqb replica_set "[none]"
         then new_MongoClient mongo_uri SECONDARY use_ssl
         else
           try_except
             (new_MongoReplicaSetClient mongo_uri replica_set SECONDARY use_ssl)
             (fun ex =>
                logger_error "Mongo connection exception: %s" (StrArg (message ex)) ;;
                sys_exit 1)) ;;
  assign (set_connection cn) ;;
  assign (set_mongo_db (getitem cn db_name)) ;;
  assign (set_mongo_db_master (getitem cm db_name)) ;;
  assign (set_db_connections_ok true).

(** Lines 141-185 *)
Definition connect_attempt (config : ConfigParser) (mongo_uri db_name : string)
    (use_ssl : bool) : M ctl :=
  try_except
    (connect_sequence config mongo_uri db_name use_ssl ;; ret Next)
    (fun ex =>
       if isinstance_AutoReconnect ex then
         logger_warning
           "Got AutoReconnect on startup while attempting to connect to DB. Retrying..." ;;
         time_sleep (1 # 2) ;;
         ret Next
       else
         logger_error "Error on startup while attempting to connect to DB: "
           (ExnArg ex) ;;
         sys_exit 1).

(** Lines 139-189 *)
Definition connect_phase (config : ConfigParser) (mongo_uri db_name : string)
    (use_ssl : bool) : M unit :=
  assign (set_db_connections_ok false) ;;
  for_range 10 (connect_attempt config mongo_uri db_name use_ssl) ;;
  ok <- read db_connections_ok ;;
  if negb ok then
    logger_error "Could not set up db connections" NoArg ;;
    sys_exit 1
  else ret tt.

(** Lines 133-250.  The four reads of lines 134-137 stand outside every
    [try]. *)
Definition init_database (config : ConfigParser) : M (Database * Database) :=
  event_ttl <- config_call (getint config "rse" "event-ttl") ;;
  mongo_uri <- config_call (get config "mongodb" "uri") ;;
  db_name <- config_call (get config "mongodb" "database") ;;
  use_ssl <- config_call (getboolean config "mongodb" "use_ssl") ;;
  connect_phase config mongo_uri db_name use_ssl ;;
  master <- load "mongo_db_master" mongo_db_master ;;
  converge_phase master event_ttl ;;
  db <- load "mongo_db" mongo_db ;;
  master <- load "mongo_db_master" mongo_db_master ;;
  ret (db, master).

(** Modelled from the spec: the [auth_cache] module is not part of the
    sources.  A provider is one of two variants (section 4.1), built from
    the configuration object; whether its constructor returns or raises is
    left to the environment. *)
Inductive AuthCache : Type :=
  | MemcachedAuthCache (config : ConfigParser)
  | CassandraAuthCache (config : ConfigParser).

(** [constructor_raises cache]: what building [cache] raises, if anything. *)
Definition construct (constructor_raises : AuthCache -> option exn)
    (cache : AuthCache) : M AuthCache :=
  match constructor_raises cache with
  | Some ex => raise ex
  | None => ret cache
  end.

Record Options : Type := mkOptions {
  shared : AuthCache;             (* Shared(logger, authtoken_cache) *)
  opt_mongo_db : Database;
  opt_test_mode : bool
}.

Record Route : Type := add_route {
  pattern : string;
  controller : Controller;
  options : Options
}.

(** Lines 97-131 *)
Definition RseApplication_init (config : ConfigParser)
    (constructor_raises : AuthCache -> option exn) : M (list Route) :=
  authtoken_prefix <- config_call (get config "authcache" "authtoken-prefix") ;;
  provider <- config_call (get config "authcache" "provider") ;;
  logger_debug (DictArg [("token prefix", authtoken_prefix);
                         ("cache provider", provider)]) ;;
  authtoken_cache <-
    (if String.eqb provider "memcached" then
       construct constructor_raises (MemcachedAuthCache config)
     else if String.eqb provider "cassandra" then
       construct constructor_raises (CassandraAuthCache config)
     else
       logger_error "No auth_cache provider for: %s" (StrArg provider) ;;
       sys_exit 1) ;;
  dbs <- init_database config ;;
  let mongo_db := fst dbs in
  let mongo_db_master := snd dbs in
  test_mode <- config_call (getboolean config "rse" "test") ;;
  ret [add_route "/health$" HealthController
         (mkOptions authtoken_cache mongo_db_master test_mode);
       add_route "/.+" MainController
         (mkOptions authtoken_cache mongo_db test_mode)].

(** The cache [__init__] builds for a provider name. *)
Definition auth_cache_of (config : ConfigParser) (provider : string) :
    option AuthCache :=
  if String.eqb provider "memcached" then Some (MemcachedAuthCache config)
  else if String.eqb provider "cassandra" then Some (CassandraAuthCache config)
  else None.

(** The route table [__init__] binds. *)
Definition expected_routes (cache : AuthCache) (db master : Database)
    (test_mode : bool) : list Route :=
  [add_route "/health$" HealthController (mkOptions cache master test_mode);
   add_route "/.+" MainController (mkOptions cache db test_mode)].

End Full.

(** The settings [init_database] reads are those of [cfg]. *)
Definition database_settings (config : ConfigParser) (cfg : Config) : Prop :=
  getint config "rse" "event-ttl" = inr (event_ttl cfg) /\
  get config "mongodb" "uri" = inr (mongo_uri cfg) /\
  get config "mongodb" "database" = inr (db_name cfg) /\
  getboolean config "mongodb" "use_ssl" = inr (use_ssl cfg) /\
  get config "mongodb" "replica-set" = inr (replica_set cfg).

(** All the settings [__init__] reads from line 97 on are those of [cfg]. *)
Definition application_settings (config : ConfigParser) (cfg : Config) : Prop :=
  get config "authcache" "authtoken-prefix" = inr (authtoken_prefix cfg) /\
  get config "authcache" "provider" = inr (provider cfg) /\
  getboolean config "rse" "test" = inr (test_mode cfg) /\
  database_settings config cfg.

(** One of the four reads of lines 134-137 raises [ex]. *)
Definition settings_error (config : ConfigParser) (ex : exn) : Prop :=
  getint config "rse" "event-ttl" = inl ex \/
  get config "mongodb" "uri" = inl ex \/
  get config "mongodb" "database" = inl ex \/
  getboolean config "mongodb" "use_ssl" = inl ex.

(** What [__init__] can let escape from line 97 on: what a configuration
    read outside every [try] raises, or what the constructor of the
    selected auth cache raises. *)
Definition start_up_error (config : ConfigParser)
    (constructor_raises : Full.AuthCache -> option exn) (ex : exn) : Prop :=
  get config "authcache" "authtoken-prefix" = inl ex \/
  get config "authcache" "provider" = inl ex \/
  (exists provider cache,
     get config "authcache" "provider" = inr provider /\
     Full.auth_cache_of config provider = Some cache /\
     constructor_raises cache = Some ex) \/
  settings_error config ex \/
  getboolean config "rse" "test" = inl ex.

(** A configuration object that answers with the settings of [cfg]. *)
Definition parser_of (cfg : Config) : ConfigParser :=
  mkConfigParser
    (fun section option =>
       if String.eqb section "authcache" then
         if String.eqb option "authtoken-prefix" then inr (authtoken_prefix cfg)
         else if String.eqb option "provider" then inr (provider cfg)
         else inl (OtherException "NoOptionError")
       else if String.eqb section "mongodb" then
         if String.eqb option "uri" then inr (mongo_uri cfg)
         else if String.eqb option "database" then inr (db_name cfg)
         else if String.eqb option "replica-set" then inr (replica_set cfg)
         else inl (OtherException "NoOptionError")
       else inl (OtherException "NoSectionError"))
    (fun section option =>
       if String.eqb section "rse" then
         if String.eqb option "event-ttl" then inr (event_ttl cfg)
         else inl (OtherException "NoOptionError")
       else inl (OtherException "NoSectionError"))
    (fun section option =>
       if String.eqb section "rse" then
         if String.eqb option "test" then inr (test_mode cfg)
         else inl (OtherException "NoOptionError")
       else if String.eqb section "mongodb" then
         if String.eqb option "use_ssl" then inr (use_ssl cfg)
         else inl (OtherException "NoOptionError")
       else inl (OtherException "NoSectionError")).

(** * Properties *)

(** ** The monad and the driver *)

(** Closes goals that compare two traces built by successive [record]s. *)
Ltac trace_eq := simpl; rewrite <- ?app_assoc; reflexivity.

Lemma bind_ret_l {A B} (a : A) (k : A -> M B) st : (x <- ret a ;; k x) st = k a st.
Proof. reflexivity. Qed.

Lemma driver_nil o st :
  sched st = [] -> driver o st = (Ret tt, record (Call o) st).
Proof. destruct st; simpl; intros ->; reflexivity. Qed.

Lemma driver_pass o st rest :
  sched st = Pass :: rest ->
  driver o st = (Ret tt, with_sched rest (record (Call o) st)).
Proof. destruct st; simpl; intros ->; reflexivity. Qed.

Lemma driver_fault o st ex rest :
  sched st = Fault ex :: rest ->
  driver o st = (Raise ex, with_sched rest (record (Call o) st)).
Proof. destruct st; simpl; intros ->; reflexivity. Qed.

Lemma driver_race o st rest :
  sched st = Race :: rest ->
  driver o st =
    (Ret tt, with_sched rest
               (with_store (concurrent_seed (store st)) (record (Call o) st))).
Proof. destruct st; simpl; intros ->; reflexivity. Qed.

(** A call that is not failed returns, with the trace extended by the call
    and the index table as it was. *)
Lemma driver_through o st ev rest :
  sched st = ev :: rest ->
  (forall ex, ev <> Fault ex) ->
  exists st',
    driver o st = (Ret tt, st') /\ sched st' = rest /\
    trace st' = trace st ++ [Call o] /\ frame st' = frame st /\
    indexes (store st') = indexes (store st).
Proof.
  intros Hs Hev. destruct ev as [|ex|].
  - rewrite (driver_pass _ _ _ Hs). eexists; repeat split.
  - destruct (Hev ex eq_refl).
  - rewrite (driver_race _ _ _ Hs). eexists; repeat split.
    simpl. unfold concurrent_seed. destruct (find_doc _ _); reflexivity.
Qed.

Lemma count_app p (l1 l2 : list obs) :
  count p (l1 ++ l2) = (count p l1 + count p l2)%nat.
Proof. unfold count. rewrite List.filter_app, length_app. reflexivity. Qed.

Lemma count_sleep_calls (calls : list op) :
  count is_sleep (map Call calls) = 0%nat.
Proof. unfold count. induction calls; simpl; auto. Qed.

(** ** C9: unknown provider *)

(** C9. For every provider name other than [memcached] and [cassandra],
    [__init__] logs the error and exits with status 1; nothing is retried
    and no driver call (so no connection attempt) has been issued. *)
Theorem C9_unknown_provider_aborts (config : Config) (st : state) :
  provider config <> "memcached" ->
  provider config <> "cassandra" ->
  exists st',
    RseApplication_init config st = (Exit 1, st') /\
    1 <> 0 /\
    trace st' =
      trace st ++
        [Log DEBUG "" (DictArg [("token prefix", authtoken_prefix config);
                                ("cache provider", provider config)]);
         Log ERROR "No auth_cache provider for: %s" (StrArg (provider config))] /\
    count is_call (trace st') = count is_call (trace st) /\
    count is_sleep (trace st') = count is_sleep (trace st) /\
    sched st' = sched st /\ store st' = store st.
Proof.
  intros Hm Hc.
  apply String.eqb_neq in Hm. apply String.eqb_neq in Hc.
  unfold RseApplication_init, bind, logger_debug, logger_error, emit, sys_exit.
  rewrite Hm, Hc. eexists. split; [reflexivity|].
  split; [discriminate|].
  destruct st as [s sch tr fr]; simpl.
  rewrite <- app_assoc. split; [reflexivity|].
  rewrite !count_app. unfold count. simpl. repeat split; lia.
Qed.

Lemma C9_unknown_provider_aborts_witness :
  exists st',
    RseApplication_init
      (mkConfig "" "redis" 120 false "mongodb://localhost" "rse" false "[none]")
      (boot empty_store []) = (Exit 1, st') /\
    count is_call (trace st') = 0%nat.
Proof.
  destruct (C9_unknown_provider_aborts
              (mkConfig "" "redis" 120 false "mongodb://localhost" "rse" false "[none]")
              (boot empty_store []))
    as (st' & Hrun & _ & _ & Hcalls & _); [discriminate | discriminate |].
  exists st'. split; [exact Hrun | exact Hcalls].
Defined.

(** ** C2: the loops and [break] *)

(** C2 (code at the failing input). With every call going through, the
    first connect iteration completes without error, and the loop still
    runs all ten iterations: the primary client is requested ten times.
    The convergence loop, which has the [break], issues its opening
    request once. *)
Theorem C2_connect_loop_runs_on_after_success (config : Config) (s : Store) :
  (exists st1,
     connect_attempt config (boot s []) = (Ret Next, st1) /\
     db_connections_ok (frame st1) = true) /\
  count is_primary_connect (trace (snd (connect_phase config (boot s [])))) = 10%nat /\
  count is_converge_start
    (trace (snd (converge_phase sample_master 120 (boot empty_store [])))) = 1%nat.
Proof.
  split; [|split].
  - unfold connect_attempt, connect_sequence, connect_replica_set.
    destruct (String.eqb (replica_set config) "[none]");
      eexists; split; reflexivity.
  - unfold connect_phase, connect_attempt, connect_sequence, connect_replica_set.
    destruct (String.eqb (replica_set config) "[none]"); reflexivity.
  - vm_compute. reflexivity.
Qed.

(** ** C3: failures of the connect sequence *)

Lemma connect_attempt_fails (config : Config) (st : state) ex rest step :
  connect_failure ex rest step (sched st) ->
  exists st' calls,
    sched st' = rest /\
    db_connections_ok (frame st') = db_connections_ok (frame st) /\
    if retried config step ex then
      connect_attempt config st = (Ret Next, st') /\
      trace st' = trace st ++ map Call calls ++ [connect_warning; Sleep (1 # 2)]
    else
      connect_attempt config st = (Exit 1, st') /\
      exists text arg,
        trace st' = trace st ++ map Call calls ++ [Log ERROR text arg].
Proof.
  destruct st as [s sch tr fr]; simpl. intros Hf.
  inversion Hf as [Hsch | ev Hev Hsch]; subst; clear Hf.
  - (* the primary client fails *)
    unfold retried. rewrite andb_true_r.
    destruct (isinstance_AutoReconnect ex) eqn:Har.
    + eexists. exists [NewMongoClient (mongo_uri config) PRIMARY (use_ssl config)].
      unfold connect_attempt, connect_sequence, try_except, bind, new_MongoClient,
        driver; simpl. rewrite Har; simpl.
      repeat split; trace_eq.
    + eexists. exists [NewMongoClient (mongo_uri config) PRIMARY (use_ssl config)].
      unfold connect_attempt, connect_sequence, try_except, bind, new_MongoClient,
        driver; simpl. rewrite Har; simpl.
      repeat split; try (do 2 eexists); trace_eq.
  - (* the general client fails *)
    unfold retried.
    assert (Hthrough : forall o tr0 fr0,
      exists s',
        driver o (mkState s (ev :: Fault ex :: rest) tr0 fr0) =
          (Ret tt, mkState s' (Fault ex :: rest) (tr0 ++ [Call o]) fr0)).
    { intros o tr0 fr0. destruct ev as [|ex'|]; simpl.
      - eexists; reflexivity.
      - destruct (Hev ex' eq_refl).
      - eexists; reflexivity. }
    destruct (Hthrough (NewMongoClient (mongo_uri config) PRIMARY (use_ssl config))
                tr fr) as [s' Hd].
    unfold connect_attempt, connect_sequence, connect_replica_set,
      new_MongoClient, new_MongoReplicaSetClient, try_except, bind.
    rewrite Hd. cbn [ret assign with_frame frame store sched trace].
    destruct (String.eqb (replica_set config) "[none]") eqn:Hrs.
    + rewrite andb_true_r.
      destruct (isinstance_AutoReconnect ex) eqn:Har; simpl; rewrite Har; simpl.
      * eexists.
        exists [NewMongoClient (mongo_uri config) PRIMARY (use_ssl config);
                NewMongoClient (mongo_uri config) SECONDARY (use_ssl config)].
        repeat split; trace_eq.
      * eexists.
        exists [NewMongoClient (mongo_uri config) PRIMARY (use_ssl config);
                NewMongoClient (mongo_uri config) SECONDARY (use_ssl config)].
        repeat split; try (do 2 eexists); trace_eq.
    + rewrite andb_false_r. simpl.
      eexists.
      exists [NewMongoClient (mongo_uri config) PRIMARY (use_ssl config);
              NewMongoReplicaSetClient (mongo_uri config) (replica_set config)
                SECONDARY (use_ssl config)].
      repeat split; try (do 2 eexists); trace_eq.
Qed.

Lemma for_range_next n (body : M ctl) st st' :
  body st = (Ret Next, st') ->
  for_range (S n) body st = for_range n body st'.
Proof. intros H. simpl. unfold bind. rewrite H. reflexivity. Qed.

Lemma for_range_break n (body : M ctl) st st' :
  body st = (Ret Break, st') ->
  for_range (S n) body st = (Ret tt, st').
Proof. intros H. simpl. unfold bind. rewrite H. reflexivity. Qed.

Lemma for_range_exit n (body : M ctl) st st' code :
  body st = (Exit code, st') ->
  for_range (S n) body st = (Exit code, st').
Proof. intros H. simpl. unfold bind. rewrite H. reflexivity. Qed.

(** C3 (amended). A failure of the primary client, or of the plain general
    client used when no replica set is configured, is answered by its kind:
    an [AutoReconnect] is logged as a warning, followed by a sleep of 0.5,
    and the loop goes on with the attempts that remain of the ten; any
    other exception is logged as an error and the process exits with
    status 1 at once.  A failure of the replica-set client exits with
    status 1 at once whatever its kind. *)
Theorem C3_connect_failure_policy (config : Config) (n : nat) (st : state)
    (ex : exn) (rest : list event) (step : connect_step) :
  connect_failure ex rest step (sched st) ->
  exists st' calls,
    sched st' = rest /\
    if retried config step ex then
      for_range (S n) (connect_attempt config) st =
        for_range n (connect_attempt config) st' /\
      trace st' = trace st ++ map Call calls ++ [connect_warning; Sleep (1 # 2)]
    else
      for_range (S n) (connect_attempt config) st = (Exit 1, st') /\
      exists text arg,
        trace st' = trace st ++ map Call calls ++ [Log ERROR text arg].
Proof.
  intros Hf.
  destruct (connect_attempt_fails config st ex rest step Hf)
    as (st' & calls & Hs & _ & H).
  exists st', calls. split; [exact Hs|].
  destruct (retried config step ex).
  - destruct H as [Hrun Htr]. split; [|exact Htr].
    apply for_range_next, Hrun.
  - destruct H as [Hrun Htr]. split; [|exact Htr].
    apply for_range_exit, Hrun.
Qed.

Lemma C3_connect_failure_policy_witness :
  exists st' calls,
    sched st' = [] /\
    for_range 10 (connect_attempt sample_config)
      (boot empty_store [Pass; Fault (AutoReconnect "not master")]) =
      for_range 9 (connect_attempt sample_config) st' /\
    trace st' = map Call calls ++ [connect_warning; Sleep (1 # 2)].
Proof.
  exact (C3_connect_failure_policy sample_config 9
           (boot empty_store [Pass; Fault (AutoReconnect "not master")])
           (AutoReconnect "not master") [] GeneralClient
           (fails_at_general _ _ Pass ltac:(discriminate))).
Defined.

(** C3 as stated fails: with a replica set configured, a transient failure
    of the replica-set client is not retried.  The process exits with
    status 1 after two driver calls, without a warning and without sleeping. *)
Lemma C3_counterexample :
  isinstance_AutoReconnect (AutoReconnect "not master") = true /\
  init_database rs_config (boot empty_store [Pass; Fault (AutoReconnect "not master")]) =
    (Exit 1,
     mkState empty_store []
       [Call (NewMongoClient "mongodb://db1,db2" PRIMARY true);
        Call (NewMongoReplicaSetClient "mongodb://db1,db2" "rs0" SECONDARY true);
        Log ERROR "Mongo connection exception: %s" (StrArg "not master")]
       (mkLocals false
          (Some (MongoClient "mongodb://db1,db2" PRIMARY true))
          (Some (getitem (MongoClient "mongodb://db1,db2" PRIMARY true) "rse"))
          None None false)).
Proof. split; reflexivity. Qed.

(** ** C8: the store is never reachable *)

Lemma connect_loop_never_reachable (config : Config) (n : nat) :
  forall st,
    never_reachable config n (sched st) ->
    db_connections_ok (frame st) = false ->
    exists st',
      for_range n (connect_attempt config) st = (Ret tt, st') /\
      db_connections_ok (frame st') = false /\
      count is_sleep (trace st') = (count is_sleep (trace st) + n)%nat.
Proof.
  induction n as [|n IH]; intros st Hn Hok.
  - exists st. repeat split; [exact Hok | lia].
  - inversion Hn as [|n' sch step ex rest Hf Hr Hrest]; subst.
    destruct (connect_attempt_fails config st ex rest step Hf)
      as (st1 & calls & Hs & Hok1 & H).
    rewrite Hr in H. destruct H as [Hrun Htr].
    destruct (IH st1) as (st' & Hloop & Hok' & Hsl).
    + rewrite Hs. exact Hrest.
    + rewrite Hok1. exact Hok.
    + exists st'. split; [|split].
      * rewrite (for_range_next _ _ _ _ Hrun). exact Hloop.
      * exact Hok'.
      * rewrite Hsl, Htr, !count_app.
        rewrite count_sleep_calls. unfold count; simpl. lia.
Qed.

Lemma init_database_never_reachable (config : Config) (st : state) :
  never_reachable config 10 (sched st) ->
  exists st',
    init_database config st = (Exit 1, st') /\
    (exists tr, trace st' =
       tr ++ [Log ERROR "Could not set up db connections" NoArg]) /\
    count is_sleep (trace st') = (count is_sleep (trace st) + 10)%nat.
Proof.
  intros Hn.
  destruct (connect_loop_never_reachable config 10
              (with_frame (set_db_connections_ok false (frame st)) st))
    as (st1 & Hloop & Hok & Hsl).
  { destruct st; exact Hn. }
  { reflexivity. }
  assert (Hphase : connect_phase config st =
            (Exit 1, record (Log ERROR "Could not set up db connections" NoArg) st1)).
  { unfold connect_phase, assign. unfold bind at 1. unfold bind at 1.
    rewrite Hloop. unfold bind, read. rewrite Hok. reflexivity. }
  assert (Hinit : init_database config st =
            (Exit 1, record (Log ERROR "Could not set up db connections" NoArg) st1)).
  { unfold init_database. unfold bind at 1. rewrite Hphase. reflexivity. }
  eexists. split; [exact Hinit|]. split.
  - eexists. reflexivity.
  - simpl. rewrite count_app, Hsl. destruct st; unfold count; simpl. lia.
Qed.

(** C8. When each of the ten connect attempts meets a transient failure,
    [init_database] sleeps ten times, logs the error "Could not set up db
    connections" as its last act and exits with status 1; it returns no
    handles, and [__init__] exits with status 1 as well, so no routes are
    bound. *)
Theorem C8_exhausted_connect_attempts_abort (config : Config) (st : state) :
  never_reachable config 10 (sched st) ->
  exists st',
    init_database config st = (Exit 1, st') /\
    (exists tr, trace st' =
       tr ++ [Log ERROR "Could not set up db connections" NoArg]) /\
    count is_sleep (trace st') = (count is_sleep (trace st) + 10)%nat /\
    fst (RseApplication_init config st) = Exit 1.
Proof.
  intros Hn.
  destruct (init_database_never_reachable config st Hn) as (st' & Hrun & Hlog & Hsl).
  exists st'. repeat split; try assumption.
  unfold RseApplication_init, logger_debug, logger_error, emit, sys_exit.
  unfold bind at 1. unfold bind at 1.
  destruct (String.eqb (provider config) "memcached");
    [| destruct (String.eqb (provider config) "cassandra") ].
  3: reflexivity.
  all: unfold ret at 1; unfold bind at 1;
    match goal with
    | |- context [init_database ?cfg ?s] =>
        destruct (init_database_never_reachable cfg s) as (st2 & Hrun2 & _);
          [destruct st; exact Hn | rewrite Hrun2; reflexivity]
    end.
Qed.

Lemma C8_exhausted_connect_attempts_abort_witness :
  exists st',
    init_database sample_config
      (boot empty_store
         (Pass :: repeat (Fault (AutoReconnect "no primary")) 10)) = (Exit 1, st') /\
    count is_sleep (trace st') = 10%nat.
Proof.
  destruct (C8_exhausted_connect_attempts_abort sample_config
              (boot empty_store
                 (Pass :: repeat (Fault (AutoReconnect "no primary")) 10)))
    as (st' & Hrun & _ & Hsl & _).
  - simpl.
    eapply never_reachable_S;
      [apply (fails_at_general _ _ Pass); discriminate | reflexivity |].
    repeat (eapply never_reachable_S;
              [apply fails_at_primary | reflexivity |]).
    apply never_reachable_O.
  - exists st'. split; [exact Hrun | exact Hsl].
Defined.

(** ** A program logic over views *)

Lemma index_mutations_snoc tr o :
  index_mutations (tr ++ [o]) =
  index_mutations tr ++ (if is_index_mutation o then [o] else []).
Proof.
  unfold index_mutations. rewrite List.filter_app. simpl.
  destruct (is_index_mutation o); reflexivity.
Qed.

Lemma indexes_concurrent_seed s : indexes (concurrent_seed s) = indexes s.
Proof. unfold concurrent_seed. destruct (find_doc _ _); reflexivity. Qed.

Lemma v_conseq {A} (R R' : view_pred) (m : M A) (Q Q' : A -> view_pred)
    (E E' : view_pred) :
  vhoare R' m Q' E' ->
  (forall ix ms ok, R ix ms ok -> R' ix ms ok) ->
  (forall a ix ms ok, Q' a ix ms ok -> Q a ix ms ok) ->
  (forall ix ms ok, E' ix ms ok -> E ix ms ok) ->
  vhoare R m Q E.
Proof.
  intros H HR HQ HE st Hst. specialize (H st (HR _ _ _ Hst)).
  destruct (m st) as [[a|ex|code] st']; unfold on_view in *; auto.
Qed.

Lemma v_ret {A} (R : view_pred) (a : A) (Q : A -> view_pred) (E : view_pred) :
  (forall ix ms ok, R ix ms ok -> Q a ix ms ok) ->
  vhoare R (ret a) Q E.
Proof. intros HQ st H. apply HQ, H. Qed.

Lemma v_bind {A B} (R : view_pred) (m : M A) (k : A -> M B)
    (R' : A -> view_pred) (Q : B -> view_pred) (E : view_pred) :
  vhoare R m R' E ->
  (forall a, vhoare (R' a) (k a) Q E) ->
  vhoare R (x <- m ;; k x) Q E.
Proof.
  intros Hm Hk st Hst. unfold bind. specialize (Hm st Hst).
  destruct (m st) as [[a|ex|code] st']; auto. apply Hk, Hm.
Qed.

Lemma v_raise {A} (R : view_pred) (ex : exn) (Q : A -> view_pred) (E : view_pred) :
  (forall ix ms ok, R ix ms ok -> E ix ms ok) ->
  vhoare R (raise ex) Q E.
Proof. intros HE st H. apply HE, H. Qed.

Lemma v_exit {A} (R : view_pred) (code : Z) (Q : A -> view_pred) (E : view_pred) :
  (forall ix ms ok, R ix ms ok -> E ix ms ok) ->
  vhoare R (sys_exit code) Q E.
Proof. intros HE st H. apply HE, H. Qed.

Lemma v_try {A} (R : view_pred) (body : M A) (handler : exn -> M A)
    (Q : A -> view_pred) (E' E : view_pred) :
  vhoare R body Q E' ->
  (forall ix ms ok, E' ix ms ok -> E ix ms ok) ->
  (forall ex, vhoare E' (handler ex) Q E) ->
  vhoare R (try_except body handler) Q E.
Proof.
  intros Hb HE Hh st Hst. unfold try_except. specialize (Hb st Hst).
  destruct (body st) as [[a|ex|code] st']; auto.
  - apply Hh, Hb.
  - unfold on_view in *. auto.
Qed.

Lemma v_emit (R : view_pred) (o : obs) (Q : unit -> view_pred) (E : view_pred) :
  is_index_mutation o = false ->
  (forall ix ms ok, R ix ms ok -> Q tt ix ms ok) ->
  vhoare R (emit o) Q E.
Proof.
  intros Ho HQ st Hst. unfold emit, on_view in *. simpl.
  rewrite index_mutations_snoc, Ho, app_nil_r. apply HQ, Hst.
Qed.

Lemma v_assign_ok (R : view_pred) (b : bool) (Q : unit -> view_pred)
    (E : view_pred) :
  (forall ix ms ok, R ix ms ok -> Q tt ix ms b) ->
  vhoare R (assign (set_db_events_collection_ok b)) Q E.
Proof.
  intros HQ st Hst. unfold assign, on_view in *. simpl. eapply HQ, Hst.
Qed.

Lemma v_read_ok (R : view_pred) (Q : bool -> view_pred) (E : view_pred) :
  (forall ix ms ok, R ix ms ok -> Q ok ix ms ok) ->
  vhoare R (read db_events_collection_ok) Q E.
Proof. intros HQ st Hst. unfold read, on_view in *. simpl. apply HQ, Hst. Qed.

Lemma v_for_range (n : nat) (body : M ctl) (I B E : view_pred) :
  vhoare I body (fun k => match k with Next => I | Break => B end) E ->
  vhoare I (for_range n body)
    (fun _ ix ms ok => I ix ms ok \/ B ix ms ok) E.
Proof.
  intros Hbody. induction n as [|n IH]; intros st Hst.
  - simpl. unfold on_view in *. auto.
  - simpl. unfold bind. specialize (Hbody st Hst).
    destruct (body st) as [[[|]|ex|code] st']; auto.
    + apply IH, Hbody.
    + simpl. unfold on_view in *. auto.
Qed.

Lemma v_driver (R : view_pred) (o : op) :
  vhoare R (driver o) (fun _ => R) R.
Proof.
  intros [s sch tr fr] Hst. unfold on_view, driver in *. simpl in *.
  assert (Hms : index_mutations (tr ++ [Call o]) = index_mutations tr).
  { rewrite index_mutations_snoc. simpl. apply app_nil_r. }
  destruct sch as [|[|ex|] rest]; simpl; rewrite ?indexes_concurrent_seed, Hms;
    exact Hst.
Qed.

(** A step that only inspects or transforms the state it is given. *)
Lemma v_after_driver {A} (R : view_pred) (o : op) (f : M A)
    (Q : A -> view_pred) (E : view_pred) :
  (forall ix ms ok, R ix ms ok -> E ix ms ok) ->
  (forall st, on_view R st ->
     match f st with
     | (Ret a, st') => on_view (Q a) st'
     | (_, st') => on_view E st'
     end) ->
  vhoare R (driver o ;; f) Q E.
Proof.
  intros HE Hf. apply v_bind with (R' := fun _ => R).
  - apply (v_conseq R R (driver o) (fun _ => R) (fun _ => R) E R (v_driver R o));
      auto.
  - intros _ st Hst. apply Hf, Hst.
Qed.

Lemma v_drop_index (R : view_pred) db name (Q : unit -> view_pred)
    (E : view_pred) :
  (forall ix ms ok, R ix ms ok -> E ix ms ok) ->
  (forall ix ms ok index,
     R ix ms ok -> ix !! name = Some index ->
     Q tt (delete name ix) (ms ++ [Dropped name]) ok) ->
  vhoare R (drop_index db name) Q E.
Proof.
  intros HE HQ. apply v_after_driver; [exact HE|].
  intros [[ix cs] sch tr fr] Hst. unfold on_view in *. simpl in *.
  destruct (ix !! name) as [index|] eqn:Hix; simpl.
  - rewrite index_mutations_snoc. simpl. eapply HQ; eassumption.
  - apply HE, Hst.
Qed.

Lemma v_ensure_index (R : view_pred) db name idx (Q : unit -> view_pred)
    (E : view_pred) :
  (forall ix ms ok, R ix ms ok -> E ix ms ok) ->
  (forall ix ms ok index,
     R ix ms ok -> ix !! name = Some index -> Q tt ix ms ok) ->
  (forall ix ms ok,
     R ix ms ok -> ix !! name = None ->
     Q tt (<[name := idx]> ix) (ms ++ [Created name idx]) ok) ->
  vhoare R (ensure_index db name idx) Q E.
Proof.
  intros HE HQ1 HQ2. apply v_after_driver; [exact HE|].
  intros [[ix cs] sch tr fr] Hst. unfold on_view in *. simpl in *.
  destruct (ix !! name) as [index|] eqn:Hix; simpl.
  - eapply HQ1; eassumption.
  - rewrite index_mutations_snoc. simpl. apply HQ2; assumption.
Qed.

Lemma v_index_information (R : view_pred) db
    (Q : gmap string Index -> view_pred) (E : view_pred) :
  (forall ix ms ok, R ix ms ok -> E ix ms ok) ->
  (forall ix ms ok, R ix ms ok -> Q ix ix ms ok) ->
  vhoare R (index_information db) Q E.
Proof.
  intros HE HQ. apply v_after_driver; [exact HE|].
  intros st Hst. unfold on_view in *. simpl. apply HQ, Hst.
Qed.

Lemma v_find_one (R : view_pred) db id (Q : option CounterDoc -> view_pred)
    (E : view_pred) :
  (forall ix ms ok, R ix ms ok -> E ix ms ok) ->
  (forall found ix ms ok, R ix ms ok -> Q found ix ms ok) ->
  vhoare R (find_one db id) Q E.
Proof.
  intros HE HQ. apply v_after_driver; [exact HE|].
  intros st Hst. unfold on_view in *. simpl. apply HQ, Hst.
Qed.

Lemma v_insert (R : view_pred) db doc (Q : unit -> view_pred) (E : view_pred) :
  (forall ix ms ok, R ix ms ok -> E ix ms ok) ->
  (forall ix ms ok, R ix ms ok -> Q tt ix ms ok) ->
  vhoare R (insert db doc) Q E.
Proof.
  intros HE HQ. apply v_after_driver; [exact HE|].
  intros [[ix cs] sch tr fr] Hst. unfold on_view in *. simpl in *.
  destruct (find_doc _ _); simpl.
  - apply HE, Hst.
  - rewrite index_mutations_snoc. simpl. rewrite app_nil_r. apply HQ, Hst.
Qed.

(** ** The convergence sequence refines the mutation system *)

Lemma reach_refl ttl ix ms : reach ttl ix ms ix ms.
Proof. exists []. split; [constructor | symmetry; apply app_nil_r]. Qed.

Lemma reach_step ttl ix0 ms0 ix ms m ix' :
  reach ttl ix0 ms0 ix ms ->
  mutation ttl ix m ix' ->
  reach ttl ix0 ms0 ix' (ms ++ [m]).
Proof.
  intros (done & Hd & ->) Hm. exists (done ++ [m]). split.
  - econstructor; eassumption.
  - symmetry. apply app_assoc.
Qed.

Lemma ttl_index_matches ttl : ttl_mismatch (ttl_index ttl) ttl = false.
Proof. unfold ttl_mismatch. simpl. rewrite Z.eqb_refl. reflexivity. Qed.

Section Refinement.

Variables (db : Database) (ttl : Z).
Variables (ix0 : gmap string Index) (ms0 : list obs).

Lemma drop_deprecated_index_refines name :
  In name deprecated_indexes ->
  vhoare (trying ttl ix0 ms0) (drop_deprecated_index db name) (fun _ => (trying ttl ix0 ms0)) (trying ttl ix0 ms0).
Proof.
  intros Hname. unfold drop_deprecated_index.
  apply v_try with (E' := (trying ttl ix0 ms0)); [| auto |].
  - apply v_drop_index; [auto|].
    intros ix ms ok index [Hr Hok] Hix. split; [|exact Hok].
    eapply reach_step; [exact Hr|]. econstructor; eassumption.
  - intros ex. destruct (isinstance_OperationFailure ex).
    + apply v_ret. auto.
    + apply v_raise. auto.
Qed.

Lemma ensure_get_events_refines :
  vhoare (trying ttl ix0 ms0) (ensure_index db "get_events" get_events_index)
    (fun _ ix ms ok => (trying ttl ix0 ms0) ix ms ok /\ is_Some (ix !! "get_events")) (trying ttl ix0 ms0).
Proof.
  apply v_ensure_index; [auto | |].
  - intros ix ms ok index H Hix. split; [exact H | eauto].
  - intros ix ms ok [Hr Hok] Hn.
    repeat split; [| exact Hok | rewrite lookup_insert_eq; eauto].
    eapply reach_step; [exact Hr|]. constructor. exact Hn.
Qed.

Lemma reconcile_ttl_refines :
  vhoare (fun ix ms ok => (trying ttl ix0 ms0) ix ms ok /\ is_Some (ix !! "get_events"))
    (reconcile_ttl db ttl)
    (fun _ ix ms ok => (trying ttl ix0 ms0) ix ms ok /\ settled ttl ix) (trying ttl ix0 ms0).
Proof.
  set (P := fun ix ms ok => (trying ttl ix0 ms0) ix ms ok /\ is_Some (ix !! "get_events")).
  unfold reconcile_ttl.
  apply v_bind with (R' := fun info ix ms ok => info = ix /\ P ix ms ok).
  { apply v_index_information; [intros ix ms ok [H _]; exact H | auto]. }
  intros info.
  (* what is known before the final [ensure_index] *)
  apply v_bind with
    (R' := fun _ ix ms ok =>
             P ix ms ok /\
             forall index, ix !! "ttl" = Some index ->
                           ttl_mismatch index ttl = false).
  - destruct (info !! "ttl") as [index|] eqn:Hinfo;
      [destruct (ttl_mismatch index ttl) eqn:Hmis|].
    + apply v_drop_index; [intros ix ms ok [_ [H _]]; exact H|].
      intros ix ms ok index' [-> [[Hr Hok] Hge]] Hix.
      rewrite Hinfo in Hix. injection Hix as Heq. subst index'.
      split; [split; [split|]|].
      * eapply reach_step; [exact Hr|]. econstructor; eassumption.
      * exact Hok.
      * rewrite lookup_delete_ne by discriminate. exact Hge.
      * intros index'. rewrite lookup_delete_eq. discriminate.
    + apply v_ret. intros ix ms ok [-> HP]. split; [exact HP|].
      intros index'. rewrite Hinfo. intros [= <-]. exact Hmis.
    + apply v_ret. intros ix ms ok [-> HP]. split; [exact HP|].
      intros index'. rewrite Hinfo. discriminate.
  - intros _.
    apply v_ensure_index; [intros ix ms ok [[H _] _]; exact H | |].
    + intros ix ms ok index [[Ht Hge] Hm] Hix.
      repeat split; try assumption; try apply Ht. exists index. auto.
    + intros ix ms ok [[[Hr Hok] Hge] Hm] Hn.
      repeat split; [| exact Hok | |].
      * eapply reach_step; [exact Hr|]. constructor. exact Hn.
      * rewrite lookup_insert_ne by discriminate. exact Hge.
      * exists (ttl_index ttl). rewrite lookup_insert_eq.
        split; [reflexivity | apply ttl_index_matches].
Qed.

Lemma seed_counter_refines (R : view_pred) (E : view_pred) :
  (forall ix ms ok, R ix ms ok -> E ix ms ok) ->
  vhoare R (seed_counter db) (fun _ => R) E.
Proof.
  intros HE. unfold seed_counter.
  apply v_bind with (R' := fun _ => R); [apply v_find_one; auto|].
  intros [doc|]; [apply v_ret | apply v_insert]; auto.
Qed.

Lemma converge_indexes_refines :
  vhoare (trying ttl ix0 ms0) (converge_indexes db ttl)
    (fun _ ix ms ok => (trying ttl ix0 ms0) ix ms ok /\ settled ttl ix) (trying ttl ix0 ms0).
Proof.
  unfold converge_indexes.
  apply v_bind with (R' := fun _ => (trying ttl ix0 ms0));
    [apply drop_deprecated_index_refines; simpl; tauto | intros []].
  apply v_bind with (R' := fun _ => (trying ttl ix0 ms0));
    [apply drop_deprecated_index_refines; simpl; tauto | intros []].
  eapply v_bind; [apply ensure_get_events_refines | intros []].
  apply reconcile_ttl_refines.
Qed.

Lemma converge_sequence_refines :
  vhoare (trying ttl ix0 ms0) (converge_sequence db ttl)
    (fun k ix ms ok => k = Break /\ (finished ttl ix0 ms0) ix ms ok) (trying ttl ix0 ms0).
Proof.
  unfold converge_sequence.
  eapply v_bind; [apply converge_indexes_refines | intros []].
  eapply v_bind;
    [apply seed_counter_refines; intros ix ms ok [H _]; exact H | intros []].
  apply v_bind with (R' := fun _ => (finished ttl ix0 ms0)).
  - apply v_assign_ok. intros ix ms ok [[Hr _] Hs].
    split; [exact Hr | split; [exact Hs | reflexivity]].
  - intros _. apply v_ret. auto.
Qed.

Lemma converge_attempt_refines :
  vhoare (trying ttl ix0 ms0) (converge_attempt db ttl)
    (fun k => match k with Next => (trying ttl ix0 ms0) | Break => (finished ttl ix0 ms0) end) (trying ttl ix0 ms0).
Proof.
  unfold converge_attempt.
  apply v_try with (E' := (trying ttl ix0 ms0)); [| auto |].
  - eapply v_conseq; [apply converge_sequence_refines | auto | | auto].
    intros k ix ms ok [-> H]. exact H.
  - intros ex. destruct (isinstance_AutoReconnect ex).
    + apply v_bind with (R' := fun _ => (trying ttl ix0 ms0));
        [apply v_emit; auto | intros []].
      apply v_bind with (R' := fun _ => (trying ttl ix0 ms0));
        [apply v_emit; auto | intros []].
      apply v_ret. auto.
    + apply v_bind with (R' := fun _ => (trying ttl ix0 ms0));
        [apply v_emit; auto | intros []].
      apply v_exit. auto.
Qed.

(** The second phase: whatever the schedule, the index table moves only
    by the mutations above, and a normal return means the sequence has
    completed. *)
Lemma converge_phase_refines :
  vhoare (fun ix ms ok => reach ttl ix0 ms0 ix ms) (converge_phase db ttl)
    (fun _ ix ms ok => reach ttl ix0 ms0 ix ms /\ settled ttl ix)
    (fun ix ms ok => reach ttl ix0 ms0 ix ms).
Proof.
  unfold converge_phase.
  apply v_bind with (R' := fun _ => (trying ttl ix0 ms0));
    [apply v_assign_ok; unfold trying; auto | intros []].
  apply v_bind with
    (R' := fun _ ix ms ok => (trying ttl ix0 ms0) ix ms ok \/ (finished ttl ix0 ms0) ix ms ok).
  { eapply v_conseq; [apply v_for_range, converge_attempt_refines | auto | auto |].
    intros ix ms ok [H _]; exact H. }
  intros _.
  apply v_bind with
    (R' := fun b ix ms ok =>
             (b = false /\ (trying ttl ix0 ms0) ix ms ok) \/ (b = true /\ (finished ttl ix0 ms0) ix ms ok)).
  { apply v_read_ok. intros ix ms ok [[Hr ->]|(Hr & Hs & ->)].
    - left. split; [reflexivity | split; [exact Hr | reflexivity]].
    - right. split; [reflexivity | split; [exact Hr | split; [exact Hs | reflexivity]]]. }
  intros [|]; simpl.
  - apply v_ret. intros ix ms ok [[[=] _]|[_ (Hr & Hs & _)]]. split; assumption.
  - apply v_bind with (R' := fun _ ix ms ok => reach ttl ix0 ms0 ix ms).
    + apply v_emit; [reflexivity|].
      intros ix ms ok [[_ [Hr _]]|[_ (Hr & _)]]; exact Hr.
    + intros _. apply v_exit. auto.
Qed.

End Refinement.

(** ** The convergence phase under a quiet schedule *)

Lemma quiet_bind {A B} (m : M A) (k : A -> M B) f g :
  quiet_total m f -> (forall a, quiet_total (k a) g) ->
  quiet_total (x <- m ;; k x) (fun s => g (f s)).
Proof.
  intros Hm Hk st Hq. destruct (Hm st Hq) as (a & st1 & Hrun & Hq1 & Hc1).
  destruct (Hk a st1 Hq1) as (b & st2 & Hrun2 & Hq2 & Hc2).
  exists b, st2. unfold bind. rewrite Hrun, <- Hc1. auto.
Qed.

Ltac run_quiet :=
  intros [[ix cs] sch tr fr]; simpl; intros ->;
  unfold drop_deprecated_index, reconcile_ttl, seed_counter, drop_index,
    ensure_index, index_information, find_one, insert, try_except, bind,
    driver, ret, assign; simpl.

Ltac quiet_done := do 2 eexists; split; [reflexivity | split; reflexivity].

Lemma drop_deprecated_index_quiet db name :
  quiet_total (drop_deprecated_index db name) (store_drop name).
Proof.
  run_quiet. unfold store_drop. simpl.
  destruct (ix !! name) eqn:Hix; simpl; [quiet_done|].
  rewrite (delete_id _ _ Hix). quiet_done.
Qed.

Lemma ensure_index_quiet db name idx :
  quiet_total (ensure_index db name idx) (store_ensure name idx).
Proof.
  run_quiet. unfold store_ensure. simpl.
  destruct (ix !! name); simpl; quiet_done.
Qed.

Lemma reconcile_ttl_quiet db ttl :
  quiet_total (reconcile_ttl db ttl) (store_reconcile ttl).
Proof.
  run_quiet. unfold store_reconcile, store_ensure, store_drop. simpl.
  destruct (ix !! "ttl") as [index|] eqn:Hix; simpl;
    [destruct (ttl_mismatch index ttl); simpl; rewrite ?Hix; simpl|].
  - rewrite lookup_delete_eq. quiet_done.
  - quiet_done.
  - rewrite Hix. quiet_done.
Qed.

Lemma seed_counter_quiet db : quiet_total (seed_counter db) store_seed.
Proof.
  run_quiet. unfold store_seed, seed_docs. simpl.
  destruct (find_doc last_known_id cs) eqn:Hf; simpl; rewrite ?Hf; quiet_done.
Qed.

Lemma converge_attempt_quiet db ttl st :
  sched st = [] ->
  exists st',
    converge_attempt db ttl st = (Ret Break, st') /\
    db_events_collection_ok (frame st') = true /\
    store st' = converge_store ttl (store st).
Proof.
  intros Hq.
  assert (Hseq : quiet_total (converge_indexes db ttl ;; seed_counter db)
                   (converge_store ttl)).
  { unfold converge_indexes, converge_store.
    apply (quiet_bind _ _ _ store_seed); [| intros _; apply seed_counter_quiet].
    apply (quiet_bind _ _ (store_drop "uuid_1_channel_1")
             (fun s => store_reconcile ttl
                         (store_ensure "get_events" get_events_index
                            (store_drop "created_at_1" s))));
      [apply drop_deprecated_index_quiet | intros _].
    apply (quiet_bind _ _ (store_drop "created_at_1")
             (fun s => store_reconcile ttl
                         (store_ensure "get_events" get_events_index s)));
      [apply drop_deprecated_index_quiet | intros _].
    apply (quiet_bind _ _ (store_ensure "get_events" get_events_index)
             (store_reconcile ttl));
      [apply ensure_index_quiet | intros _].
    apply reconcile_ttl_quiet. }
  destruct (Hseq st Hq) as ([] & st1 & Hrun & Hq1 & Hc1).
  unfold bind in Hrun.
  exists (with_frame (set_db_events_collection_ok true (frame st1)) st1).
  unfold converge_attempt, converge_sequence, try_except, bind.
  destruct (converge_indexes db ttl st) as [[[]|ex|code] st0]; try discriminate.
  rewrite Hrun. split; [reflexivity | split; [reflexivity | exact Hc1]].
Qed.

(** With nothing failing and nobody interfering, the second phase returns
    and has applied [converge_store] to the store. *)
Lemma converge_phase_quiet db ttl st :
  sched st = [] ->
  exists st',
    converge_phase db ttl st = (Ret tt, st') /\
    store st' = converge_store ttl (store st).
Proof.
  intros Hq.
  destruct (converge_attempt_quiet db ttl
              (with_frame (set_db_events_collection_ok false (frame st)) st))
    as (st' & Hrun & Hok & Hc).
  { destruct st; exact Hq. }
  exists st'. split; [| destruct st; exact Hc].
  unfold converge_phase, assign. unfold bind at 1. unfold bind at 1.
  rewrite (for_range_break _ _ _ _ Hrun). unfold bind, read. rewrite Hok.
  reflexivity.
Qed.

Lemma counters_store_ensure name idx s :
  counters (store_ensure name idx s) = counters s.
Proof. unfold store_ensure. destruct (indexes s !! name); reflexivity. Qed.

Lemma counters_converge_store ttl s :
  counters (converge_store ttl s) = seed_docs (counters s).
Proof.
  unfold converge_store, store_seed, store_reconcile. simpl.
  rewrite counters_store_ensure.
  destruct (indexes _ !! "ttl") as [index|];
    [destruct (ttl_mismatch index ttl)|]; simpl;
    rewrite counters_store_ensure; reflexivity.
Qed.

(** The store an undisturbed attempt leaves behind is converged. *)
Lemma converge_store_converged ttl s :
  converged ttl (indexes (converge_store ttl s)).
Proof.
  destruct s as [ix cs].
  unfold converge_store, store_seed, store_reconcile, store_ensure, store_drop.
  simpl.
  set (ix1 := delete "created_at_1" (delete "uuid_1_channel_1" ix)).
  assert (H1 : ix1 !! "uuid_1_channel_1" = None).
  { unfold ix1. rewrite lookup_delete_ne by discriminate. apply lookup_delete_eq. }
  assert (H2 : ix1 !! "created_at_1" = None) by apply lookup_delete_eq.
  clearbody ix1.
  destruct (ix1 !! "get_events") as [g|] eqn:Hg; simpl.
  - destruct (ix1 !! "ttl") as [index|] eqn:Ht; simpl;
      [destruct (ttl_mismatch index ttl) eqn:Hmis; simpl|].
    + rewrite lookup_delete_eq. simpl.
      repeat split.
      * rewrite lookup_insert_ne, lookup_delete_ne by discriminate. exact H1.
      * rewrite lookup_insert_ne, lookup_delete_ne by discriminate. exact H2.
      * rewrite lookup_insert_ne, lookup_delete_ne by discriminate. eauto.
      * exists (ttl_index ttl). rewrite lookup_insert_eq. auto.
    + rewrite Ht. simpl. repeat split; eauto.
      exists index. split; [exact Ht|].
      unfold ttl_mismatch in Hmis. destruct (expireAfterSeconds index) as [secs|];
        [|discriminate].
      apply negb_false_iff, Z.eqb_eq in Hmis. congruence.
    + rewrite Ht. simpl. repeat split.
      * rewrite lookup_insert_ne by discriminate. exact H1.
      * rewrite lookup_insert_ne by discriminate. exact H2.
      * rewrite lookup_insert_ne by discriminate. eauto.
      * exists (ttl_index ttl). rewrite lookup_insert_eq. auto.
  - assert (Hge : forall ix2 : gmap string Index,
              is_Some (<["get_events" := get_events_index]> ix2 !! "get_events")).
    { intros ix2. rewrite lookup_insert_eq. eauto. }
    rewrite lookup_insert_ne by discriminate.
    destruct (ix1 !! "ttl") as [index|] eqn:Ht; simpl;
      [destruct (ttl_mismatch index ttl) eqn:Hmis; simpl|].
    + rewrite lookup_delete_eq. simpl.
      repeat split.
      * rewrite lookup_insert_ne, lookup_delete_ne, lookup_insert_ne by discriminate.
        exact H1.
      * rewrite lookup_insert_ne, lookup_delete_ne, lookup_insert_ne by discriminate.
        exact H2.
      * rewrite lookup_insert_ne, lookup_delete_ne by discriminate. apply Hge.
      * exists (ttl_index ttl). rewrite lookup_insert_eq. auto.
    + rewrite lookup_insert_ne, Ht by discriminate. simpl. repeat split.
      * rewrite lookup_insert_ne by discriminate. exact H1.
      * rewrite lookup_insert_ne by discriminate. exact H2.
      * apply Hge.
      * exists index. rewrite lookup_insert_ne by discriminate. split; [exact Ht|].
        unfold ttl_mismatch in Hmis. destruct (expireAfterSeconds index) as [secs|];
          [|discriminate].
        apply negb_false_iff, Z.eqb_eq in Hmis. congruence.
    + rewrite lookup_insert_ne, Ht by discriminate. simpl. repeat split.
      * rewrite !lookup_insert_ne by discriminate. exact H1.
      * rewrite !lookup_insert_ne by discriminate. exact H2.
      * rewrite lookup_insert_ne by discriminate. apply Hge.
      * exists (ttl_index ttl). rewrite lookup_insert_eq. auto.
Qed.

(** ** Properties of the mutation system *)

Lemma converge_phase_mutations db ttl st :
  exists done,
    mutations ttl (indexes (store st)) done
      (indexes (store (snd (converge_phase db ttl st)))) /\
    index_mutations (trace (snd (converge_phase db ttl st))) =
      index_mutations (trace st) ++ done /\
    (fst (converge_phase db ttl st) = Ret tt ->
     settled ttl (indexes (store (snd (converge_phase db ttl st))))).
Proof.
  pose proof (converge_phase_refines db ttl (indexes (store st))
                (index_mutations (trace st)) st) as H.
  unfold on_view in H. specialize (H (reach_refl _ _ _)).
  destruct (converge_phase db ttl st) as [[[]|ex|code] st']; simpl.
  - destruct H as [(done & Hm & Heq) Hs]. exists done. auto.
  - destruct H as (done & Hm & Heq). exists done.
    split; [exact Hm | split; [exact Heq | discriminate]].
  - destruct H as (done & Hm & Heq). exists done.
    split; [exact Hm | split; [exact Heq | discriminate]].
Qed.

Lemma converged_is_stuck ttl ix m ix' :
  converged ttl ix -> mutation ttl ix m ix' -> False.
Proof.
  intros (Hu & Hc & [g Hg] & index & Ht & He) Hm.
  inversion Hm as [? name i Hin Hix | ? Hn | ? i Hix Hmis | ? Hn]; subst.
  - simpl in Hin. destruct Hin as [<-|[<-|[]]]; congruence.
  - congruence.
  - rewrite Ht in Hix. injection Hix as <-.
    unfold ttl_mismatch in Hmis. rewrite He, Z.eqb_refl in Hmis. discriminate.
  - congruence.
Qed.

Lemma converged_mutations ttl ix ms ix' :
  converged ttl ix -> mutations ttl ix ms ix' -> ms = [] /\ ix' = ix.
Proof.
  intros Hc Hm. induction Hm as [|ix ms ix1 m ix2 Hm IH Hstep].
  - auto.
  - destruct (IH Hc) as [-> ->]. destruct (converged_is_stuck _ _ _ _ Hc Hstep).
Qed.

Lemma ttl_mutations_index_mutations tr :
  ttl_mutations tr = List.filter about_ttl (index_mutations tr).
Proof.
  unfold ttl_mutations, index_mutations.
  induction tr as [|o tr IH]; simpl; [reflexivity|].
  destruct o; simpl; rewrite ?IH; reflexivity.
Qed.

Lemma deprecated_not_ttl name :
  In name deprecated_indexes -> name <> "ttl" /\ String.eqb name "ttl" = false.
Proof.
  simpl. intros [<-|[<-|[]]]; split; (discriminate || reflexivity).
Qed.


Lemma mutations_mismatched_ttl ttl index ix ms ix' :
  mutations ttl ix ms ix' ->
  ix !! "ttl" = Some index ->
  ttl_mismatch index ttl = true ->
  ttl_stage ttl index ix' (List.filter about_ttl ms).
Proof.
  intros Hm Hix Hmis. induction Hm as [|ix ms ix1 m ix2 Hm IH Hstep].
  - left. auto.
  - specialize (IH Hix). rewrite List.filter_app.
    inversion Hstep as [? name i Hin Hi | ? Hn | ? i Hi Hmi | ? Hn]; subst; simpl.
    + destruct (deprecated_not_ttl name Hin) as [Hne ->]. rewrite app_nil_r.
      unfold ttl_stage. rewrite lookup_delete_ne by exact Hne. exact IH.
    + rewrite app_nil_r. unfold ttl_stage.
      rewrite lookup_insert_ne by discriminate. exact IH.
    + destruct IH as [[H1 ->]|[[H1 _]|[H1 _]]].
      * right; left. rewrite lookup_delete_eq. auto.
      * congruence.
      * rewrite H1 in Hi. injection Hi as <-.
        rewrite ttl_index_matches in Hmi. discriminate.
    + destruct IH as [[H1 _]|[[H1 ->]|[H1 _]]].
      * congruence.
      * right; right. rewrite lookup_insert_eq. auto.
      * congruence.
Qed.



(** ** C7: idempotence *)

(** From a converged index table the second phase is idle, whatever the
    schedule. *)
Lemma converged_run_is_idle db ttl st :
  converged ttl (indexes (store st)) ->
  indexes (store (snd (converge_phase db ttl st))) = indexes (store st) /\
  index_mutations (trace (snd (converge_phase db ttl st))) =
    index_mutations (trace st).
Proof.
  intros Hc.
  destruct (converge_phase_mutations db ttl st) as (done & Hm & Hlog & _).
  destruct (converged_mutations _ _ _ _ Hc Hm) as [-> Hix].
  split; [exact Hix|]. rewrite Hlog. apply app_nil_r.
Qed.

(** C7. Run the convergence phase once with nothing failing, from any
    store: it returns and leaves a converged index table.  Run it a second
    time on the result, under any schedule: the index table stays as it is
    and no index mutation is performed (nothing is dropped, nothing is
    created).  The same holds for a run against any store whose index
    table is converged, however it came to be so. *)
Theorem C7_convergence_idempotent (db : Database) (ttl : Z) (st0 : state)
    (l : list event) :
  sched st0 = [] ->
  fst (converge_phase db ttl st0) = Ret tt /\
  converged ttl (indexes (store (snd (converge_phase db ttl st0)))) /\
  indexes (store (snd (converge_phase db ttl
                         (with_sched l (snd (converge_phase db ttl st0)))))) =
    indexes (store (snd (converge_phase db ttl st0))) /\
  index_mutations
    (trace (snd (converge_phase db ttl
                   (with_sched l (snd (converge_phase db ttl st0)))))) =
    index_mutations (trace (snd (converge_phase db ttl st0))) /\
  (forall st,
     converged ttl (indexes (store st)) ->
     indexes (store (snd (converge_phase db ttl st))) = indexes (store st) /\
     index_mutations (trace (snd (converge_phase db ttl st))) =
       index_mutations (trace st)).
Proof.
  intros Hq.
  destruct (converge_phase_quiet db ttl st0 Hq) as (st1 & Hrun & Hst1).
  rewrite Hrun. simpl.
  assert (Hc : converged ttl (indexes (store st1))).
  { rewrite Hst1. apply converge_store_converged. }
  split; [reflexivity|]. split; [exact Hc|].
  destruct (converged_run_is_idle db ttl (with_sched l st1)) as [Hix Hlog].
  { destruct st1; exact Hc. }
  split; [rewrite Hix; destruct st1; reflexivity|].
  split; [rewrite Hlog; destruct st1; reflexivity|].
  intros st. apply converged_run_is_idle.
Qed.

Lemma C7_convergence_idempotent_witness :
  index_mutations
    (trace (snd (converge_phase sample_master 120
                   (with_sched [Pass; Fault (AutoReconnect "stepdown")]
                      (snd (converge_phase sample_master 120
                              (boot legacy_store []))))))) =
    index_mutations
      (trace (snd (converge_phase sample_master 120 (boot legacy_store [])))).
Proof.
  exact (proj1 (proj2 (proj2 (proj2
           (C7_convergence_idempotent sample_master 120 (boot legacy_store [])
              [Pass; Fault (AutoReconnect "stepdown")] eq_refl))))).
Defined.

(** ** C5 and C10: the [ttl] index *)

Lemma mismatched_ttl_replaced db ttl st index :
  indexes (store st) !! "ttl" = Some index ->
  ttl_mismatch index ttl = true ->
  exists log,
    ttl_mutations (trace (snd (converge_phase db ttl st))) =
      ttl_mutations (trace st) ++ log /\
    ttl_stage ttl index (indexes (store (snd (converge_phase db ttl st)))) log /\
    (fst (converge_phase db ttl st) = Ret tt ->
     indexes (store (snd (converge_phase db ttl st))) !! "ttl" =
       Some (ttl_index ttl) /\
     log = [Dropped "ttl"; Created "ttl" (ttl_index ttl)]).
Proof.
  intros Hix Hmis.
  destruct (converge_phase_mutations db ttl st) as (done & Hm & Hlog & Hret).
  pose proof (mutations_mismatched_ttl _ _ _ _ _ Hm Hix Hmis) as Hstage.
  exists (List.filter about_ttl done). split; [|split].
  - rewrite (ttl_mutations_index_mutations (trace st)).
    rewrite (ttl_mutations_index_mutations (trace (snd (converge_phase db ttl st)))).
    rewrite Hlog. apply List.filter_app.
  - exact Hstage.
  - intros Hok. destruct (Hret Hok) as (_ & index' & Hi & Hmatch).
    destruct Hstage as [[H1 _]|[[H1 _]|[H1 H2]]].
    + rewrite H1 in Hi. injection Hi as <-. congruence.
    + congruence.
    + auto.
Qed.




(** C10. An index named [ttl] that carries no [expireAfterSeconds] is
    handled like one with a differing expiry: a run that returns has
    dropped it and created it anew with the configured event lifetime
    (one drop followed by one creation); a run cut short has stopped at
    one of the stages old / dropped / new; with nothing failing the run
    returns. *)
Theorem C10_ttl_without_expiry_replaced (db : Database) (ttl : Z) (st : state)
    (index : Index) :
  indexes (store st) !! "ttl" = Some index ->
  expireAfterSeconds index = None ->
  (sched st = [] -> fst (converge_phase db ttl st) = Ret tt) /\
  exists log,
    ttl_mutations (trace (snd (converge_phase db ttl st))) =
      ttl_mutations (trace st) ++ log /\
    ttl_stage ttl index (indexes (store (snd (converge_phase db ttl st)))) log /\
    (fst (converge_phase db ttl st) = Ret tt ->
     indexes (store (snd (converge_phase db ttl st))) !! "ttl" =
       Some (ttl_index ttl) /\
     log = [Dropped "ttl"; Created "ttl" (ttl_index ttl)]).
Proof.
  intros Hix Hnone. split.
  - intros Hq. destruct (converge_phase_quiet db ttl st Hq) as (st' & -> & _).
    reflexivity.
  - apply mismatched_ttl_replaced; [exact Hix|].
    unfold ttl_mismatch. rewrite Hnone. reflexivity.
Qed.

Lemma C10_ttl_without_expiry_replaced_witness :
  indexes (store (snd (converge_phase sample_master 120 (boot plain_ttl_store []))))
    !! "ttl" = Some (ttl_index 120) /\
  ttl_mutations
    (trace (snd (converge_phase sample_master 120 (boot plain_ttl_store [])))) =
    [Dropped "ttl"; Created "ttl" (ttl_index 120)].
Proof.
  destruct (C10_ttl_without_expiry_replaced sample_master 120
              (boot plain_ttl_store []) (mkIndex [("created_at", ASCENDING)] None)
              ltac:(vm_compute; reflexivity) eq_refl)
    as (Hret & log & Hlog & _ & Hdone).
  destruct (Hdone (Hret eq_refl)) as [Hix Hl].
  split; [exact Hix|]. rewrite Hlog, Hl. reflexivity.
Defined.

(** ** C6: the counter document *)

Lemma preserves_bind {A B} (I : state -> Prop) (m : M A) (k : A -> M B) :
  preserves I m -> (forall a, preserves I (k a)) ->
  preserves I (x <- m ;; k x).
Proof.
  intros Hm Hk st Hst. unfold bind. specialize (Hm st Hst).
  destruct (m st) as [[a|ex|code] st1]; simpl in *; auto. apply Hk, Hm.
Qed.

Lemma preserves_try {A} (I : state -> Prop) (body : M A) (handler : exn -> M A) :
  preserves I body -> (forall ex, preserves I (handler ex)) ->
  preserves I (try_except body handler).
Proof.
  intros Hb Hh st Hst. unfold try_except. specialize (Hb st Hst).
  destruct (body st) as [[a|ex|code] st1]; simpl in *; auto. apply Hh, Hb.
Qed.

Lemma preserves_for_range (I : state -> Prop) (n : nat) (body : M ctl) :
  preserves I body -> preserves I (for_range n body).
Proof.
  intros Hb. induction n as [|n IH]; intros st Hst; [exact Hst|].
  simpl. unfold bind. specialize (Hb st Hst).
  destruct (body st) as [[[|]|ex|code] st1]; simpl in *; auto.
Qed.

Section Seeded.

Variable docs : list CounterDoc.

(** Steps that leave the store alone. *)
Lemma seeded_pure {A} (m : M A) :
  (forall st, store (snd (m st)) = store st) -> preserves (seeded docs) m.
Proof. intros H st Hst. unfold seeded. rewrite H. exact Hst. Qed.

Lemma seeded_driver o : preserves (seeded docs) (driver o).
Proof.
  intros [[ix cs] sch tr fr] [Hc Hf]. simpl in Hc. subst cs.
  unfold driver, seeded. simpl.
  destruct sch as [|[|ex|] rest]; simpl; try (split; [reflexivity | exact Hf]).
  unfold concurrent_seed. simpl.
  destruct (find_doc last_known_id docs); [|destruct Hf; reflexivity].
  split; [reflexivity | discriminate].
Qed.

(** A request whose server side leaves the counters collection alone. *)
Lemma seeded_after_driver {A} o (f : M A) :
  (forall st, counters (store (snd (f st))) = counters (store st)) ->
  preserves (seeded docs) (driver o ;; f).
Proof.
  intros Hf. apply preserves_bind; [apply seeded_driver|].
  intros _ st Hst. unfold seeded. rewrite Hf. exact Hst.
Qed.

Lemma seeded_drop_index db name : preserves (seeded docs) (drop_index db name).
Proof.
  apply seeded_after_driver. intros st. destruct (indexes (store st) !! name);
    reflexivity.
Qed.

Lemma seeded_ensure_index db name idx :
  preserves (seeded docs) (ensure_index db name idx).
Proof.
  apply seeded_after_driver. intros st. destruct (indexes (store st) !! name);
    reflexivity.
Qed.

Lemma seeded_index_information db :
  preserves (seeded docs) (index_information db).
Proof. apply seeded_after_driver. reflexivity. Qed.

Lemma seeded_find_one db id : preserves (seeded docs) (find_one db id).
Proof. apply seeded_after_driver. reflexivity. Qed.

(** With the counter document there, the insert of line 230 is refused. *)
Lemma seeded_insert db v :
  preserves (seeded docs) (insert db (mkCounter last_known_id v)).
Proof.
  apply preserves_bind; [apply seeded_driver|].
  intros _ st [Hc Hf]. unfold seeded. simpl. rewrite Hc.
  destruct (find_doc last_known_id docs); [|destruct Hf; reflexivity].
  simpl. rewrite Hc. split; [reflexivity | discriminate].
Qed.

Lemma seeded_seed_counter db : preserves (seeded docs) (seed_counter db).
Proof.
  apply preserves_bind; [apply seeded_find_one|].
  intros [doc|]; [apply seeded_pure; reflexivity | apply seeded_insert].
Qed.

Lemma seeded_converge_attempt db ttl :
  preserves (seeded docs) (converge_attempt db ttl).
Proof.
  apply preserves_try.
  - unfold converge_sequence, converge_indexes, drop_deprecated_index,
      reconcile_ttl.
    repeat first
      [ apply seeded_drop_index | apply seeded_ensure_index
      | apply seeded_index_information | apply seeded_seed_counter
      | apply seeded_pure; reflexivity
      | apply preserves_try; [| intros ex; destruct (isinstance_OperationFailure ex);
                                 apply seeded_pure; reflexivity]
      | apply preserves_bind; [| intros ?; cbv beta]
      | match goal with
        | |- preserves _ (match ?x !! ?k with _ => _ end) => destruct (x !! k)
        | |- preserves _ (if ?b then _ else _) => destruct b
        end ].
  - intros ex. destruct (isinstance_AutoReconnect ex);
      apply seeded_pure; reflexivity.
Qed.

Lemma seeded_converge_phase db ttl :
  preserves (seeded docs) (converge_phase db ttl).
Proof.
  unfold converge_phase.
  apply preserves_bind; [apply seeded_pure; reflexivity | intros _].
  apply preserves_bind;
    [apply preserves_for_range, seeded_converge_attempt | intros _].
  apply preserves_bind; [apply seeded_pure; reflexivity | intros ok].
  destruct (negb ok); apply seeded_pure; reflexivity.
Qed.

End Seeded.

(** C6. Started with an empty counters collection and nothing failing, the
    convergence phase returns with exactly the document
    [{_id: "last_known_id", c: 0}] in the collection.  Run against a
    collection that holds the counter document alone, with whatever value
    [c] has by then, the phase leaves the collection as it is, whatever
    the schedule. *)
Theorem C6_counter_seeded_once (db : Database) (ttl : Z) (st : state) :
  counters (store st) = [] ->
  sched st = [] ->
  exists st1,
    converge_phase db ttl st = (Ret tt, st1) /\
    counters (store st1) = [mkCounter "last_known_id" 0] /\
    (forall l, counters (store (snd (converge_phase db ttl (with_sched l st1)))) =
                 [mkCounter "last_known_id" 0]) /\
    (forall st2 v,
       counters (store st2) = [mkCounter "last_known_id" v] ->
       counters (store (snd (converge_phase db ttl st2))) =
         [mkCounter "last_known_id" v]).
Proof.
  intros Hempty Hq.
  destruct (converge_phase_quiet db ttl st Hq) as (st1 & Hrun & Hst1).
  assert (Hc : counters (store st1) = [mkCounter "last_known_id" 0]).
  { rewrite Hst1, counters_converge_store, Hempty. reflexivity. }
  assert (Hagain : forall st2 v,
            counters (store st2) = [mkCounter "last_known_id" v] ->
            counters (store (snd (converge_phase db ttl st2))) =
              [mkCounter "last_known_id" v]).
  { intros st2 v Hst2.
    apply (seeded_converge_phase [mkCounter "last_known_id" v] db ttl st2).
    split; [exact Hst2 | discriminate]. }
  exists st1. split; [exact Hrun|]. split; [exact Hc|]. split; [|exact Hagain].
  intros l. apply Hagain. destruct st1; exact Hc.
Qed.

Lemma C6_counter_seeded_once_witness :
  exists st1,
    converge_phase sample_master 120 (boot legacy_store []) = (Ret tt, st1) /\
    counters (store st1) = [mkCounter "last_known_id" 0] /\
    counters (store (snd (converge_phase sample_master 120
                            (with_sched [Race; Fault (AutoReconnect "stepdown")] st1)))) =
      [mkCounter "last_known_id" 0].
Proof.
  destruct (C6_counter_seeded_once sample_master 120 (boot legacy_store [])
              eq_refl eq_refl) as (st1 & Hrun & Hc & Hagain & _).
  exists st1. split; [exact Hrun|]. split; [exact Hc|]. apply Hagain.
Defined.

(** ** C1: losing the race for the counter document *)

Lemma find_doc_none_count docs :
  find_doc last_known_id docs = None -> count_counter docs = 0%nat.
Proof.
  unfold find_doc, count_counter. induction docs as [|d docs IH]; simpl; [reflexivity|].
  destruct (String.eqb (_id d) last_known_id); [discriminate | exact IH].
Qed.

Lemma find_doc_app_none id docs more :
  find_doc id docs = None -> find_doc id (docs ++ more) = find_doc id more.
Proof.
  unfold find_doc. induction docs as [|d docs IH]; simpl; [reflexivity|].
  destruct (String.eqb (_id d) id); [discriminate | exact IH].
Qed.

(** C1 (amended). When the index part of an attempt has gone through, the
    lookup finds no counter document, and a concurrent bootstrap inserts
    it before this process does, the insert is refused with a duplicate
    key error, which the second loop treats like any exception that is not
    an [AutoReconnect]: the error is logged and the process exits with
    status 1, without another attempt.  The counters collection then holds
    exactly one counter document, the one the other process inserted. *)
Theorem C1_lost_seeding_race_aborts (db : Database) (ttl : Z) (n : nat)
    (st0 st : state) (rest : list event) :
  converge_indexes db ttl st0 = (Ret tt, st) ->
  find_doc last_known_id (counters (store st)) = None ->
  sched st = Pass :: Race :: rest ->
  exists st',
    for_range (S n) (converge_attempt db ttl) st0 = (Exit 1, st') /\
    trace st' =
      trace st ++
        [Call (FindOne db last_known_id);
         Call (Insert db (mkCounter last_known_id 0));
         converge_error (DuplicateKeyError "duplicate key error")] /\
    counters (store st') = counters (store st) ++ [mkCounter last_known_id 0] /\
    count_counter (counters (store st')) = 1%nat.
Proof.
  intros Hix Hnone Hs.
  assert (Hc0 := find_doc_none_count _ Hnone).
  destruct st as [[ix cs] sch tr fr]. simpl in *. subst sch.
  eexists. split.
  - apply for_range_exit.
    unfold converge_attempt, converge_sequence, try_except.
    unfold bind at 1. rewrite Hix.
    unfold seed_counter, find_one, insert, bind, driver, concurrent_seed. simpl.
    rewrite Hnone. simpl. rewrite Hnone. simpl.
    rewrite (find_doc_app_none _ _ _ Hnone). reflexivity.
  - simpl. split; [rewrite <- !app_assoc; reflexivity|]. split; [reflexivity|].
    unfold count_counter in *. rewrite List.filter_app, length_app, Hc0.
    reflexivity.
Qed.

Lemma C1_lost_seeding_race_aborts_witness :
  exists st',
    for_range 10 (converge_attempt sample_master 120) race_start = (Exit 1, st') /\
    count_counter (counters (store st')) = 1%nat.
Proof.
  destruct (C1_lost_seeding_race_aborts sample_master 120 9 race_start
              (snd (converge_indexes sample_master 120 race_start)) [])
    as (st' & Hrun & _ & _ & Hcount).
  - vm_compute. reflexivity.
  - vm_compute. reflexivity.
  - vm_compute. reflexivity.
  - exists st'. split; [exact Hrun | exact Hcount].
Defined.

(** C1 as stated fails: on a first start against an empty store, with the
    counter seeded by another server between this server's lookup and its
    insert, the insert is refused with a duplicate key error, the error is
    logged, and [init_database] exits with status 1. *)
Lemma C1_counterexample :
  fst (init_database sample_config (boot empty_store (repeat Pass 26 ++ [Race]))) =
    Exit 1 /\
  List.last
    (trace (snd (init_database sample_config
                   (boot empty_store (repeat Pass 26 ++ [Race])))))
    (Sleep 0) =
    converge_error (DuplicateKeyError "duplicate key error") /\
  counters (store (snd (init_database sample_config
                          (boot empty_store (repeat Pass 26 ++ [Race]))))) =
    [mkCounter "last_known_id" 0].
Proof. split; [|split]; vm_compute; reflexivity. Qed.

(** ** C4: removing the deprecated indexes *)

(** How the removal of a deprecated index ends.  For each of the two
    deprecated index names the attempt asks the server to drop the index.  When the request reaches the
    server the step returns: the index is gone afterwards, dropped if it
    was there, and the server's "index not found" swallowed if it was not.
    When the request fails, every [OperationFailure] is swallowed as well
    and the step returns with the store untouched; an [AutoReconnect] is
    answered with a warning, a sleep of 0.5 and the next attempt; any other
    exception is logged as an error and the process exits with status 1. *)
Lemma deprecated_index_removal_cases (db : Database) (ttl : Z) (n : nat)
    (name : string) (st0 st : state) (ev : event) (rest : list event) :
  removal_reached db name st0 st ->
  sched st = ev :: rest ->
  match ev with
  | Fault ex =>
      let st1 := with_sched rest (record (Call (DropIndex db name)) st) in
      if isinstance_OperationFailure ex then
        drop_deprecated_index db name st = (Ret tt, st1)
      else if isinstance_AutoReconnect ex then
        for_range (S n) (converge_attempt db ttl) st0 =
          for_range n (converge_attempt db ttl)
            (record (Sleep (1 # 2)) (record converge_warning st1))
      else
        for_range (S n) (converge_attempt db ttl) st0 =
          (Exit 1, record (converge_error ex) st1)
  | _ =>
      exists st1,
        drop_deprecated_index db name st = (Ret tt, st1) /\
        sched st1 = rest /\
        indexes (store st1) = delete name (indexes (store st)) /\
        index_mutations (trace st1) =
          index_mutations (trace st) ++
            match indexes (store st) !! name with
            | Some _ => [Dropped name]
            | None => []
            end
  end.
Proof.
  intros Hreach Hs.
  assert (Hthrough : (forall ex, ev <> Fault ex) ->
    exists st1,
      drop_deprecated_index db name st = (Ret tt, st1) /\
      sched st1 = rest /\
      indexes (store st1) = delete name (indexes (store st)) /\
      index_mutations (trace st1) =
        index_mutations (trace st) ++
          match indexes (store st) !! name with
          | Some _ => [Dropped name]
          | None => []
          end).
  { intros Hev.
    destruct (driver_through (DropIndex db name) st ev rest Hs Hev)
      as (st1 & Hd & Hs1 & Ht1 & _ & Hi1).
    unfold drop_deprecated_index, drop_index, try_except, bind.
    rewrite Hd, Hi1.
    destruct (indexes (store st) !! name) as [index|] eqn:Hix; simpl.
    - eexists. split; [reflexivity|]. simpl.
      rewrite Ht1, !index_mutations_snoc. simpl.
      rewrite app_nil_r. auto.
    - eexists. split; [reflexivity|].
      rewrite Hi1, Ht1, index_mutations_snoc, (delete_id _ _ Hix). simpl.
      rewrite !app_nil_r. auto. }
  destruct ev as [|ex|]; try (apply Hthrough; discriminate).
  assert (Hstep : drop_deprecated_index db name st =
            if isinstance_OperationFailure ex
            then (Ret tt, with_sched rest (record (Call (DropIndex db name)) st))
            else (Raise ex, with_sched rest (record (Call (DropIndex db name)) st))).
  { unfold drop_deprecated_index, drop_index, try_except, bind.
    rewrite (driver_fault _ _ _ _ Hs).
    destruct (isinstance_OperationFailure ex); reflexivity. }
  cbv zeta. destruct (isinstance_OperationFailure ex); [exact Hstep|].
  assert (Hseq : converge_sequence db ttl st0 =
            (Raise ex, with_sched rest (record (Call (DropIndex db name)) st))).
  { unfold converge_sequence, converge_indexes.
    destruct Hreach as [[-> ->]|[-> Hfirst]].
    - unfold bind at 1. unfold bind at 1. rewrite Hstep. reflexivity.
    - unfold bind at 1. unfold bind at 1. rewrite Hfirst.
      unfold bind at 1. rewrite Hstep. reflexivity. }
  destruct (isinstance_AutoReconnect ex) eqn:Har.
  - apply for_range_next. unfold converge_attempt, try_except.
    rewrite Hseq, Har. reflexivity.
  - apply for_range_exit. unfold converge_attempt, try_except.
    rewrite Hseq, Har. reflexivity.
Qed.

Example deprecated_index_removal_fatal :
  for_range 10 (converge_attempt sample_master 120) removal_start =
    (Exit 1,
     record (converge_error (OtherException "socket closed"))
       (with_sched []
          (record (Call (DropIndex sample_master "created_at_1"))
             (snd (drop_deprecated_index sample_master "uuid_1_channel_1"
                     removal_start))))).
Proof.
  apply (deprecated_index_removal_cases sample_master 120 9 "created_at_1"
           removal_start
           (snd (drop_deprecated_index sample_master "uuid_1_channel_1" removal_start))
           (Fault (OtherException "socket closed")) []).
  - right. split; [reflexivity | vm_compute; reflexivity].
  - vm_compute. reflexivity.
Defined.

(** A whole start-up in which the server denies the first removal:
    start-up goes on and returns its handles, and the deprecated index is
    still there. *)
Example start_up_keeps_refused_index :
  (exists dbs,
     fst (init_database sample_config
            (boot legacy_store
               (repeat Pass 20 ++ [Fault (OperationFailure "not authorized")]))) =
       Ret dbs) /\
  is_Some
    (indexes
       (store (snd (init_database sample_config
                      (boot legacy_store
                         (repeat Pass 20 ++
                            [Fault (OperationFailure "not authorized")])))))
       !! "uuid_1_channel_1").
Proof. split; eexists; vm_compute; reflexivity. Qed.

(** What the rest of an attempt does to the store once the first removal
    is over, when nothing fails. *)
Lemma converge_rest_quiet db ttl :
  quiet_total
    (drop_deprecated_index db "created_at_1" ;;
     ensure_index db "get_events" get_events_index ;;
     reconcile_ttl db ttl)
    (fun s => store_reconcile ttl
                (store_ensure "get_events" get_events_index
                   (store_drop "created_at_1" s))).
Proof.
  apply (quiet_bind _ _ (store_drop "created_at_1")
           (fun s => store_reconcile ttl
                       (store_ensure "get_events" get_events_index s)));
    [apply drop_deprecated_index_quiet | intros _].
  apply (quiet_bind _ _ (store_ensure "get_events" get_events_index)
           (store_reconcile ttl));
    [apply ensure_index_quiet | intros _].
  apply reconcile_ttl_quiet.
Qed.

Lemma indexes_store_seed s : indexes (store_seed s) = indexes s.
Proof. reflexivity. Qed.

Lemma lookup_store_drop_ne name name' s :
  name <> name' -> indexes (store_drop name s) !! name' = indexes s !! name'.
Proof. intros H. unfold store_drop. simpl. apply lookup_delete_ne, H. Qed.

Lemma lookup_store_ensure_ne name idx name' s :
  name <> name' -> indexes (store_ensure name idx s) !! name' = indexes s !! name'.
Proof.
  intros H. unfold store_ensure. destruct (indexes s !! name); [reflexivity|].
  simpl. apply lookup_insert_ne, H.
Qed.

Lemma lookup_store_reconcile_ne ttl name' s :
  "ttl" <> name' -> indexes (store_reconcile ttl s) !! name' = indexes s !! name'.
Proof.
  intros H. unfold store_reconcile. rewrite (lookup_store_ensure_ne _ _ _ _ H).
  destruct (indexes s !! "ttl") as [index|]; [|reflexivity].
  destruct (ttl_mismatch index ttl); [|reflexivity].
  apply lookup_store_drop_ne, H.
Qed.

(** C4 (the code departs from the claim, and from its own comment
    [# Index already deleted]).  Let the server refuse the removal of
    [uuid_1_channel_1] with an operation failure, whatever its message
    (an authorisation failure, say), while the index is there.  The
    failure is not fatal: the convergence phase swallows it, carries on
    with the rest of the sequence and returns, and the deprecated index
    is still in the index table. *)
Theorem C4_refused_removal_swallowed (db : Database) (ttl : Z) (st : state)
    (msg : string) (index : Index) :
  sched st = [Fault (OperationFailure msg)] ->
  indexes (store st) !! "uuid_1_channel_1" = Some index ->
  exists st',
    converge_phase db ttl st = (Ret tt, st') /\
    indexes (store st') !! "uuid_1_channel_1" = Some index /\
    store st' =
      store_seed
        (store_reconcile ttl
           (store_ensure "get_events" get_events_index
              (store_drop "created_at_1" (store st)))).
Proof.
  intros Hs Hix.
  set (st0 := with_frame (set_db_events_collection_ok false (frame st)) st).
  set (st1 := with_sched [] (record (Call (DropIndex db "uuid_1_channel_1")) st0)).
  assert (Hs0 : sched st0 = [Fault (OperationFailure msg)]).
  { destruct st; exact Hs. }
  assert (Hdrop : drop_deprecated_index db "uuid_1_channel_1" st0 = (Ret tt, st1)).
  { unfold drop_deprecated_index, drop_index, try_except, bind.
    rewrite (driver_fault _ _ _ _ Hs0). reflexivity. }
  assert (Hq1 : sched st1 = []) by reflexivity.
  assert (Hst1 : store st1 = store st) by (destruct st; reflexivity).
  destruct (converge_rest_quiet db ttl st1 Hq1) as ([] & st2 & Hrun2 & Hq2 & Hc2).
  destruct (seed_counter_quiet db st2 Hq2) as ([] & st3 & Hrun3 & Hq3 & Hc3).
  assert (Hatt : converge_attempt db ttl st0 =
            (Ret Break,
             with_frame (set_db_events_collection_ok true (frame st3)) st3)).
  { assert (Hidx : converge_indexes db ttl st0 = (Ret tt, st2)).
    { unfold converge_indexes. unfold bind at 1. rewrite Hdrop. exact Hrun2. }
    unfold converge_attempt, converge_sequence, try_except.
    unfold bind at 1. rewrite Hidx. unfold bind at 1. rewrite Hrun3.
    reflexivity. }
  exists (with_frame (set_db_events_collection_ok true (frame st3)) st3).
  assert (Hstore : store (with_frame (set_db_events_collection_ok true (frame st3)) st3) =
            store_seed
              (store_reconcile ttl
                 (store_ensure "get_events" get_events_index
                    (store_drop "created_at_1" (store st))))).
  { change (store st3 =
            store_seed
              (store_reconcile ttl
                 (store_ensure "get_events" get_events_index
                    (store_drop "created_at_1" (store st))))).
    rewrite Hc3, Hc2, Hst1. reflexivity. }
  split; [|split; [|exact Hstore]].
  - unfold converge_phase, assign. unfold bind at 1. unfold bind at 1.
    fold st0. rewrite (for_range_break _ _ _ _ Hatt).
    unfold bind, read. destruct st3; reflexivity.
  - rewrite Hstore, indexes_store_seed.
    rewrite lookup_store_reconcile_ne by discriminate.
    rewrite lookup_store_ensure_ne by discriminate.
    rewrite lookup_store_drop_ne by discriminate.
    exact Hix.
Qed.

Lemma C4_refused_removal_swallowed_witness :
  exists st',
    converge_phase sample_master 120
      (boot legacy_store [Fault (OperationFailure "not authorized")]) =
      (Ret tt, st') /\
    indexes (store st') !! "uuid_1_channel_1" =
      Some (mkIndex [("uuid", ASCENDING); ("channel", ASCENDING)] None).
Proof.
  destruct (C4_refused_removal_swallowed sample_master 120
              (boot legacy_store [Fault (OperationFailure "not authorized")])
              "not authorized"
              (mkIndex [("uuid", ASCENDING); ("channel", ASCENDING)] None)
              eq_refl ltac:(vm_compute; reflexivity))
    as (st' & Hrun & Hix & _).
  exists st'. split; [exact Hrun | exact Hix].
Defined.

(** * The whole start-up, under every schedule *)

(** ** A program logic with one postcondition per way of ending *)

Lemma t_conseq {A} (P P' : state -> Prop) (m : M A)
    (Q Q' : A -> state -> Prop) (X X' : exn -> state -> Prop)
    (F F' : Z -> state -> Prop) :
  triple P' m Q' X' F' ->
  (forall st, P st -> P' st) ->
  (forall a st, Q' a st -> Q a st) ->
  (forall ex st, X' ex st -> X ex st) ->
  (forall code st, F' code st -> F code st) ->
  triple P m Q X F.
Proof.
  intros H HP HQ HX HF st Hst. specialize (H st (HP st Hst)).
  destruct (m st) as [[a|ex|code] st']; auto.
Qed.

Lemma t_ret {A} (P : state -> Prop) (a : A) Q X F :
  (forall st, P st -> Q a st) -> triple P (ret a) Q X F.
Proof. intros HQ st Hst. apply HQ, Hst. Qed.

Lemma t_bind {A B} (P : state -> Prop) (m : M A) (k : A -> M B)
    (R : A -> state -> Prop) Q X F :
  triple P m R X F ->
  (forall a, triple (R a) (k a) Q X F) ->
  triple P (x <- m ;; k x) Q X F.
Proof.
  intros Hm Hk st Hst. unfold bind. specialize (Hm st Hst).
  destruct (m st) as [[a|ex|code] st']; auto. apply Hk, Hm.
Qed.

Lemma t_raise {A} (P : state -> Prop) (ex : exn) (Q : A -> state -> Prop) X F :
  (forall st, P st -> X ex st) -> triple P (raise ex) Q X F.
Proof. intros HX st Hst. apply HX, Hst. Qed.

Lemma t_exit {A} (P : state -> Prop) (code : Z) (Q : A -> state -> Prop) X F :
  (forall st, P st -> F code st) -> triple P (sys_exit code) Q X F.
Proof. intros HF st Hst. apply HF, Hst. Qed.

Lemma t_try {A} (P : state -> Prop) (body : M A) (handler : exn -> M A)
    Q (X' : exn -> state -> Prop) X F :
  triple P body Q X' F ->
  (forall ex, triple (X' ex) (handler ex) Q X F) ->
  triple P (try_except body handler) Q X F.
Proof.
  intros Hb Hh st Hst. unfold try_except. specialize (Hb st Hst).
  destruct (body st) as [[a|ex|code] st']; auto. apply Hh, Hb.
Qed.

Lemma t_emit (P : state -> Prop) (o : obs) Q X F :
  (forall st, P st -> Q tt (record o st)) -> triple P (emit o) Q X F.
Proof. intros HQ st Hst. apply HQ, Hst. Qed.

Lemma t_assign (P : state -> Prop) (f : Locals -> Locals) Q X F :
  (forall st, P st -> Q tt (with_frame (f (frame st)) st)) ->
  triple P (assign f) Q X F.
Proof. intros HQ st Hst. apply HQ, Hst. Qed.

Lemma t_read {A} (P : state -> Prop) (f : Locals -> A) Q X F :
  (forall st, P st -> Q (f (frame st)) st) -> triple P (read f) Q X F.
Proof. intros HQ st Hst. apply HQ, Hst. Qed.

Lemma t_load {A} (P : state -> Prop) name (f : Locals -> option A) Q X F :
  (forall st a, P st -> f (frame st) = Some a -> Q a st) ->
  (forall st, P st -> f (frame st) = None -> X (UnboundLocalError name) st) ->
  triple P (load name f) Q X F.
Proof.
  intros HQ HX st Hst. unfold load.
  destruct (f (frame st)) as [a|] eqn:Hf; [apply HQ | apply HX]; assumption.
Qed.

Lemma t_for_range (n : nat) (body : M ctl) (I B : state -> Prop) X F :
  triple I body (fun k => match k with Next => I | Break => B end) X F ->
  triple I (for_range n body) (fun _ st => I st \/ B st) X F.
Proof.
  intros Hbody. induction n as [|n IH]; intros st Hst.
  - simpl. auto.
  - simpl. unfold bind. specialize (Hbody st Hst).
    destruct (body st) as [[[|]|ex|code] st']; auto.
    + apply IH, Hbody.
    + simpl. auto.
Qed.

Lemma t_post {A} (P : state -> Prop) (m : M A) (Q Q' : A -> state -> Prop) X F :
  triple P m Q' X F ->
  (forall a st, Q' a st -> Q a st) ->
  triple P m Q X F.
Proof. intros H HQ. apply (t_conseq P P m Q Q' X X F F); auto. Qed.

Lemma t_loop (n : nat) (body : M ctl) (I B : state -> Prop)
    (Q : unit -> state -> Prop) X F :
  triple I body (fun k => match k with Next => I | Break => B end) X F ->
  (forall st, I st -> Q tt st) ->
  (forall st, B st -> Q tt st) ->
  triple I (for_range n body) Q X F.
Proof.
  intros Hbody HI HB.
  apply t_post with (Q' := fun _ st => I st \/ B st).
  - apply t_for_range, Hbody.
  - intros [] st [H|H]; auto.
Qed.

Lemma t_driver (P : state -> Prop) (o : op) X F :
  stable P ->
  (forall ex st, P st -> X ex st) ->
  triple P (driver o) (fun _ => P) X F.
Proof.
  intros Hs HX st Hst. unfold driver.
  destruct (Hs st o (sched st) Hst) as [_ _].
  destruct st as [s sch tr fr]. simpl.
  destruct sch as [|[|ex|] rest]; simpl.
  - destruct (Hs _ o [] Hst) as [H _]. exact H.
  - destruct (Hs _ o rest Hst) as [H _]. exact H.
  - apply HX. destruct (Hs _ o rest Hst) as [H _]. exact H.
  - destruct (Hs _ o rest Hst) as [_ H]. exact H.
Qed.

(** A request: the driver call, then what the server does with it.  The
    server side never ends the process. *)
Lemma t_request {A} (P : state -> Prop) (o : op) (f : M A)
    (Q : A -> state -> Prop) X F :
  stable P ->
  (forall ex st, P st -> X ex st) ->
  (forall st, P st ->
     match f st with
     | (Ret a, st') => Q a st'
     | (Raise ex, st') => X ex st'
     | (Exit _, _) => False
     end) ->
  triple P (driver o ;; f) Q X F.
Proof.
  intros Hs HX Hf. apply t_bind with (R := fun _ => P).
  - apply t_driver; assumption.
  - intros _ st Hst. specialize (Hf st Hst).
    destruct (f st) as [[a|ex|code] st']; [assumption | assumption | contradiction].
Qed.

Lemma stable_frame (R : Locals -> Prop) : stable (fun st => R (frame st)).
Proof. intros st o l H. split; exact H. Qed.

(** ** The handles [init_database] returns *)

Section Handles.

Variable config : Config.

(** Server requests leave the local variables alone. *)
Lemma frame_drop_index (R : Locals -> Prop) db name F :
  triple (fun st => R (frame st)) (drop_index db name)
    (fun _ st => R (frame st)) (fun _ st => R (frame st)) F.
Proof.
  apply t_request; [apply stable_frame | auto |].
  intros st H. destruct (indexes (store st) !! name); exact H.
Qed.

Lemma frame_ensure_index (R : Locals -> Prop) db name idx F :
  triple (fun st => R (frame st)) (ensure_index db name idx)
    (fun _ st => R (frame st)) (fun _ st => R (frame st)) F.
Proof.
  apply t_request; [apply stable_frame | auto |].
  intros st H. destruct (indexes (store st) !! name); exact H.
Qed.

Lemma frame_index_information (R : Locals -> Prop) db F :
  triple (fun st => R (frame st)) (index_information db)
    (fun _ st => R (frame st)) (fun _ st => R (frame st)) F.
Proof. apply t_request; [apply stable_frame | auto | auto]. Qed.

Lemma frame_find_one (R : Locals -> Prop) db id F :
  triple (fun st => R (frame st)) (find_one db id)
    (fun _ st => R (frame st)) (fun _ st => R (frame st)) F.
Proof. apply t_request; [apply stable_frame | auto | auto]. Qed.

Lemma frame_insert (R : Locals -> Prop) db doc F :
  triple (fun st => R (frame st)) (insert db doc)
    (fun _ st => R (frame st)) (fun _ st => R (frame st)) F.
Proof.
  apply t_request; [apply stable_frame | auto |].
  intros st H. destruct (find_doc (_id doc) (counters (store st))); exact H.
Qed.

Ltac frame_walk R :=
  repeat first
    [ apply frame_drop_index | apply frame_ensure_index
    | apply frame_index_information | apply frame_find_one | apply frame_insert
    | apply t_ret; auto
    | apply t_raise; auto
    | apply t_try with (X' := fun _ st => R (frame st));
        [| intros ex; destruct (isinstance_OperationFailure ex)]
    | apply t_bind with (R := fun _ st => R (frame st)); [| intros ?; cbv beta]
    | match goal with
      | |- triple _ (match ?x !! ?k with _ => _ end) _ _ _ => destruct (x !! k)
      | |- triple _ (match ?x with Some _ => _ | None => _ end) _ _ _ => destruct x
      | |- triple _ (if ?b then _ else _) _ _ _ => destruct b
      end ].

Lemma frame_converge_indexes (R : Locals -> Prop) db ttl F :
  triple (fun st => R (frame st)) (converge_indexes db ttl)
    (fun _ st => R (frame st)) (fun _ st => R (frame st)) F.
Proof.
  unfold converge_indexes, drop_deprecated_index, reconcile_ttl. frame_walk R.
Qed.

Lemma frame_seed_counter (R : Locals -> Prop) db F :
  triple (fun st => R (frame st)) (seed_counter db)
    (fun _ st => R (frame st)) (fun _ st => R (frame st)) F.
Proof. unfold seed_counter. frame_walk R. Qed.

Lemma last_error_record st text arg : last_error (record (Log ERROR text arg) st).
Proof. exists (trace st), text, arg. reflexivity. Qed.

(** One connect attempt keeps [connected]; it returns, or exits with
    status 1 right after logging an error. *)
Lemma connect_attempt_handles :
  triple (connected config) (connect_attempt config)
    (fun k st => k = Next /\ connected config st)
    (fun _ _ => False) exit_1_after_error.
Proof.
  assert (Hst : stable (connected config)).
  { apply (stable_frame (fun fr => db_connections_ok fr = true ->
                                   handles_bound config fr)). }
  unfold connect_attempt.
  apply t_try with (X' := fun _ => connected config).
  - apply t_bind with (R := fun _ => connected config); [| intros _; apply t_ret; auto].
    unfold connect_sequence, new_MongoClient.
    apply t_bind with
      (R := fun cm st =>
              cm = MongoClient (mongo_uri config) PRIMARY (use_ssl config) /\
              connected config st).
    { apply t_request; [exact Hst | auto | intros st H; split; [reflexivity | exact H]]. }
    intros cm.
    apply t_bind with
      (R := fun _ st =>
              cm = MongoClient (mongo_uri config) PRIMARY (use_ssl config) /\
              connected config st).
    { apply t_assign. intros st [Hcm H]. split; [exact Hcm | exact H]. }
    intros _.
    apply t_bind with
      (R := fun _ st =>
              cm = MongoClient (mongo_uri config) PRIMARY (use_ssl config) /\
              connected config st).
    { apply t_assign. intros st [-> H]. split; [reflexivity|].
      intros Hok. destruct (H Hok) as [Hdb _]. split; [exact Hdb | reflexivity]. }
    intros _.
    apply t_bind with
      (R := fun cn st =>
              getitem cn (db_name config) = general_handle config /\
              cm = MongoClient (mongo_uri config) PRIMARY (use_ssl config) /\
              connected config st).
    { unfold general_handle.
      destruct (String.eqb (replica_set config) "[none]").
      - apply t_request;
          [ apply (stable_frame (fun fr => cm = _ /\ (db_connections_ok fr = true ->
                                                    handles_bound config fr)))
          | intros ex st [_ H]; exact H
          | intros st H; split; [reflexivity | exact H] ].
      - unfold connect_replica_set, new_MongoReplicaSetClient.
        apply t_try with (X' := fun _ _ => True).
        + apply t_request;
            [ apply (stable_frame (fun fr => cm = _ /\ (db_connections_ok fr = true ->
                                                      handles_bound config fr)))
            | auto
            | intros st H; split; [reflexivity | exact H] ].
        + intros ex.
          apply t_bind with (R := fun _ st => last_error st).
          * apply t_emit. intros st _. apply last_error_record.
          * intros _. apply t_exit. intros st H. split; [reflexivity | exact H]. }
    intros cn.
    apply t_bind with
      (R := fun _ st =>
              getitem cn (db_name config) = general_handle config /\
              cm = MongoClient (mongo_uri config) PRIMARY (use_ssl config) /\
              connected config st).
    { apply t_assign. intros st (Hcn & Hcm & H).
      split; [exact Hcn | split; [exact Hcm | exact H]]. }
    intros _.
    apply t_bind with
      (R := fun _ st =>
              cm = MongoClient (mongo_uri config) PRIMARY (use_ssl config) /\
              mongo_db (frame st) = Some (general_handle config)).
    { apply t_assign. intros st (Hcn & Hcm & _). split; [exact Hcm|].
      simpl. rewrite Hcn. reflexivity. }
    intros _.
    apply t_bind with (R := fun _ st => handles_bound config (frame st)).
    { apply t_assign. intros st [-> Hdb]. split; [exact Hdb | reflexivity]. }
    intros _.
    apply t_assign. intros st H _. exact H.
  - intros ex. destruct (isinstance_AutoReconnect ex).
    + apply t_bind with (R := fun _ => connected config);
        [apply t_emit; auto | intros _].
      apply t_bind with (R := fun _ => connected config);
        [apply t_emit; auto | intros _].
      apply t_ret. auto.
    + apply t_bind with (R := fun _ st => last_error st).
      * apply t_emit. intros st _. apply last_error_record.
      * intros _. apply t_exit. intros st H. split; [reflexivity | exact H].
Qed.

Lemma connect_phase_handles :
  triple (fun _ => True) (connect_phase config)
    (fun _ st => handles_bound config (frame st))
    (fun _ _ => False) exit_1_after_error.
Proof.
  unfold connect_phase.
  apply t_bind with (R := fun _ => connected config).
  { apply t_assign. intros st _ Hok. discriminate Hok. }
  intros _.
  apply t_bind with (R := fun _ => connected config).
  { apply t_loop with (B := fun _ => False); [| auto | intros st []].
    apply t_post with (Q' := fun k st => k = Next /\ connected config st);
      [apply connect_attempt_handles|].
    intros k st [-> H]. exact H. }
  intros _.
  apply t_bind with
    (R := fun ok st => ok = db_connections_ok (frame st) /\ connected config st).
  { apply t_read. auto. }
  intros [|]; simpl.
  - apply t_ret. intros st [Hok H]. apply H. symmetry. exact Hok.
  - apply t_bind with (R := fun _ st => last_error st).
    + apply t_emit. intros st _. apply last_error_record.
    + intros _. apply t_exit. intros st H. split; [reflexivity | exact H].
Qed.

(** The second phase leaves the handles bound; it returns, or exits with
    status 1 right after logging an error. *)
Lemma converge_phase_handles db ttl :
  triple (fun st => handles_bound config (frame st)) (converge_phase db ttl)
    (fun _ st => handles_bound config (frame st))
    (fun _ _ => False) exit_1_after_error.
Proof.
  set (H := fun st => handles_bound config (frame st)).
  unfold converge_phase.
  apply t_bind with (R := fun _ => H); [apply t_assign; auto | intros _].
  apply t_bind with (R := fun _ => H).
  { apply t_loop with (B := H); [| auto | auto].
    unfold converge_attempt, converge_sequence.
    apply t_try with (X' := fun _ => H).
    - apply t_bind with (R := fun _ => H);
        [apply (frame_converge_indexes (handles_bound config)) | intros _].
      apply t_bind with (R := fun _ => H);
        [apply (frame_seed_counter (handles_bound config)) | intros _].
      apply t_bind with (R := fun _ => H); [apply t_assign; auto | intros _].
      apply t_ret; auto.
    - intros ex. destruct (isinstance_AutoReconnect ex).
      + apply t_bind with (R := fun _ => H); [apply t_emit; auto | intros _].
        apply t_bind with (R := fun _ => H); [apply t_emit; auto | intros _].
        apply t_ret. auto.
      + apply t_bind with (R := fun _ st => last_error st).
        * apply t_emit. intros st _. apply last_error_record.
        * intros _. apply t_exit. intros st Hl. split; [reflexivity | exact Hl]. }
  intros _.
  apply t_bind with (R := fun _ => H); [apply t_read; auto | intros ok].
  destruct (negb ok).
  - apply t_bind with (R := fun _ st => last_error st).
    + apply t_emit. intros st _. apply last_error_record.
    + intros _. apply t_exit. intros st Hl. split; [reflexivity | exact Hl].
  - apply t_ret. auto.
Qed.

(** [init_database] returns the two handles, or exits with status 1 right
    after logging an error; no exception escapes it. *)
Lemma init_database_handles :
  triple (fun _ => True) (init_database config)
    (fun r _ => r = (general_handle config, primary_handle config))
    (fun _ _ => False) exit_1_after_error.
Proof.
  unfold init_database.
  apply t_bind with (R := fun _ st => handles_bound config (frame st));
    [apply connect_phase_handles | intros _].
  apply t_bind with
    (R := fun master st => handles_bound config (frame st)).
  { apply t_load.
    - intros st a H _. exact H.
    - intros st [_ H] Hn. congruence. }
  intros master.
  apply t_bind with (R := fun _ st => handles_bound config (frame st));
    [apply converge_phase_handles | intros _].
  apply t_bind with
    (R := fun db st => db = general_handle config /\
                       handles_bound config (frame st)).
  { apply t_load.
    - intros st a [Hdb Hm] Ha. split; [congruence | split; assumption].
    - intros st [H _] Hn. congruence. }
  intros db.
  apply t_bind with
    (R := fun m st => db = general_handle config /\ m = primary_handle config).
  { apply t_load.
    - intros st a [Hdb [_ Hm]] Ha. split; [exact Hdb | congruence].
    - intros st [_ [_ H]] Hn. congruence. }
  intros m. apply t_ret. intros st [-> ->]. reflexivity.
Qed.

End Handles.

(** ** The counters collection under every schedule *)

Lemma has_counter_app docs v : has_counter (docs ++ [mkCounter last_known_id v]).
Proof.
  unfold has_counter, find_doc. induction docs as [|d docs IH]; simpl.
  - discriminate.
  - destruct (String.eqb (_id d) last_known_id); [discriminate | exact IH].
Qed.

Lemma has_counter_app_l docs more : has_counter docs -> has_counter (docs ++ more).
Proof.
  unfold has_counter, find_doc. induction docs as [|d docs IH]; simpl.
  - intros H. destruct H. reflexivity.
  - destruct (String.eqb (_id d) last_known_id); [discriminate | exact IH].
Qed.

Lemma counters_concurrent_seed s :
  counters (concurrent_seed s) = counters s \/
  (find_doc last_known_id (counters s) = None /\
   counters (concurrent_seed s) = counters s ++ [mkCounter last_known_id 0]).
Proof.
  unfold concurrent_seed. destruct (find_doc last_known_id (counters s)); auto.
Qed.

Lemma stable_on_docs R : seed_closed R -> stable (on_docs R).
Proof.
  intros Hc st o l H. unfold on_docs in *. simpl. split; [exact H|].
  destruct (counters_concurrent_seed (store st)) as [->|[Hn ->]]; [exact H|].
  apply Hc; assumption.
Qed.

Lemma grown_seed_closed docs0 (R : Locals -> Prop) :
  seed_closed (fun docs fr => grown docs0 docs /\ R fr).
Proof.
  intros docs fr [[->|[Hn ->]] HR] Hnone.
  - split; [right; auto | exact HR].
  - destruct (has_counter_app docs0 0 Hnone).
Qed.

Lemma grown_has_counter_seed_closed docs0 (R : Locals -> Prop) :
  seed_closed (fun docs fr => (grown docs0 docs /\ has_counter docs) /\ R fr).
Proof.
  intros docs fr [[_ Hh] _] Hnone. destruct (Hh Hnone).
Qed.

(** A request whose server side leaves counters and locals alone. *)
Lemma docs_request {A} R (o : op) (f : M A) F :
  seed_closed R ->
  (forall st,
     counters (store (snd (f st))) = counters (store st) /\
     frame (snd (f st)) = frame st /\
     forall code, fst (f st) <> Exit code) ->
  triple (on_docs R) (driver o ;; f) (fun _ => on_docs R) (fun _ => on_docs R) F.
Proof.
  intros Hc Hf. apply t_request; [apply stable_on_docs, Hc | auto |].
  intros st H. destruct (Hf st) as (H1 & H2 & H3).
  destruct (f st) as [[a|ex|code] st']; simpl in *; unfold on_docs in *.
  - rewrite H1, H2. exact H.
  - rewrite H1, H2. exact H.
  - apply (H3 code). reflexivity.
Qed.

Lemma docs_drop_index R db name F :
  seed_closed R ->
  triple (on_docs R) (drop_index db name) (fun _ => on_docs R) (fun _ => on_docs R) F.
Proof.
  intros Hc. apply docs_request; [exact Hc|].
  intros st. destruct (indexes (store st) !! name); repeat split; discriminate.
Qed.

Lemma docs_ensure_index R db name idx F :
  seed_closed R ->
  triple (on_docs R) (ensure_index db name idx)
    (fun _ => on_docs R) (fun _ => on_docs R) F.
Proof.
  intros Hc. apply docs_request; [exact Hc|].
  intros st. destruct (indexes (store st) !! name); repeat split; discriminate.
Qed.

Lemma docs_index_information R db F :
  seed_closed R ->
  triple (on_docs R) (index_information db)
    (fun _ => on_docs R) (fun _ => on_docs R) F.
Proof.
  intros Hc. apply docs_request; [exact Hc|]. intros st. repeat split; discriminate.
Qed.

Lemma docs_new_MongoClient R uri rp ssl F :
  seed_closed R ->
  triple (on_docs R) (new_MongoClient uri rp ssl)
    (fun _ => on_docs R) (fun _ => on_docs R) F.
Proof.
  intros Hc. apply docs_request; [exact Hc|]. intros st. repeat split; discriminate.
Qed.

Lemma docs_new_MongoReplicaSetClient R uri rs rp ssl F :
  seed_closed R ->
  triple (on_docs R) (new_MongoReplicaSetClient uri rs rp ssl)
    (fun _ => on_docs R) (fun _ => on_docs R) F.
Proof.
  intros Hc. apply docs_request; [exact Hc|]. intros st. repeat split; discriminate.
Qed.

Lemma docs_converge_indexes R db ttl F :
  seed_closed R ->
  triple (on_docs R) (converge_indexes db ttl)
    (fun _ => on_docs R) (fun _ => on_docs R) F.
Proof.
  intros Hc. unfold converge_indexes, drop_deprecated_index, reconcile_ttl.
  repeat first
    [ apply docs_drop_index; exact Hc | apply docs_ensure_index; exact Hc
    | apply docs_index_information; exact Hc
    | apply t_ret; auto
    | apply t_raise; auto
    | apply t_try with (X' := fun _ => on_docs R);
        [| intros ex; destruct (isinstance_OperationFailure ex)]
    | apply t_bind with (R := fun _ => on_docs R); [| intros ?; cbv beta]
    | match goal with
      | |- triple _ (match ?x !! ?k with _ => _ end) _ _ _ => destruct (x !! k)
      | |- triple _ (if ?b then _ else _) _ _ _ => destruct b
      end ].
Qed.

(** The first phase keeps every assertion that the environment, the local
    variables, and log and sleep records cannot disturb; no exception
    escapes it. *)
Lemma connect_phase_keeps (P : state -> Prop) config :
  stable P ->
  (forall st f, P st -> P (with_frame f st)) ->
  (forall st o, is_index_mutation o = false -> P st -> P (record o st)) ->
  triple P (connect_phase config) (fun _ => P) (fun _ _ => False) (fun _ => P).
Proof.
  intros Hs Hf Ho.
  assert (Hreq : forall (A : Type) o (a : A) F,
            triple P (driver o ;; ret a) (fun _ => P) (fun _ => P) F).
  { intros A o a F. apply t_request; [exact Hs | auto | auto]. }
  unfold connect_phase.
  apply t_bind with (R := fun _ => P); [apply t_assign; auto | intros _].
  apply t_bind with (R := fun _ => P).
  { apply t_loop with (B := P); [| auto | auto].
    unfold connect_attempt.
    apply t_try with (X' := fun _ => P).
    - apply t_bind with (R := fun _ => P); [| intros _; apply t_ret; auto].
      unfold connect_sequence, connect_replica_set, new_MongoClient,
        new_MongoReplicaSetClient.
      repeat first
        [ apply Hreq
        | apply t_assign; auto
        | apply t_emit; auto
        | apply t_exit; auto
        | apply t_try with (X' := fun _ => P); [| intros ex]
        | apply t_bind with (R := fun _ => P); [| intros ?; cbv beta]
        | match goal with
          | |- triple _ (if ?b then _ else _) _ _ _ => destruct b
          end ].
    - intros ex. destruct (isinstance_AutoReconnect ex).
      + apply t_bind with (R := fun _ => P); [apply t_emit; auto | intros _].
        apply t_bind with (R := fun _ => P); [apply t_emit; auto | intros _].
        apply t_ret. auto.
      + apply t_bind with (R := fun _ => P); [apply t_emit; auto | intros _].
        apply t_exit. auto. }
  intros _.
  apply t_bind with (R := fun _ => P); [apply t_read; auto | intros ok].
  destruct (negb ok).
  - apply t_bind with (R := fun _ => P); [apply t_emit; auto | intros _].
    apply t_exit. auto.
  - apply t_ret. auto.
Qed.

Section CounterRun.

Variable docs0 : list CounterDoc.

Lemma seed_counter_counter db F :
  triple (docs_trying docs0) (seed_counter db) (fun _ => (docs_seeded docs0) false) (fun _ => (docs_trying docs0)) F.
Proof.
  unfold seed_counter.
  apply t_bind with
    (R := fun found st =>
            (docs_trying docs0) st /\ (found <> None -> has_counter (counters (store st)))).
  { unfold find_one.
    apply t_request; [apply stable_on_docs, grown_seed_closed | auto |].
    intros st H. split; [exact H | auto]. }
  intros [doc|].
  - apply t_ret. intros st [[Hg Hf] Hh].
    split; [split; [exact Hg | apply Hh; discriminate] | exact Hf].
  - unfold insert.
    apply t_request.
    + intros st o l [H _]. 
      destruct (stable_on_docs _ (grown_seed_closed docs0
                  (fun fr => db_events_collection_ok fr = false)) st o l H)
        as [H1 H2].
      split; (split; [assumption | intros Hc; destruct Hc; reflexivity]).
    + intros ex st [H _]. exact H.
    + intros st [[Hg Hf] _]. simpl.
      destruct (find_doc last_known_id (counters (store st))) eqn:Hfind.
      * split; assumption.
      * unfold docs_seeded, on_docs. simpl. split; [split|exact Hf].
        -- destruct (grown_seed_closed docs0 (fun _ => True)
                       (counters (store st)) (frame st)) as [H _]; auto.
        -- apply has_counter_app.
Qed.

Lemma converge_attempt_counter db ttl :
  triple (docs_trying docs0) (converge_attempt db ttl)
    (fun k => match k with Next => (docs_trying docs0) | Break => (docs_seeded docs0) true end)
    (fun _ _ => False) (fun _ => (docs_grown docs0)).
Proof.
  assert (HTG : forall st, (docs_trying docs0) st -> (docs_grown docs0) st).
  { intros st [Hg _]. split; [exact Hg | exact I]. }
  unfold converge_attempt, converge_sequence.
  apply t_try with (X' := fun _ => (docs_trying docs0)).
  - apply t_bind with (R := fun _ => (docs_trying docs0));
      [apply docs_converge_indexes, grown_seed_closed | intros _].
    apply t_bind with (R := fun _ => (docs_seeded docs0) false);
      [apply seed_counter_counter | intros _].
    apply t_bind with (R := fun _ => (docs_seeded docs0) true).
    + apply t_assign. intros st [H _]. split; [exact H | reflexivity].
    + intros _. apply t_ret. auto.
  - intros ex. destruct (isinstance_AutoReconnect ex).
    + apply t_bind with (R := fun _ => (docs_trying docs0)); [apply t_emit; auto | intros _].
      apply t_bind with (R := fun _ => (docs_trying docs0)); [apply t_emit; auto | intros _].
      apply t_ret. auto.
    + apply t_bind with (R := fun _ => (docs_grown docs0)); [apply t_emit; auto | intros _].
      apply t_exit. auto.
Qed.

Lemma converge_phase_counter db ttl :
  triple (docs_grown docs0) (converge_phase db ttl)
    (fun _ st => (docs_grown docs0) st /\ has_counter (counters (store st)))
    (fun _ _ => False) (fun _ => (docs_grown docs0)).
Proof.
  unfold converge_phase.
  apply t_bind with (R := fun _ => (docs_trying docs0)).
  { apply t_assign. intros st [H _]. split; [exact H | reflexivity]. }
  intros _.
  apply t_bind with (R := fun _ st => (docs_trying docs0) st \/ (docs_seeded docs0) true st).
  { apply t_loop with (B := (docs_seeded docs0) true); [apply converge_attempt_counter | auto | auto]. }
  intros _.
  apply t_bind with
    (R := fun ok st => (ok = false /\ (docs_trying docs0) st) \/ (ok = true /\ (docs_seeded docs0) true st)).
  { apply t_read. intros st [H|H]; [left|right]; (split; [apply H | exact H]). }
  intros [|]; simpl.
  - apply t_ret. intros st [[[=] _]|[_ [[Hg Hh] _]]].
    split; [split; [exact Hg | exact I] | exact Hh].
  - apply t_bind with (R := fun _ => (docs_grown docs0)).
    + apply t_emit. intros st [[_ [Hg _]]|[_ [[Hg _] _]]]; split; auto.
    + intros _. apply t_exit. auto.
Qed.

Lemma connect_phase_counter config :
  triple (docs_grown docs0) (connect_phase config) (fun _ => (docs_grown docs0)) (fun _ _ => False) (fun _ => (docs_grown docs0)).
Proof.
  apply connect_phase_keeps.
  - apply stable_on_docs, (grown_seed_closed docs0 (fun _ => True)).
  - auto.
  - auto.
Qed.

Lemma init_database_counter config :
  triple (docs_grown docs0) (init_database config)
    (fun _ st => (docs_grown docs0) st /\ has_counter (counters (store st)))
    (fun _ => (docs_grown docs0)) (fun _ => (docs_grown docs0)).
Proof.
  unfold init_database.
  apply t_bind with (R := fun _ => (docs_grown docs0)).
  { eapply t_conseq; [apply connect_phase_counter | auto | auto | | auto].
    intros ex st []. }
  intros _.
  apply t_bind with (R := fun _ => (docs_grown docs0)); [apply t_load; auto | intros master].
  apply t_bind with
    (R := fun _ st => (docs_grown docs0) st /\ has_counter (counters (store st))).
  { eapply t_conseq; [apply converge_phase_counter | auto | auto | | auto].
    intros ex st []. }
  intros _.
  apply t_bind with
    (R := fun _ st => (docs_grown docs0) st /\ has_counter (counters (store st)));
    [apply t_load; [auto | intros st [H _] _; exact H] | intros db].
  apply t_bind with
    (R := fun _ st => (docs_grown docs0) st /\ has_counter (counters (store st)));
    [apply t_load; [auto | intros st [H _] _; exact H] | intros m].
  apply t_ret. auto.
Qed.

End CounterRun.

(** ** The index table under every schedule *)

Lemma t_of_vhoare {A} (R : view_pred) (m : M A) (Q : A -> view_pred)
    (E : view_pred) :
  vhoare R m Q E ->
  triple (on_view R) m (fun a => on_view (Q a))
    (fun _ => on_view E) (fun _ => on_view E).
Proof.
  intros H st Hst. specialize (H st Hst).
  destruct (m st) as [[a|ex|code] st']; exact H.
Qed.

Lemma stable_index_reach ttl ix0 ms0 : stable (index_reach ttl ix0 ms0).
Proof.
  intros st o l H. unfold index_reach in *. simpl.
  rewrite indexes_concurrent_seed, index_mutations_snoc, app_nil_r. auto.
Qed.

Lemma init_database_reach config ix0 ms0 :
  triple (index_reach (event_ttl config) ix0 ms0) (init_database config)
    (fun _ st => index_reach (event_ttl config) ix0 ms0 st /\
                 settled (event_ttl config) (indexes (store st)))
    (fun _ => index_reach (event_ttl config) ix0 ms0)
    (fun _ => index_reach (event_ttl config) ix0 ms0).
Proof.
  set (P := index_reach (event_ttl config) ix0 ms0).
  unfold init_database.
  apply t_bind with (R := fun _ => P).
  { apply t_conseq with (P' := P) (Q' := fun _ => P) (X' := fun _ _ => False)
                        (F' := fun _ => P); auto.
    - apply connect_phase_keeps.
      + apply stable_index_reach.
      + auto.
      + intros st o Ho H. unfold P, index_reach in *. simpl.
        rewrite index_mutations_snoc, Ho, app_nil_r. exact H.
    - intros ex st []. }
  intros _.
  apply t_bind with (R := fun _ => P); [apply t_load; auto | intros master].
  apply t_bind with
    (R := fun _ st => P st /\ settled (event_ttl config) (indexes (store st))).
  { apply (t_of_vhoare _ _ _ _
             (converge_phase_refines master (event_ttl config) ix0 ms0)). }
  intros _.
  apply t_bind with
    (R := fun _ st => P st /\ settled (event_ttl config) (indexes (store st)));
    [apply t_load; [auto | intros st [H _] _; exact H] | intros db].
  apply t_bind with
    (R := fun _ st => P st /\ settled (event_ttl config) (indexes (store st)));
    [apply t_load; [auto | intros st [H _] _; exact H] | intros m].
  apply t_ret. auto.
Qed.

Lemma mutations_unmanaged ttl ix ms ix' name :
  mutations ttl ix ms ix' ->
  ~ In name managed_indexes ->
  ix' !! name = ix !! name.
Proof.
  intros Hm Hname. induction Hm as [|ix ms ix1 m ix2 Hm IH Hstep]; [reflexivity|].
  rewrite <- IH.
  assert (Hne : forall k, In k managed_indexes -> k <> name).
  { intros k Hk ->. exact (Hname Hk). }
  inversion Hstep as [? k i Hin Hi | ? Hn | ? i Hi Hmi | ? Hn]; subst.
  - apply lookup_delete_ne, Hne. simpl in *. tauto.
  - apply lookup_insert_ne, Hne. simpl. tauto.
  - apply lookup_delete_ne, Hne. simpl. tauto.
  - apply lookup_insert_ne, Hne. simpl. tauto.
Qed.

Lemma mutations_keep_get_events ttl ix ms ix' index :
  mutations ttl ix ms ix' ->
  ix !! "get_events" = Some index ->
  ix' !! "get_events" = Some index.
Proof.
  intros Hm Hg. induction Hm as [|ix ms ix1 m ix2 Hm IH Hstep]; [exact Hg|].
  specialize (IH Hg).
  inversion Hstep as [? k i Hin Hi | ? Hn | ? i Hi Hmi | ? Hn]; subst.
  - rewrite lookup_delete_ne; [exact IH|].
    simpl in Hin. destruct Hin as [<-|[<-|[]]]; discriminate.
  - congruence.
  - rewrite lookup_delete_ne by discriminate. exact IH.
  - rewrite lookup_insert_ne by discriminate. exact IH.
Qed.

Lemma mutations_managed ttl ix ms ix' :
  mutations ttl ix ms ix' -> Forall (managed_mutation ttl) ms.
Proof.
  intros Hm. induction Hm as [|ix ms ix1 m ix2 Hm IH Hstep]; [constructor|].
  apply Forall_app. split; [exact IH|]. constructor; [|constructor].
  unfold managed_mutation.
  inversion Hstep as [? k i Hin Hi | ? Hn | ? i Hi Hmi | ? Hn]; subst; auto.
  simpl in Hin. destruct Hin as [<-|[<-|[]]]; auto.
Qed.

Lemma ttl_match_expiry index ttl :
  ttl_mismatch index ttl = false -> expireAfterSeconds index = Some ttl.
Proof.
  unfold ttl_mismatch. destruct (expireAfterSeconds index) as [secs|]; [|discriminate].
  intros H. apply negb_false_iff, Z.eqb_eq in H. congruence.
Qed.

(** ** Start-up as a whole *)

(** *** The configuration reads *)

Lemma bind_call_inl {A B} (ex : exn) (k : A -> M B) st :
  (x <- config_call (inl ex) ;; k x) st = (Raise ex, st).
Proof. reflexivity. Qed.

Lemma bind_call_inr {A B} (a : A) (k : A -> M B) st :
  (x <- config_call (inr a) ;; k x) st = k a st.
Proof. reflexivity. Qed.

Lemma for_range_ext n (f g : M ctl) :
  (forall st, f st = g st) -> forall st, for_range n f st = for_range n g st.
Proof.
  intros Hfg. induction n as [|n IH]; intros st; [reflexivity|].
  simpl. unfold bind. rewrite Hfg.
  destruct (g st) as [[[|]|ex|code] st']; auto.
Qed.

(** When the read of line 153 succeeds, the first phase is the one of
    the model over parsed settings. *)
Lemma full_connect_phase_refines config cfg st :
  get config "mongodb" "replica-set" = inr (replica_set cfg) ->
  Full.connect_phase config (mongo_uri cfg) (db_name cfg) (use_ssl cfg) st =
    connect_phase cfg st.
Proof.
  intros Hrs. unfold Full.connect_phase, connect_phase.
  unfold bind at 1. symmetry. unfold bind at 1. symmetry.
  destruct (assign (set_db_connections_ok false) st) as [[[]|ex|code] st0];
    [|reflexivity|reflexivity].
  unfold bind at 1. symmetry. unfold bind at 1. symmetry.
  rewrite (for_range_ext 10
             (Full.connect_attempt config (mongo_uri cfg) (db_name cfg) (use_ssl cfg))
             (connect_attempt cfg)); [reflexivity|].
  intros st1. unfold Full.connect_attempt, connect_attempt,
    Full.connect_sequence, connect_sequence, connect_replica_set.
  rewrite Hrs. reflexivity.
Qed.

(** When the five settings are read without error, [init_database] is the
    function of the model over parsed settings. *)
Lemma full_init_database_refines config cfg st :
  database_settings config cfg ->
  Full.init_database config st = init_database cfg st.
Proof.
  intros (H1 & H2 & H3 & H4 & H5).
  unfold Full.init_database, init_database. rewrite H1, H2, H3, H4.
  rewrite !bind_call_inr.
  unfold bind at 1. symmetry. unfold bind at 1. symmetry.
  rewrite (full_connect_phase_refines config cfg st H5). reflexivity.
Qed.

Lemma parser_of_settings cfg : application_settings (parser_of cfg) cfg.
Proof. repeat split. Qed.

Lemma t_false {A} (m : M A) Q X F : triple (fun _ => False) m Q X F.
Proof. intros st []. Qed.

(** When the read of line 153 raises, no attempt gets past it: the first
    phase ends the process with status 1 right after logging an error. *)
Lemma full_connect_phase_unread config uri name ssl ex :
  get config "mongodb" "replica-set" = inl ex ->
  triple (fun _ => True) (Full.connect_phase config uri name ssl)
    (fun _ _ => False) (fun _ _ => False) exit_1_after_error.
Proof.
  intros Hrs.
  set (P := fun st => db_connections_ok (frame st) = false).
  assert (Hs : stable P) by apply (stable_frame (fun fr => db_connections_ok fr = false)).
  assert (Habort : forall (A : Type) (Q : A -> state -> Prop) X R text arg,
            triple R (logger_error text arg ;; sys_exit 1) Q X exit_1_after_error).
  { intros A Q X R text arg.
    apply t_bind with (R := fun _ st => last_error st).
    - apply t_emit. intros st _. apply last_error_record.
    - intros _. apply t_exit. intros st H. split; [reflexivity | exact H]. }
  unfold Full.connect_phase.
  apply t_bind with (R := fun _ => P).
  { apply t_assign. intros st _. reflexivity. }
  intros _.
  apply t_bind with (R := fun _ => P).
  { apply t_loop with (B := fun _ => False); [| auto | intros st []].
    apply t_post with (Q' := fun k st => k = Next /\ P st);
      [| intros k st [-> H]; exact H].
    unfold Full.connect_attempt.
    apply t_try with (X' := fun _ => P).
    - apply t_bind with (R := fun _ _ => False); [| intros _; apply t_false].
      unfold Full.connect_sequence, new_MongoClient. rewrite Hrs.
      apply t_bind with (R := fun _ => P).
      { apply t_request; [exact Hs | auto | auto]. }
      intros cm.
      apply t_bind with (R := fun _ => P);
        [apply t_assign; intros st H; exact H | intros _].
      apply t_bind with (R := fun _ => P);
        [apply t_assign; intros st H; exact H | intros _].
      apply t_bind with (R := fun _ _ => False); [| intros ?; apply t_false].
      apply t_raise. auto.
    - intros ex'. destruct (isinstance_AutoReconnect ex'); [|apply Habort].
      apply t_bind with (R := fun _ => P); [apply t_emit; auto | intros _].
      apply t_bind with (R := fun _ => P); [apply t_emit; auto | intros _].
      apply t_ret. auto. }
  intros _.
  apply t_bind with (R := fun ok st => ok = false).
  { apply t_read. intros st H. exact H. }
  intros ok.
  apply t_conseq with (P' := fun _ : state => ok = false)
    (Q' := fun _ _ => False) (X' := fun _ _ => False) (F' := exit_1_after_error);
    auto.
  intros st ->. apply (Habort unit (fun _ _ => False) (fun _ _ => False)
                         (fun _ => True) _ _ st I).
Qed.

(** How [init_database] ends, reads included. *)
Lemma full_init_database_outcome (config : ConfigParser) (st : state) :
  match Full.init_database config st with
  | (Ret (db, master), _) =>
      exists cfg,
        database_settings config cfg /\
        db = general_handle cfg /\ master = primary_handle cfg
  | (Raise ex, st') => settings_error config ex /\ st' = st
  | (Exit code, st') => code = 1 /\ last_error st'
  end.
Proof.
  destruct (getint config "rse" "event-ttl") as [ex|ttl] eqn:H1.
  { unfold Full.init_database. rewrite H1, bind_call_inl.
    split; [left; exact H1 | reflexivity]. }
  destruct (get config "mongodb" "uri") as [ex|uri] eqn:H2.
  { unfold Full.init_database. rewrite H1, H2, bind_call_inr, bind_call_inl.
    split; [right; left; exact H2 | reflexivity]. }
  destruct (get config "mongodb" "database") as [ex|name] eqn:H3.
  { unfold Full.init_database.
    rewrite H1, H2, H3, !bind_call_inr, bind_call_inl.
    split; [right; right; left; exact H3 | reflexivity]. }
  destruct (getboolean config "mongodb" "use_ssl") as [ex|ssl] eqn:H4.
  { unfold Full.init_database.
    rewrite H1, H2, H3, H4, !bind_call_inr, bind_call_inl.
    split; [right; right; right; exact H4 | reflexivity]. }
  destruct (get config "mongodb" "replica-set") as [ex|rs] eqn:H5.
  - unfold Full.init_database. rewrite H1, H2, H3, H4, !bind_call_inr.
    unfold bind at 1.
    pose proof (full_connect_phase_unread config uri name ssl ex H5 st I) as H.
    destruct (Full.connect_phase config uri name ssl st) as [[[]|ex'|code] st'];
      [destruct H | destruct H | exact H].
  - set (cfg := mkConfig "" "" ttl false uri name ssl rs).
    assert (Hcfg : database_settings config cfg).
    { repeat split; assumption. }
    rewrite (full_init_database_refines config cfg st Hcfg).
    pose proof (init_database_handles cfg st I) as H.
    destruct (init_database cfg st) as [[[db master]|ex|code] st'].
    + injection H as -> ->. exists cfg. repeat split; assumption.
    + destruct H.
    + exact H.
Qed.

(** With a configuration object that answers with the settings of [cfg],
    [init_database] is the function of the model over parsed settings. *)
Lemma full_init_database_parser_of cfg st :
  Full.init_database (parser_of cfg) st = init_database cfg st.
Proof.
  apply full_init_database_refines.
  destruct (parser_of_settings cfg) as (_ & _ & _ & H). exact H.
Qed.

(** A lifetime that is not a number: the read of line 134 raises, and the
    exception escapes before anything is done. *)
Example init_database_read_escapes :
  Full.init_database
    (mkConfigParser (get (parser_of sample_config))
       (fun _ _ => inl (OtherException "ValueError"))
       (getboolean (parser_of sample_config)))
    (boot legacy_store []) =
    (Raise (OtherException "ValueError"), boot legacy_store []).
Proof. reflexivity. Qed.

(** X1. Under every schedule, and whatever the configuration object
    answers, [init_database] ends in one of three ways.  It returns, and
    then the five settings were read without error and the pair it
    returns is the general handle (a SECONDARY plain client, or the
    replica-set client when a replica set is configured) and the primary
    handle (a PRIMARY plain client), both on the configured database.  Or
    it exits with status 1 right after logging an error.  Or an exception
    escapes it, and then it is what one of the four reads of lines 134-137
    raised, and nothing has happened yet: no driver call, no log record,
    the state is the one it started in.  Nothing else escapes it; in
    particular a failing read of the replica-set name, which sits inside
    the first [try], ends in the exit. *)
Theorem X1_init_database_outcome (config : ConfigParser) (st : state) :
  match Full.init_database config st with
  | (Ret (db, master), _) =>
      exists cfg,
        database_settings config cfg /\
        db = general_handle cfg /\ master = primary_handle cfg
  | (Raise ex, st') => settings_error config ex /\ st' = st
  | (Exit code, st') => code = 1 /\ last_error st'
  end.
Proof. apply full_init_database_outcome. Qed.

(** X2. Under every schedule, and whatever the configuration object and
    the auth-cache constructors do, [__init__] from line 97 on ends in one
    of three ways.  It returns, and then every setting was read without
    error, the provider name was recognised, its constructor returned, and
    exactly two routes are bound, in this order: [/health$] to the health
    controller with the primary handle, and [/.+] to the main controller
    with the general handle, both with the same auth cache and test flag.
    Or it exits with status 1 right after logging an error.  Or an
    exception escapes it, and then it is what a configuration read outside
    every [try] raised (lines 98, 99, 134-137, 118) or what the
    constructor of the selected auth cache raised. *)
Theorem X2_RseApplication_init_outcome (config : ConfigParser)
    (constructor_raises : Full.AuthCache -> option exn) (st : state) :
  match Full.RseApplication_init config constructor_raises st with
  | (Ret routes, _) =>
      exists cfg cache,
        application_settings config cfg /\
        Full.auth_cache_of config (provider cfg) = Some cache /\
        constructor_raises cache = None /\
        routes =
          Full.expected_routes cache (general_handle cfg) (primary_handle cfg)
            (test_mode cfg)
  | (Raise ex, _) => start_up_error config constructor_raises ex
  | (Exit code, st') => code = 1 /\ last_error st'
  end.
Proof.
  unfold Full.RseApplication_init.
  destruct (get config "authcache" "authtoken-prefix") as [ex|pfx] eqn:Hpfx.
  { rewrite bind_call_inl. left. exact Hpfx. }
  rewrite bind_call_inr.
  destruct (get config "authcache" "provider") as [ex|prov] eqn:Hprov.
  { rewrite bind_call_inl. right. left. exact Hprov. }
  rewrite bind_call_inr.
  unfold logger_debug, emit. unfold bind at 1. unfold bind at 1.
  set (st1 := record _ st).
  assert (Hcache :
    match Full.auth_cache_of config prov with
    | Some cache =>
        (if String.eqb prov "memcached" then
           Full.construct constructor_raises (Full.MemcachedAuthCache config)
         else if String.eqb prov "cassandra" then
           Full.construct constructor_raises (Full.CassandraAuthCache config)
         else
           logger_error "No auth_cache provider for: %s" (StrArg prov) ;;
           sys_exit 1) st1 =
        match constructor_raises cache with
        | Some ex => (Raise ex, st1)
        | None => (Ret cache, st1)
        end
    | None =>
        (if String.eqb prov "memcached" then
           Full.construct constructor_raises (Full.MemcachedAuthCache config)
         else if String.eqb prov "cassandra" then
           Full.construct constructor_raises (Full.CassandraAuthCache config)
         else
           logger_error "No auth_cache provider for: %s" (StrArg prov) ;;
           sys_exit 1) st1 =
        (Exit 1, record (Log ERROR "No auth_cache provider for: %s" (StrArg prov)) st1)
    end).
  { unfold Full.auth_cache_of, Full.construct.
    destruct (String.eqb prov "memcached");
      [destruct (constructor_raises _); reflexivity|].
    destruct (String.eqb prov "cassandra");
      [destruct (constructor_raises _); reflexivity|].
    reflexivity. }
  destruct (Full.auth_cache_of config prov) as [cache|] eqn:Hof.
  2: { rewrite Hcache. split; [reflexivity | apply last_error_record]. }
  rewrite Hcache.
  destruct (constructor_raises cache) as [ex|] eqn:Hraises.
  { right. right. left. exists prov, cache. auto. }
  unfold bind at 1.
  pose proof (full_init_database_outcome config st1) as Hdb.
  destruct (Full.init_database config st1) as [[[db master]|ex|code] st2].
  - destruct Hdb as (cfg0 & (H1 & H2 & H3 & H4 & H5) & -> & ->).
    cbv zeta. simpl fst. simpl snd.
    destruct (getboolean config "rse" "test") as [ex|test] eqn:Htest.
    { rewrite bind_call_inl. right. right. right. right. exact Htest. }
    rewrite bind_call_inr.
    exists (mkConfig pfx prov (event_ttl cfg0) test (mongo_uri cfg0)
              (db_name cfg0) (use_ssl cfg0) (replica_set cfg0)), cache.
    split; [repeat split; assumption|].
    split; [exact Hof|]. split; [exact Hraises|]. reflexivity.
  - destruct Hdb as [Hex _]. right. right. right. left. exact Hex.
  - exact Hdb.
Qed.

Lemma has_counter_count docs : has_counter docs -> (1 <= count_counter docs)%nat.
Proof.
  unfold has_counter, find_doc, count_counter.
  induction docs as [|d docs IH]; simpl.
  - intros H. destruct H. reflexivity.
  - destruct (String.eqb (_id d) last_known_id); simpl; [lia | exact IH].
Qed.

Lemma grown_count docs0 docs :
  grown docs0 docs ->
  (count_counter docs0 <= 1)%nat ->
  (count_counter docs <= 1)%nat.
Proof.
  intros [->|[Hn ->]] H; [exact H|].
  unfold count_counter in *. rewrite List.filter_app, length_app.
  fold (count_counter docs0). rewrite (find_doc_none_count _ Hn). simpl. lia.
Qed.

(** X3. Whatever the schedule and however it ends, [init_database] leaves
    the counters collection as it found it, or as it found it plus the
    seed document [{_id: "last_known_id", c: 0}] at the end, and the latter
    only if the collection had no counter document: no document is ever
    removed or changed, and a collection with at most one counter document
    still has at most one. *)
Theorem X3_counters_only_grow_by_the_seed (config : Config) (st : state) :
  grown (counters (store st)) (counters (store (snd (init_database config st)))) /\
  ((count_counter (counters (store st)) <= 1)%nat ->
   (count_counter (counters (store (snd (init_database config st)))) <= 1)%nat).
Proof.
  assert (Hg : grown (counters (store st))
                 (counters (store (snd (init_database config st))))).
  { pose proof (init_database_counter (counters (store st)) config st) as H.
    assert (H0 : docs_grown (counters (store st)) st).
    { split; [left; reflexivity | exact I]. }
    specialize (H H0).
    destruct (init_database config st) as [[r|ex|code] st']; simpl.
    - destruct H as [[H _] _]. exact H.
    - destruct H as [H _]. exact H.
    - destruct H as [H _]. exact H. }
  split; [exact Hg | apply grown_count, Hg].
Qed.

(** X4. Whenever [init_database] returns, under any schedule, concurrent
    seeding included, the counters collection holds a counter document; if
    it held at most one before, it holds exactly one. *)
Theorem X4_counter_present_on_return (config : Config) (st : state) :
  match init_database config st with
  | (Ret _, st') =>
      has_counter (counters (store st')) /\
      ((count_counter (counters (store st)) <= 1)%nat ->
       count_counter (counters (store st')) = 1%nat)
  | _ => True
  end.
Proof.
  pose proof (init_database_counter (counters (store st)) config st) as H.
  assert (H0 : docs_grown (counters (store st)) st).
  { split; [left; reflexivity | exact I]. }
  specialize (H H0).
  destruct (init_database config st) as [[r|ex|code] st']; [|exact I|exact I].
  destruct H as [[Hg _] Hh]. split; [exact Hh|].
  intros Hle. pose proof (grown_count _ _ Hg Hle).
  pose proof (has_counter_count _ Hh). lia.
Qed.

(** X5. Whenever [init_database] returns, under any schedule, the events
    collection has an index named [get_events] and an index named [ttl]
    whose [expireAfterSeconds] is the configured event lifetime. *)
Theorem X5_indexes_settled_on_return (config : Config) (st : state) :
  match init_database config st with
  | (Ret _, st') =>
      is_Some (indexes (store st') !! "get_events") /\
      exists index,
        indexes (store st') !! "ttl" = Some index /\
        expireAfterSeconds index = Some (event_ttl config)
  | _ => True
  end.
Proof.
  pose proof (init_database_reach config (indexes (store st))
                (index_mutations (trace st)) st (reach_refl _ _ _)) as H.
  destruct (init_database config st) as [[r|ex|code] st']; [|exact I|exact I].
  destruct H as [_ [Hg (index & Ht & Hm)]]. split; [exact Hg|].
  exists index. split; [exact Ht | apply ttl_match_expiry, Hm].
Qed.

(** X6. Whatever the schedule and however it ends, [init_database] leaves
    every index other than [uuid_1_channel_1], [created_at_1],
    [get_events] and [ttl] exactly as it was, never replaces a
    [get_events] index that is already there, and performs no index
    mutation other than dropping one of the two deprecated indexes,
    dropping [ttl], creating [get_events] with its three ascending keys,
    and creating [ttl] with the configured expiry. *)
Theorem X6_other_indexes_untouched (config : Config) (st : state) :
  (forall name,
     ~ In name managed_indexes ->
     indexes (store (snd (init_database config st))) !! name =
       indexes (store st) !! name) /\
  (forall index,
     indexes (store st) !! "get_events" = Some index ->
     indexes (store (snd (init_database config st))) !! "get_events" =
       Some index) /\
  exists done,
    index_mutations (trace (snd (init_database config st))) =
      index_mutations (trace st) ++ done /\
    Forall (managed_mutation (event_ttl config)) done.
Proof.
  assert (Hr : index_reach (event_ttl config) (indexes (store st))
                 (index_mutations (trace st)) (snd (init_database config st))).
  { pose proof (init_database_reach config (indexes (store st))
                  (index_mutations (trace st)) st (reach_refl _ _ _)) as H.
    destruct (init_database config st) as [[r|ex|code] st']; simpl;
      [destruct H as [H _]; exact H | exact H | exact H]. }
  destruct Hr as (done & Hm & Hlog).
  split; [|split].
  - intros name Hname. eapply mutations_unmanaged; eassumption.
  - intros index Hg. eapply mutations_keep_get_events; eassumption.
  - exists done. split; [exact Hlog | eapply mutations_managed, Hm].
Qed.

(** ** Bounded work *)

Lemma emits_weaken {A} c s c' s' (m : M A) :
  emits c s m -> (c <= c')%nat -> (s <= s')%nat -> emits c' s' m.
Proof.
  intros H Hc Hs st. destruct (H st) as (more & Ht & H1 & H2 & H3).
  exists more. repeat split; [exact Ht | lia | lia | exact H3].
Qed.

(** A step that leaves the trace alone. *)
Lemma emits_skip {A} (m : M A) :
  (forall st, trace (snd (m st)) = trace st) -> emits 0 0 m.
Proof.
  intros H st. exists []. rewrite H, app_nil_r.
  repeat split; [unfold count; simpl; lia .. | constructor].
Qed.

(** A step that appends at most one record, neither a call nor a sleep. *)
Lemma emits_note {A} (m : M A) :
  (forall st,
     trace (snd (m st)) = trace st \/
     exists o, trace (snd (m st)) = trace st ++ [o] /\
               is_call o = false /\ is_sleep o = false) ->
  emits 0 0 m.
Proof.
  intros H st. destruct (H st) as [Ht|(o & Ht & Hc & Hs)].
  - exists []. rewrite Ht, app_nil_r.
    repeat split; [unfold count; simpl; lia .. | constructor].
  - exists [o]. split; [exact Ht|]. unfold count. simpl. rewrite Hc, Hs. simpl.
    repeat split; [lia | lia |]. constructor; [congruence | constructor].
Qed.

Lemma emits_driver o : emits 1 0 (driver o).
Proof.
  intros [s sch tr fr]. exists [Call o]. unfold driver, count. simpl.
  destruct sch as [|[|ex|] rest]; simpl;
    (repeat split; [lia | lia |]; constructor; [discriminate | constructor]).
Qed.

Lemma emits_sleep : emits 0 1 (time_sleep (1 # 2)).
Proof.
  intros st. exists [Sleep (1 # 2)]. unfold count. simpl.
  repeat split; [lia | lia |]. constructor; [reflexivity | constructor].
Qed.

Lemma emits_bind {A B} c1 s1 c2 s2 c s (m : M A) (k : A -> M B) :
  emits c1 s1 m -> (forall a, emits c2 s2 (k a)) ->
  (c1 + c2 <= c)%nat -> (s1 + s2 <= s)%nat ->
  emits c s (x <- m ;; k x).
Proof.
  intros Hm Hk Hc Hs st. destruct (Hm st) as (m1 & Ht1 & Hc1 & Hs1 & Hf1).
  unfold bind. destruct (m st) as [[a|ex|code] st1]; simpl in *.
  - destruct (Hk a st1) as (m2 & Ht2 & Hc2 & Hs2 & Hf2).
    exists (m1 ++ m2). rewrite Ht2, Ht1, <- app_assoc, !count_app.
    repeat split; [lia | lia | apply Forall_app; auto].
  - exists m1. repeat split; [exact Ht1 | lia | lia | exact Hf1].
  - exists m1. repeat split; [exact Ht1 | lia | lia | exact Hf1].
Qed.

Lemma emits_try {A} c1 s1 c2 s2 c s (body : M A) (handler : exn -> M A) :
  emits c1 s1 body -> (forall ex, emits c2 s2 (handler ex)) ->
  (c1 + c2 <= c)%nat -> (s1 + s2 <= s)%nat ->
  emits c s (try_except body handler).
Proof.
  intros Hb Hh Hc Hs st. destruct (Hb st) as (m1 & Ht1 & Hc1 & Hs1 & Hf1).
  unfold try_except. destruct (body st) as [[a|ex|code] st1]; simpl in *.
  - exists m1. repeat split; [exact Ht1 | lia | lia | exact Hf1].
  - destruct (Hh ex st1) as (m2 & Ht2 & Hc2 & Hs2 & Hf2).
    exists (m1 ++ m2). rewrite Ht2, Ht1, <- app_assoc, !count_app.
    repeat split; [lia | lia | apply Forall_app; auto].
  - exists m1. repeat split; [exact Ht1 | lia | lia | exact Hf1].
Qed.

Lemma emits_for_range c s (n : nat) (body : M ctl) :
  emits c s body -> emits (n * c) (n * s) (for_range n body).
Proof.
  intros Hb. induction n as [|n IH].
  - apply emits_skip. reflexivity.
  - simpl for_range.
    apply (emits_bind c s (n * c) (n * s)); [exact Hb | | simpl; lia | simpl; lia].
    intros [|]; [exact IH|].
    apply (emits_weaken 0 0); [apply emits_skip; reflexivity | lia | lia].
Qed.

(** A request: one driver call, then at most one server side record. *)
Lemma emits_request {A} o (f : M A) :
  (forall st,
     trace (snd (f st)) = trace st \/
     exists r, trace (snd (f st)) = trace st ++ [r] /\
               is_call r = false /\ is_sleep r = false) ->
  emits 1 0 (driver o ;; f).
Proof.
  intros H.
  apply (emits_bind 1 0 0 0); [apply emits_driver | | lia | lia].
  intros _. apply emits_note, H.
Qed.

Lemma emits_drop_index db name : emits 1 0 (drop_index db name).
Proof.
  apply emits_request. intros st.
  destruct (indexes (store st) !! name); simpl; eauto.
Qed.

Lemma emits_ensure_index db name idx : emits 1 0 (ensure_index db name idx).
Proof.
  apply emits_request. intros st.
  destruct (indexes (store st) !! name); simpl; eauto.
Qed.

Lemma emits_index_information db : emits 1 0 (index_information db).
Proof. apply emits_request. intros st. auto. Qed.

Lemma emits_find_one db id : emits 1 0 (find_one db id).
Proof. apply emits_request. intros st. auto. Qed.

Lemma emits_insert db doc : emits 1 0 (insert db doc).
Proof.
  apply emits_request. intros st.
  destruct (find_doc (_id doc) (counters (store st))); simpl; eauto.
Qed.

Lemma emits_new_MongoClient uri rp ssl : emits 1 0 (new_MongoClient uri rp ssl).
Proof. apply emits_request. intros st. auto. Qed.

Lemma emits_new_MongoReplicaSetClient uri rs rp ssl :
  emits 1 0 (new_MongoReplicaSetClient uri rs rp ssl).
Proof. apply emits_request. intros st. auto. Qed.

Lemma emits_log lvl text arg : emits 0 0 (emit (Log lvl text arg)).
Proof. apply emits_note. intros st. right. eauto. Qed.

Lemma emits_assign f : emits 0 0 (assign f).
Proof. apply emits_skip. reflexivity. Qed.

(** Logging an error and giving up. *)
Lemma emits_abort {A} text arg :
  emits 0 0 (logger_error text arg ;; @sys_exit A 1).
Proof.
  apply (emits_bind 0 0 0 0); [apply emits_log | | lia | lia].
  intros _. apply emits_skip. reflexivity.
Qed.

(** The two [except] clauses of either loop. *)
Lemma emits_handlers text1 text2 ex :
  emits 0 1
    (if isinstance_AutoReconnect ex then
       logger_warning text1 ;; time_sleep (1 # 2) ;; ret Next
     else
       logger_error text2 (ExnArg ex) ;; sys_exit 1).
Proof.
  destruct (isinstance_AutoReconnect ex).
  - apply (emits_bind 0 0 0 1); [apply emits_log | | lia | lia].
    intros _. apply (emits_bind 0 1 0 0); [apply emits_sleep | | lia | lia].
    intros _. apply emits_skip. reflexivity.
  - apply (emits_weaken 0 0); [apply emits_abort | lia | lia].
Qed.

Lemma emits_connect_attempt config : emits 2 1 (connect_attempt config).
Proof.
  unfold connect_attempt.
  apply (emits_try 2 0 0 1); [| intros ex; apply emits_handlers | lia | lia].
  apply (emits_bind 2 0 0 0); [| intros _; apply emits_skip; reflexivity | lia | lia].
  unfold connect_sequence.
  apply (emits_bind 1 0 1 0); [apply emits_new_MongoClient | intros cm | lia | lia].
  apply (emits_bind 0 0 1 0); [apply emits_assign | intros _ | lia | lia].
  apply (emits_bind 0 0 1 0); [apply emits_assign | intros _ | lia | lia].
  apply (emits_bind 1 0 0 0); [| intros cn | lia | lia].
  - destruct (String.eqb (replica_set config) "[none]");
      [apply emits_new_MongoClient|].
    unfold connect_replica_set.
    apply (emits_try 1 0 0 0);
      [apply emits_new_MongoReplicaSetClient | intros ex; apply emits_abort | lia | lia].
  - apply (emits_bind 0 0 0 0); [apply emits_assign | intros _ | lia | lia].
    apply (emits_bind 0 0 0 0); [apply emits_assign | intros _ | lia | lia].
    apply (emits_bind 0 0 0 0); [apply emits_assign | intros _ | lia | lia].
    apply emits_assign.
Qed.

Lemma emits_drop_deprecated_index db name :
  emits 1 0 (drop_deprecated_index db name).
Proof.
  unfold drop_deprecated_index.
  apply (emits_try 1 0 0 0); [apply emits_drop_index | | lia | lia].
  intros ex. destruct (isinstance_OperationFailure ex);
    apply emits_skip; reflexivity.
Qed.

Lemma emits_reconcile_ttl db ttl : emits 3 0 (reconcile_ttl db ttl).
Proof.
  unfold reconcile_ttl.
  apply (emits_bind 1 0 2 0); [apply emits_index_information | intros info | lia | lia].
  apply (emits_bind 1 0 1 0); [| intros _; apply emits_ensure_index | lia | lia].
  destruct (info !! "ttl") as [index|];
    [destruct (ttl_mismatch index ttl); [apply emits_drop_index|]|];
    (apply (emits_weaken 0 0); [apply emits_skip; reflexivity | lia | lia]).
Qed.

Lemma emits_seed_counter db : emits 2 0 (seed_counter db).
Proof.
  unfold seed_counter.
  apply (emits_bind 1 0 1 0); [apply emits_find_one | intros found | lia | lia].
  destruct found; [|apply emits_insert].
  apply (emits_weaken 0 0); [apply emits_skip; reflexivity | lia | lia].
Qed.

Lemma emits_converge_attempt db ttl : emits 8 1 (converge_attempt db ttl).
Proof.
  unfold converge_attempt.
  apply (emits_try 8 0 0 1); [| intros ex; apply emits_handlers | lia | lia].
  unfold converge_sequence.
  apply (emits_bind 6 0 2 0); [| intros _ | lia | lia].
  - unfold converge_indexes.
    apply (emits_bind 1 0 5 0);
      [apply emits_drop_deprecated_index | intros _ | lia | lia].
    apply (emits_bind 1 0 4 0);
      [apply emits_drop_deprecated_index | intros _ | lia | lia].
    apply (emits_bind 1 0 3 0); [apply emits_ensure_index | intros _ | lia | lia].
    apply emits_reconcile_ttl.
  - apply (emits_bind 2 0 0 0); [apply emits_seed_counter | intros _ | lia | lia].
    apply (emits_bind 0 0 0 0); [apply emits_assign | intros _ | lia | lia].
    apply emits_skip. reflexivity.
Qed.

(** What follows either loop: the flag is read, and a false flag is fatal. *)
Lemma emits_check_flag (flag : Locals -> bool) text :
  emits 0 0
    (ok <- read flag ;;
     if negb ok then logger_error text NoArg ;; sys_exit 1 else ret tt).
Proof.
  apply (emits_bind 0 0 0 0); [apply emits_skip; reflexivity | intros ok | lia | lia].
  destruct (negb ok); [apply emits_abort | apply emits_skip; reflexivity].
Qed.

Lemma emits_connect_phase config : emits 20 10 (connect_phase config).
Proof.
  unfold connect_phase.
  apply (emits_bind 0 0 20 10); [apply emits_assign | intros _ | lia | lia].
  apply (emits_bind 20 10 0 0);
    [apply (emits_for_range 2 1 10), emits_connect_attempt
    | intros _; apply emits_check_flag | lia | lia].
Qed.

Lemma emits_converge_phase db ttl : emits 80 10 (converge_phase db ttl).
Proof.
  unfold converge_phase.
  apply (emits_bind 0 0 80 10); [apply emits_assign | intros _ | lia | lia].
  apply (emits_bind 80 10 0 0);
    [apply (emits_for_range 8 1 10), emits_converge_attempt
    | intros _; apply emits_check_flag | lia | lia].
Qed.

Lemma emits_load {A} name (f : Locals -> option A) : emits 0 0 (load name f).
Proof.
  apply emits_skip. intros st. unfold load. destruct (f (frame st)); reflexivity.
Qed.

Lemma emits_init_database config : emits 100 20 (init_database config).
Proof.
  unfold init_database.
  apply (emits_bind 20 10 80 10); [apply emits_connect_phase | intros _ | lia | lia].
  apply (emits_bind 0 0 80 10); [apply emits_load | intros master | lia | lia].
  apply (emits_bind 80 10 0 0); [apply emits_converge_phase | intros _ | lia | lia].
  apply (emits_bind 0 0 0 0); [apply emits_load | intros db | lia | lia].
  apply (emits_bind 0 0 0 0); [apply emits_load | intros m | lia | lia].
  apply emits_skip. reflexivity.
Qed.

(** X7. The work of start-up is bounded under every schedule: [__init__]
    and [init_database] issue at most 100 driver calls (20 while
    connecting, 80 while converging) and sleep at most 20 times (10 per
    loop), and every sleep lasts 0.5; they only ever append to the trace. *)
Theorem X7_startup_work_is_bounded (config : Config) :
  emits 20 10 (connect_phase config) /\
  (forall db, emits 80 10 (converge_phase db (event_ttl config))) /\
  emits 100 20 (init_database config) /\
  emits 100 20 (RseApplication_init config).
Proof.
  split; [apply emits_connect_phase|].
  split; [intros db; apply emits_converge_phase|].
  split; [apply emits_init_database|].
  unfold RseApplication_init, logger_debug.
  apply (emits_bind 0 0 100 20); [apply emits_log | intros _ | lia | lia].
  apply (emits_bind 0 0 100 20); [| intros cache | lia | lia].
  - destruct (String.eqb (provider config) "memcached");
      [apply emits_skip; reflexivity|].
    destruct (String.eqb (provider config) "cassandra");
      [apply emits_skip; reflexivity | apply emits_abort].
  - apply (emits_bind 100 20 0 0);
      [apply emits_init_database | intros dbs | lia | lia].
    apply emits_skip. reflexivity.
Qed.

(** ** The convergence loop when the store stays unreachable *)

Lemma converge_attempt_unreachable db ttl st msg rest :
  sched st = Fault (AutoReconnect msg) :: rest ->
  converge_attempt db ttl st =
    (Ret Next,
     mkState (store st) rest (trace st ++ failed_attempt db) (frame st)).
Proof.
  destruct st as [s sch tr fr]. simpl. intros ->.
  unfold converge_attempt, converge_sequence, converge_indexes,
    drop_deprecated_index, drop_index, try_except, bind, driver. simpl.
  unfold failed_attempt, converge_warning, ret, record, with_sched. simpl.
  rewrite <- !app_assoc. reflexivity.
Qed.

Lemma converge_loop_unreachable db ttl msgs :
  forall st rest,
    sched st = transient_faults msgs ++ rest ->
    for_range (length msgs) (converge_attempt db ttl) st =
      (Ret tt,
       mkState (store st) rest
         (trace st ++ List.concat (List.repeat (failed_attempt db) (length msgs)))
         (frame st)).
Proof.
  induction msgs as [|msg msgs IH]; intros st rest Hs.
  - simpl in *. rewrite app_nil_r. destruct st; simpl in *; subst. reflexivity.
  - simpl in Hs. simpl length.
    rewrite (for_range_next _ _ _ _ (converge_attempt_unreachable db ttl st msg _ Hs)).
    rewrite (IH (mkState (store st) (transient_faults msgs ++ rest)
                   (trace st ++ failed_attempt db) (frame st)) rest eq_refl).
    simpl. rewrite <- !app_assoc. reflexivity.
Qed.

(** X8. When the first ten requests of the convergence phase all meet a
    transient failure, each of the ten attempts stops at its first
    request, logs a warning and sleeps 0.5; the phase then logs "Could not
    setup events connections" and exits with status 1.  The store is left
    as it was and the rest of the schedule is not consumed. *)
Theorem X8_converge_attempts_exhausted (db : Database) (ttl : Z) (st : state)
    (msgs : list string) (rest : list event) :
  sched st = transient_faults msgs ++ rest ->
  length msgs = 10%nat ->
  converge_phase db ttl st =
    (Exit 1,
     mkState (store st) rest
       (trace st ++
          List.concat (List.repeat (failed_attempt db) 10) ++ [converge_exhausted])
       (set_db_events_collection_ok false (frame st))).
Proof.
  intros Hs Hlen.
  pose proof (converge_loop_unreachable db ttl msgs
                (with_frame (set_db_events_collection_ok false (frame st)) st)
                rest) as Hloop.
  rewrite Hlen in Hloop.
  unfold converge_phase, assign. unfold bind at 1. unfold bind at 1.
  rewrite Hloop by (destruct st; exact Hs).
  unfold bind, read, logger_error, emit, sys_exit, record. simpl.
  rewrite <- !app_assoc. reflexivity.
Qed.

Lemma X8_converge_attempts_exhausted_witness :
  converge_phase sample_master 120 unreachable_start =
    (Exit 1,
     mkState (store unreachable_start) [Pass]
       (trace unreachable_start ++
          List.concat (List.repeat (failed_attempt sample_master) 10) ++
          [converge_exhausted])
       (set_db_events_collection_ok false (frame unreachable_start))).
Proof.
  apply (X8_converge_attempts_exhausted sample_master 120 unreachable_start
           (repeat "no primary" 10) [Pass]); reflexivity.
Defined.

(** ** Start-up with nothing in the way *)

Lemma connect_phase_quiet config st :
  sched st = [] ->
  exists st1,
    connect_phase config st = (Ret tt, st1) /\
    sched st1 = [] /\ store st1 = store st /\
    handles_bound config (frame st1).
Proof.
  destruct st as [s sch tr fr]. simpl. intros ->.
  exists (snd (connect_phase config (mkState s [] tr fr))).
  unfold handles_bound, general_handle, primary_handle, connect_phase,
    connect_attempt, connect_sequence, connect_replica_set.
  destruct (String.eqb (replica_set config) "[none]");
    (split; [vm_compute; reflexivity|]);
    (split; [vm_compute; reflexivity|]);
    (split; [vm_compute; reflexivity|]);
    split; vm_compute; reflexivity.
Qed.

Lemma init_database_quiet (config : Config) (st : state) :
  sched st = [] ->
  exists st',
    init_database config st =
      (Ret (general_handle config, primary_handle config), st') /\
    store st' = converge_store (event_ttl config) (store st) /\
    converged (event_ttl config) (indexes (store st')) /\
    counters (store st') = seed_docs (counters (store st)).
Proof.
  intros Hq.
  destruct (connect_phase_quiet config st Hq) as (st1 & Hrun1 & Hq1 & Hs1 & Hdb & Hm).
  destruct (converge_phase_quiet (primary_handle config) (event_ttl config) st1 Hq1)
    as (st2 & Hrun2 & Hs2).
  assert (Hfr : frame st2 = frame st1 \/
                (mongo_db (frame st2) = mongo_db (frame st1) /\
                 mongo_db_master (frame st2) = mongo_db_master (frame st1))).
  { pose proof (converge_phase_handles config (primary_handle config)
                  (event_ttl config) st1 (conj Hdb Hm)) as H.
    rewrite Hrun2 in H. destruct H as [H1 H2]. right. split; congruence. }
  assert (Hb : handles_bound config (frame st2)).
  { destruct Hfr as [->|[H1 H2]]; [split; assumption|].
    split; congruence. }
  destruct Hb as [Hdb2 Hm2].
  exists st2. split; [|split; [|split]].
  - unfold init_database. unfold bind at 1. rewrite Hrun1.
    unfold load at 1. unfold bind at 1. rewrite Hm.
    unfold bind at 1. rewrite Hrun2.
    unfold bind, load. rewrite Hdb2, Hm2. reflexivity.
  - rewrite Hs2, Hs1. reflexivity.
  - rewrite Hs2. apply converge_store_converged.
  - rewrite Hs2, Hs1. apply counters_converge_store.
Qed.

(** X9. With no failure and no concurrent bootstrap, [init_database]
    returns its two handles from any store, and the store it leaves is
    [converge_store] applied to the store it found: both deprecated indexes
    gone, [get_events] present, [ttl] present with the configured expiry,
    every other index as it was, and the counter document seeded unless
    one was there. *)
Theorem X9_undisturbed_start_up (config : Config) (st : state) :
  sched st = [] ->
  exists st',
    init_database config st =
      (Ret (general_handle config, primary_handle config), st') /\
    store st' = converge_store (event_ttl config) (store st) /\
    converged (event_ttl config) (indexes (store st')) /\
    counters (store st') = seed_docs (counters (store st)).
Proof. apply init_database_quiet. Qed.

Lemma X9_undisturbed_start_up_witness :
  exists st',
    init_database rs_config (boot legacy_store []) =
      (Ret (general_handle rs_config, primary_handle rs_config), st') /\
    store st' =
      converge_store (event_ttl rs_config) (store (boot legacy_store [])).
Proof.
  destruct (X9_undisturbed_start_up rs_config (boot legacy_store []) eq_refl)
    as (st' & Hrun & Hs & _).
  exists st'. split; [exact Hrun | exact Hs].
Defined.

(** ** Retries never repeat an index mutation *)

Lemma in_snoc {A} (x y : A) (l : list A) : In x (l ++ [y]) -> In x l \/ x = y.
Proof.
  intros H. apply in_app_or in H. destruct H as [H|[H|[]]]; auto.
Qed.

Lemma nodup_snoc {A} (x : A) (l : list A) :
  List.NoDup l -> ~ In x l -> List.NoDup (l ++ [x]).
Proof.
  induction l as [|y l IH]; simpl; intros Hnd Hni.
  - constructor; [intros [] | constructor].
  - inversion Hnd as [|? ? Hy Hl]; subst. constructor.
    + intros H. apply in_snoc in H. destruct H as [H| ->]; [exact (Hy H)|].
      apply Hni. left. reflexivity.
    + apply IH; [exact Hl|]. intros H. apply Hni. right. exact H.
Qed.

Lemma mutations_once ttl ix ms ix' :
  mutations ttl ix ms ix' -> List.NoDup ms /\ once_inv ttl ms ix'.
Proof.
  intros Hm. induction Hm as [|ix ms ix1 m ix2 Hm [Hnd Hinv] Hstep].
  - split; [constructor|]. repeat split; intros; simpl in *; tauto.
  - destruct Hinv as (Hdep & Hge & Hdt & Hct).
    assert (Hsnoc : ~ In m ms -> List.NoDup (ms ++ [m])).
    { intros Hni. apply nodup_snoc; assumption. }
    inversion Hstep as [? name i Hin Hi | ? Hn | ? i Hi Hmi | ? Hn]; subst.
    + destruct (deprecated_not_ttl name Hin) as [Hne _].
      assert (Hng : name <> "get_events").
      { simpl in Hin. destruct Hin as [<-|[<-|[]]]; discriminate. }
      split.
      * apply Hsnoc. intros Hi'. rewrite (Hdep name Hin Hi') in Hi. discriminate.
      * split; [|split; [|split]].
        -- intros name' Hin' H. apply in_snoc in H. destruct H as [H|H].
           ++ apply lookup_delete_None. right. exact (Hdep name' Hin' H).
           ++ injection H as ->. apply lookup_delete_eq.
        -- intros H. apply in_snoc in H. destruct H as [H|H]; [|discriminate].
           rewrite lookup_delete_ne by exact Hng. exact (Hge H).
        -- intros H. apply in_snoc in H. destruct H as [H|H].
           ++ rewrite lookup_delete_ne by exact Hne. exact (Hdt H).
           ++ injection H as <-. destruct Hne. reflexivity.
        -- intros H. apply in_snoc in H. destruct H as [H|H]; [|discriminate].
           rewrite lookup_delete_ne by exact Hne. exact (Hct H).
    + split.
      * apply Hsnoc. intros Hi'. destruct (Hge Hi') as [g Hg]. congruence.
      * split; [|split; [|split]].
        -- intros name' Hin' H. apply in_snoc in H.
           destruct H as [H|H]; [|discriminate].
           rewrite lookup_insert_ne; [exact (Hdep name' Hin' H)|].
           simpl in Hin'. destruct Hin' as [<-|[<-|[]]]; discriminate.
        -- intros _. rewrite lookup_insert_eq. eauto.
        -- intros H. apply in_snoc in H. destruct H as [H|H]; [|discriminate].
           rewrite lookup_insert_ne by discriminate. exact (Hdt H).
        -- intros H. apply in_snoc in H. destruct H as [H|H]; [|discriminate].
           rewrite lookup_insert_ne by discriminate. exact (Hct H).
    + assert (Hnot : ix1 !! "ttl" <> Some (ttl_index ttl)).
      { intros Heq. rewrite Heq in Hi. injection Hi as <-.
        rewrite ttl_index_matches in Hmi. discriminate. }
      split.
      * apply Hsnoc. intros Hi'. destruct (Hdt Hi') as [H|H]; congruence.
      * split; [|split; [|split]].
        -- intros name' Hin' H. apply in_snoc in H. destruct H as [H|H].
           ++ apply lookup_delete_None. right. exact (Hdep name' Hin' H).
           ++ injection H as ->. apply lookup_delete_eq.
        -- intros H. apply in_snoc in H. destruct H as [H|H]; [|discriminate].
           rewrite lookup_delete_ne by discriminate. exact (Hge H).
        -- intros _. left. apply lookup_delete_eq.
        -- intros H. apply in_snoc in H. destruct H as [H|H]; [|discriminate].
           destruct (Hnot (Hct H)).
    + split.
      * apply Hsnoc. intros Hi'. rewrite (Hct Hi') in Hn. discriminate.
      * split; [|split; [|split]].
        -- intros name' Hin' H. apply in_snoc in H.
           destruct H as [H|H]; [|discriminate].
           rewrite lookup_insert_ne; [exact (Hdep name' Hin' H)|].
           destruct (deprecated_not_ttl name' Hin') as [Hne _].
           intros Heq. apply Hne. symmetry. exact Heq.
        -- intros H. apply in_snoc in H. destruct H as [H|H]; [|discriminate].
           rewrite lookup_insert_ne by discriminate. exact (Hge H).
        -- intros _. right. apply lookup_insert_eq.
        -- intros _. apply lookup_insert_eq.
Qed.

(** X10. Retries never repeat work on the indexes: under every schedule
    and however [init_database] ends, no index mutation is performed
    twice, so a whole run performs at most five index mutations, however
    many attempts it takes. *)
Theorem X10_each_index_mutation_at_most_once (config : Config) (st : state) :
  exists done,
    index_mutations (trace (snd (init_database config st))) =
      index_mutations (trace st) ++ done /\
    List.NoDup done /\
    (length done <= 5)%nat.
Proof.
  assert (Hr : index_reach (event_ttl config) (indexes (store st))
                 (index_mutations (trace st)) (snd (init_database config st))).
  { pose proof (init_database_reach config (indexes (store st))
                  (index_mutations (trace st)) st (reach_refl _ _ _)) as H.
    destruct (init_database config st) as [[r|ex|code] st']; simpl;
      [destruct H as [H _]; exact H | exact H | exact H]. }
  destruct Hr as (done & Hm & Hlog).
  destruct (mutations_once _ _ _ _ Hm) as [Hnd _].
  exists done. split; [exact Hlog|]. split; [exact Hnd|].
  change 5%nat with (length (all_mutations (event_ttl config))).
  apply List.NoDup_incl_length; [exact Hnd|].
  intros o Ho.
  pose proof (mutations_managed _ _ _ _ Hm) as Hall.
  rewrite List.Forall_forall in Hall. specialize (Hall o Ho).
  unfold managed_mutation in Hall. unfold all_mutations. simpl.
  intuition (subst; auto).
Qed.

(** ** Starting twice *)

Lemma seed_docs_has_counter docs : has_counter docs -> seed_docs docs = docs.
Proof.
  unfold has_counter, seed_docs. destruct (find_doc last_known_id docs);
    [reflexivity | intros H; destruct H; reflexivity].
Qed.

Lemma has_counter_seed_docs docs : has_counter (seed_docs docs).
Proof.
  unfold seed_docs. destruct (find_doc last_known_id docs) eqn:Hf.
  - unfold has_counter. rewrite Hf. discriminate.
  - apply has_counter_app.
Qed.

(** On a converged store with a counter, convergence changes nothing. *)
Lemma converge_store_fixed ttl s :
  converged ttl (indexes s) -> has_counter (counters s) ->
  converge_store ttl s = s.
Proof.
  destruct s as [ix cs]. simpl.
  intros (Hu & Hc & [g Hg] & index & Ht & He) Hh.
  unfold converge_store, store_seed, store_reconcile, store_ensure, store_drop.
  simpl. rewrite (delete_id _ _ Hu), (delete_id _ _ Hc), Hg. simpl.
  rewrite Ht.
  assert (Hm : ttl_mismatch index ttl = false).
  { unfold ttl_mismatch. rewrite He, Z.eqb_refl. reflexivity. }
  rewrite Hm. simpl. rewrite Ht. simpl.
  rewrite (seed_docs_has_counter _ Hh). reflexivity.
Qed.

(** X11. Starting twice in a row with nothing in the way: the second
    [init_database] returns the same handles and leaves the whole store,
    indexes and counters, exactly as the first left it. *)
Theorem X11_second_start_changes_nothing (config : Config) (st : state) :
  sched st = [] ->
  exists st1 st2,
    init_database config st =
      (Ret (general_handle config, primary_handle config), st1) /\
    init_database config (with_sched [] st1) =
      (Ret (general_handle config, primary_handle config), st2) /\
    store st2 = store st1.
Proof.
  intros Hq.
  destruct (init_database_quiet config st Hq) as (st1 & Hrun1 & Hs1 & Hc1 & Hd1).
  destruct (init_database_quiet config (with_sched [] st1) eq_refl)
    as (st2 & Hrun2 & Hs2 & _).
  exists st1, st2. split; [exact Hrun1|]. split; [exact Hrun2|].
  rewrite Hs2. simpl. apply converge_store_fixed; [exact Hc1|].
  rewrite Hd1. apply has_counter_seed_docs.
Qed.

Lemma X11_second_start_changes_nothing_witness :
  exists st1 st2,
    init_database sample_config (boot legacy_store []) =
      (Ret (general_handle sample_config, primary_handle sample_config), st1) /\
    init_database sample_config (with_sched [] st1) =
      (Ret (general_handle sample_config, primary_handle sample_config), st2) /\
    store st2 = store st1.
Proof.
  exact (X11_second_start_changes_nothing sample_config (boot legacy_store [])
           eq_refl).
Defined.

(** ** Every sleep is announced *)

Lemma warned_weaken prev l : warned false l = true -> warned prev l = true.
Proof.
  destruct l as [|o l]; simpl; [reflexivity|].
  destruct (is_sleep o); simpl; [discriminate | auto].
Qed.

Lemma warned_app prev l1 l2 :
  warned prev l1 = true -> warned false l2 = true ->
  warned prev (l1 ++ l2) = true.
Proof.
  revert prev. induction l1 as [|o l1 IH]; intros prev H1 H2; simpl in *.
  - apply warned_weaken, H2.
  - apply andb_true_iff in H1 as [Ha Hb]. rewrite Ha. simpl. apply IH; assumption.
Qed.

Lemma announces_skip {A} (m : M A) :
  (forall st, trace (snd (m st)) = trace st) -> announces m.
Proof. intros H st. exists []. rewrite H, app_nil_r. auto. Qed.

(** A step that appends at most one record, not a sleep. *)
Lemma announces_note {A} (m : M A) :
  (forall st,
     trace (snd (m st)) = trace st \/
     exists o, trace (snd (m st)) = trace st ++ [o] /\ is_sleep o = false) ->
  announces m.
Proof.
  intros H st. destruct (H st) as [Ht|(o & Ht & Hs)].
  - exists []. rewrite Ht, app_nil_r. auto.
  - exists [o]. split; [exact Ht|]. simpl. rewrite Hs. reflexivity.
Qed.

Lemma announces_bind {A B} (m : M A) (k : A -> M B) :
  announces m -> (forall a, announces (k a)) -> announces (x <- m ;; k x).
Proof.
  intros Hm Hk st. destruct (Hm st) as (m1 & Ht1 & Hw1).
  unfold bind. destruct (m st) as [[a|ex|code] st1]; simpl in *; eauto.
  destruct (Hk a st1) as (m2 & Ht2 & Hw2).
  exists (m1 ++ m2). rewrite Ht2, Ht1, <- app_assoc.
  split; [reflexivity | apply warned_app; assumption].
Qed.

Lemma announces_try {A} (body : M A) (handler : exn -> M A) :
  announces body -> (forall ex, announces (handler ex)) ->
  announces (try_except body handler).
Proof.
  intros Hb Hh st. destruct (Hb st) as (m1 & Ht1 & Hw1).
  unfold try_except. destruct (body st) as [[a|ex|code] st1]; simpl in *; eauto.
  destruct (Hh ex st1) as (m2 & Ht2 & Hw2).
  exists (m1 ++ m2). rewrite Ht2, Ht1, <- app_assoc.
  split; [reflexivity | apply warned_app; assumption].
Qed.

Lemma announces_for_range (n : nat) (body : M ctl) :
  announces body -> announces (for_range n body).
Proof.
  intros Hb. induction n as [|n IH]; [apply announces_skip; reflexivity|].
  simpl for_range. apply announces_bind; [exact Hb|].
  intros [|]; [exact IH | apply announces_skip; reflexivity].
Qed.

Lemma announces_request {A} o (f : M A) :
  (forall st,
     trace (snd (f st)) = trace st \/
     exists r, trace (snd (f st)) = trace st ++ [r] /\ is_sleep r = false) ->
  announces (driver o ;; f).
Proof.
  intros H. apply announces_bind; [|intros _; apply announces_note, H].
  apply announces_note. intros [s sch tr fr]. right. exists (Call o).
  unfold driver. simpl. destruct sch as [|[|ex|] rest]; auto.
Qed.

(** Logging an error and giving up. *)
Lemma announces_abort {A} text arg :
  announces (logger_error text arg ;; @sys_exit A 1).
Proof.
  apply announces_bind; [|intros _; apply announces_skip; reflexivity].
  apply announces_note. intros st. right. eauto.
Qed.

(** The two [except] clauses of either loop: the sleep follows the warning. *)
Lemma announces_handlers text1 text2 ex :
  announces
    (if isinstance_AutoReconnect ex then
       logger_warning text1 ;; time_sleep (1 # 2) ;; ret Next
     else
       logger_error text2 (ExnArg ex) ;; sys_exit 1).
Proof.
  destruct (isinstance_AutoReconnect ex); [|apply announces_abort].
  intros st. exists [Log WARNING text1 NoArg; Sleep (1 # 2)].
  split; [|reflexivity]. simpl. rewrite <- app_assoc. reflexivity.
Qed.

Ltac announce :=
  repeat first
    [ apply announces_handlers
    | apply announces_abort
    | apply announces_request; intros st;
        repeat match goal with
               | |- context [match ?x with _ => _ end] => destruct x
               end; simpl; eauto
    | apply announces_skip; reflexivity
    | apply announces_note; intros st; right; eexists; split; reflexivity
    | apply announces_for_range
    | apply announces_try; [| intros ?]
    | apply announces_bind; [| intros ?; cbv beta]
    | match goal with
      | |- announces (match ?x !! ?k with _ => _ end) => destruct (x !! k)
      | |- announces (match ?x with Some _ => _ | None => _ end) => destruct x
      | |- announces (if ?b then _ else _) => destruct b
      end ].

Lemma announces_connect_phase config : announces (connect_phase config).
Proof.
  unfold connect_phase, connect_attempt, connect_sequence, connect_replica_set,
    new_MongoClient, new_MongoReplicaSetClient.
  announce.
Qed.

Lemma announces_converge_phase db ttl : announces (converge_phase db ttl).
Proof.
  unfold converge_phase, converge_attempt, converge_sequence, converge_indexes,
    drop_deprecated_index, reconcile_ttl, seed_counter, drop_index, ensure_index,
    index_information, find_one, insert.
  announce.
Qed.

(** X12. Under every schedule, start-up never sleeps without having just
    logged a warning: in what [init_database] and [__init__] append to the
    trace, every sleep comes right after a WARNING record. *)
Theorem X12_every_sleep_is_announced (config : Config) :
  announces (init_database config) /\ announces (RseApplication_init config).
Proof.
  assert (Hinit : announces (init_database config)).
  { unfold init_database.
    apply announces_bind; [apply announces_connect_phase | intros _].
    apply announces_bind;
      [apply announces_skip; intros st; unfold load;
       destruct (mongo_db_master (frame st)); reflexivity | intros master].
    apply announces_bind; [apply announces_converge_phase | intros _].
    apply announces_bind;
      [apply announces_skip; intros st; unfold load;
       destruct (mongo_db (frame st)); reflexivity | intros db].
    apply announces_bind;
      [apply announces_skip; intros st; unfold load;
       destruct (mongo_db_master (frame st)); reflexivity | intros m].
    apply announces_skip. reflexivity. }
  split; [exact Hinit|].
  unfold RseApplication_init, logger_debug.
  apply announces_bind;
    [apply announces_note; intros st; right; eexists; split; reflexivity
    | intros _].
  apply announces_bind; [| intros cache].
  - destruct (String.eqb (provider config) "memcached");
      [apply announces_skip; reflexivity|].
    destruct (String.eqb (provider config) "cassandra");
      [apply announces_skip; reflexivity | apply announces_abort].
  - apply announces_bind; [exact Hinit | intros dbs].
    apply announces_skip. reflexivity.
Qed.

(** ** After a first connection *)

Lemma connect_attempt_keeps_flag config :
  triple (fun st => db_connections_ok (frame st) = true) (connect_attempt config)
    (fun _ st => db_connections_ok (frame st) = true)
    (fun _ _ => False) exit_1_after_error.
Proof.
  set (P := fun st => db_connections_ok (frame st) = true).
  assert (Hs : stable P) by apply (stable_frame (fun fr => db_connections_ok fr = true)).
  assert (Hreq : forall (A : Type) o (a : A) F,
            triple P (driver o ;; ret a) (fun _ => P) (fun _ => P) F).
  { intros A o a F. apply t_request; [exact Hs | auto | auto]. }
  assert (Habort : forall (A : Type) (Q : A -> state -> Prop) X text arg,
            triple P (logger_error text arg ;; sys_exit 1) Q X exit_1_after_error).
  { intros A Q X text arg.
    apply t_bind with (R := fun _ st => last_error st).
    - apply t_emit. intros st _. apply last_error_record.
    - intros _. apply t_exit. intros st H. split; [reflexivity | exact H]. }
  unfold connect_attempt.
  apply t_try with (X' := fun _ => P).
  - apply t_bind with (R := fun _ => P); [| intros _; apply t_ret; auto].
    unfold connect_sequence, connect_replica_set, new_MongoClient,
      new_MongoReplicaSetClient.
    repeat first
      [ apply Hreq
      | apply Habort
      | apply t_assign; intros st H; exact H
      | apply t_assign; intros st H; reflexivity
      | apply t_try with (X' := fun _ => P); [| intros ex]
      | apply t_bind with (R := fun _ => P); [| intros ?; cbv beta]
      | match goal with
        | |- triple _ (if ?b then _ else _) _ _ _ => destruct b
        end ].
  - intros ex. destruct (isinstance_AutoReconnect ex); [|apply Habort].
    apply t_bind with (R := fun _ => P); [apply t_emit; auto | intros _].
    apply t_bind with (R := fun _ => P); [apply t_emit; auto | intros _].
    apply t_ret. auto.
Qed.

(** X13. The connect loop never clears its success flag: once an attempt
    has completed, however many attempts remain and whatever the schedule,
    the loop either runs to its end with the flag still set, so that later
    transient failures cannot make the phase fail, or exits with status 1
    right after logging an error, which a later failure that is not
    transient still causes. *)
Theorem X13_connected_stays_connected (config : Config) (n : nat) (st : state) :
  db_connections_ok (frame st) = true ->
  match for_range n (connect_attempt config) st with
  | (Ret _, st') => db_connections_ok (frame st') = true
  | (Raise _, _) => False
  | (Exit code, st') => code = 1 /\ last_error st'
  end.
Proof.
  intros Hok.
  pose proof (t_loop n (connect_attempt config)
                (fun st => db_connections_ok (frame st) = true)
                (fun st => db_connections_ok (frame st) = true)
                (fun _ st => db_connections_ok (frame st) = true)
                (fun _ _ => False) exit_1_after_error) as H.
  apply H; [| auto | auto | exact Hok].
  apply t_post with (Q' := fun _ st => db_connections_ok (frame st) = true);
    [apply connect_attempt_keeps_flag|].
  intros [|] st' Hst'; exact Hst'.
Qed.

Lemma X13_connected_stays_connected_witness :
  db_connections_ok
    (frame (snd (for_range 9 (connect_attempt sample_config)
                   (snd (connect_attempt sample_config
                           (boot empty_store
                              (Pass :: Pass ::
                               transient_faults (repeat "stepdown" 9)))))))) =
    true.
Proof.
  pose proof (X13_connected_stays_connected sample_config 9
                (snd (connect_attempt sample_config
                        (boot empty_store
                           (Pass :: Pass ::
                            transient_faults (repeat "stepdown" 9)))))
                ltac:(vm_compute; reflexivity)) as H.
  destruct (for_range 9 (connect_attempt sample_config) _) as [[u|ex|code] st'] eqn:E.
  - exact H.
  - destruct H.
  - exfalso. revert E. vm_compute. discriminate.
Defined.
